(** * MatchEngine-go: the order matching engine of [main.go]

    A shallow embedding of the Go program: the two order heaps
    ([BuyHeap], [SellHeap]) with their [heap.Interface] methods, the
    [container/heap] algorithms they are handed to, the engine
    ([MatchingEngine]) with its ingress channel, the matching sweep
    ([MatchOrders]) and the two top-of-book queries.

    Orders are reached through pointers ([*Order]) in the program: the
    heaps are slices of pointers and the sweep mutates the orders it
    popped in place.  The embedding therefore keeps an explicit memory
    (a finite map from addresses to [Order] values) and the heaps are
    lists of addresses. *)

From Stdlib Require Import ZArith QArith Lia.
From stdpp Require Import base option list gmap strings sorting.

Close Scope Q_scope.
Local Open Scope Z_scope.

(** ** Data model *)

(** [type OrderType string] with its two constants. *)
Definition OrderType := string.
Definition Buy : OrderType := "BUY"%string.
Definition Sell : OrderType := "SELL"%string.

(** [Price] is a [float64] in the program.  The program never computes
    with prices: it only compares them ([<], [>], [>=]) and prints them.
    The values that reach the engine come out of [json.Unmarshal], which
    yields finite numbers only, and on finite numbers the comparisons of
    [float64] are those of the rationals they denote.  Prices are
    therefore rationals here. *)
Definition price_lt (a b : Q) : bool := Qnum a * QDen b <? Qnum b * QDen a.
Definition price_gt (a b : Q) : bool := price_lt b a.
Definition price_ge (a b : Q) : bool := Qnum b * QDen a <=? Qnum a * QDen b.

(** Go's [int] is 64 bits wide on the platforms the program targets;
    arithmetic wraps around. *)
Definition wrap64 (z : Z) : Z := (z + 2 ^ 63) mod 2 ^ 64 - 2 ^ 63.
Definition in64 (z : Z) : Prop := - 2 ^ 63 <= z < 2 ^ 63.

(** [type Order struct].  The field [Type] is spelled [Type_]. *)
Record Order := mkOrder {
  ID : Z;
  Type_ : OrderType;
  Price : Q;
  Amount : Z;
  Index : Z
}.

Definition set_Index (o : Order) (i : Z) : Order :=
  mkOrder (ID o) (Type_ o) (Price o) (Amount o) i.
Definition set_Amount (o : Order) (a : Z) : Order :=
  mkOrder (ID o) (Type_ o) (Price o) a (Index o).

(** Addresses of orders and the memory that holds them. *)
Definition loc := positive.
Abbreviation Mem := (gmap loc Order).

(** [new(Order)]: an address that is not in use. *)
Definition new (σ : Mem) : loc := fresh (dom σ).

(** ** The two heaps

    [type BuyHeap []*Order] and [type SellHeap []*Order].  Their [Len],
    [Swap], [Push] and [Pop] methods are the same text twice; only
    [Less] differs.  A heap value is the list of addresses, and the kind
    says which [Less] applies.  A result of [None] is a run-time panic
    (index out of range, nil dereference). *)
Inductive HeapKind := BuyHeap | SellHeap.

Definition Len (h : list loc) : nat := length h.

(** [h[i]] followed by the dereference. *)
Definition deref (σ : Mem) (h : list loc) (i : nat) : option Order :=
  l ← h !! i; σ !! l.

(** [BuyHeap.Less]: [h[i].Price > h[j].Price];
    [SellHeap.Less]: [h[i].Price < h[j].Price]. *)
Definition better (k : HeapKind) (a b : Q) : bool :=
  match k with
  | BuyHeap => price_gt a b
  | SellHeap => price_lt a b
  end.

Definition Less (k : HeapKind) (σ : Mem) (h : list loc) (i j : nat) : option bool :=
  a ← deref σ h i; b ← deref σ h j; Some (better k (Price a) (Price b)).

(** [p.Index = i] through a pointer. *)
Definition store_Index (σ : Mem) (l : loc) (i : Z) : option Mem :=
  o ← σ !! l; Some (<[l := set_Index o i]> σ).

(** [Swap]: [h[i], h[j] = h[j], h[i]; h[i].Index = i; h[j].Index = j]. *)
Definition Swap (σ : Mem) (h : list loc) (i j : nat) : option (Mem * list loc) :=
  hi ← h !! i; hj ← h !! j;
  let h' := <[j := hi]> (<[i := hj]> h) in
  a ← h' !! i; σ1 ← store_Index σ a (Z.of_nat i);
  b ← h' !! j; σ2 ← store_Index σ1 b (Z.of_nat j);
  Some (σ2, h').

(** [Push]: the order's [Index] becomes the current length and the
    order is appended. *)
Definition Push (σ : Mem) (h : list loc) (x : loc) : option (Mem * list loc) :=
  σ' ← store_Index σ x (Z.of_nat (length h)); Some (σ', h ++ [x]).

(** [Pop]: [order := old[n-1]; order.Index = -1]; the heap becomes
    [old[0 : n-1]]. *)
Definition Pop (σ : Mem) (h : list loc) : option (loc * Mem * list loc) :=
  let n := length h in
  match n with
  | O => None
  | S m =>
      order ← h !! m;
      σ' ← store_Index σ order (-1);
      Some (order, σ', take m h)
  end.

(** ** [container/heap] of the Go standard library

    [up], [down], [heap.Push] and [heap.Pop] as in [heap.go].  Positions
    are natural numbers: a slice cannot hold the [2^62] elements it would
    take for [2*i + 1] to overflow, so the guard [j1 < 0] of [down] is
    never taken.  [(j - 1) / 2] at [j = 0] is [0] in Go (the quotient
    truncates) as it is here.  The loops carry a bound on the number of
    iterations; [None] on exhausting it. *)
Module heap.

Fixpoint up_loop (fuel : nat) (k : HeapKind) (σ : Mem) (h : list loc) (j : nat)
  : option (Mem * list loc) :=
  match fuel with
  | O => None
  | S fuel' =>
      let i := ((j - 1) / 2)%nat in
      if (i =? j)%nat then Some (σ, h)
      else
        lt ← Less k σ h j i;
        if negb lt then Some (σ, h)
        else '(σ', h') ← Swap σ h i j; up_loop fuel' k σ' h' i
  end.

Definition up (k : HeapKind) (σ : Mem) (h : list loc) (j : nat) :=
  up_loop (S j) k σ h j.

(** The result [i > i0] of [down] is used by [heap.Fix] and
    [heap.Remove] only, which the program does not call. *)
Fixpoint down_loop (fuel : nat) (k : HeapKind) (σ : Mem) (h : list loc) (i n : nat)
  : option (Mem * list loc) :=
  match fuel with
  | O => None
  | S fuel' =>
      let j1 := (2 * i + 1)%nat in
      if (n <=? j1)%nat then Some (σ, h)
      else
        let j2 := (j1 + 1)%nat in
        r ← (if (j2 <? n)%nat then Less k σ h j2 j1 else Some false);
        let j := if (r : bool) then j2 else j1 in
        lt ← Less k σ h j i;
        if negb lt then Some (σ, h)
        else '(σ', h') ← Swap σ h i j; down_loop fuel' k σ' h' j n
  end.

Definition down (k : HeapKind) (σ : Mem) (h : list loc) (i0 n : nat) :=
  down_loop (S n) k σ h i0 n.

(** [heap.Push]: [h.Push(x); up(h, h.Len()-1)]. *)
Definition Push (k : HeapKind) (σ : Mem) (h : list loc) (x : loc)
  : option (Mem * list loc) :=
  '(σ1, h1) ← Push σ h x; up k σ1 h1 (Len h1 - 1).

(** [heap.Pop]: [n := h.Len() - 1; h.Swap(0, n); down(h, 0, n); return h.Pop()]. *)
Definition Pop (k : HeapKind) (σ : Mem) (h : list loc)
  : option (loc * Mem * list loc) :=
  let n := (Len h - 1)%nat in
  '(σ1, h1) ← Swap σ h 0 n;
  '(σ2, h2) ← down k σ1 h1 0 n;
  Pop σ2 h2.

End heap.

(** ** The engine *)

(** [type MatchingEngine struct].  The two mutexes carry no data: every
    operation below that touches a book is one critical section of the
    program, run here as one step.  The unbuffered channel is the queue
    of orders whose senders wait in [AddOrder], oldest first. *)
Record MatchingEngine := mkEngine {
  BuyOrders : list loc;
  SellOrders : list loc;
  orderChannel : list loc
}.

Definition NewMatchingEngine : MatchingEngine := mkEngine [] [] [].

Definition set_BuyOrders (me : MatchingEngine) (h : list loc) : MatchingEngine :=
  mkEngine h (SellOrders me) (orderChannel me).
Definition set_SellOrders (me : MatchingEngine) (h : list loc) : MatchingEngine :=
  mkEngine (BuyOrders me) h (orderChannel me).
Definition set_orderChannel (me : MatchingEngine) (c : list loc) : MatchingEngine :=
  mkEngine (BuyOrders me) (SellOrders me) c.

(** [AddOrder]: [me.orderChannel <- order]. *)
Definition AddOrder (me : MatchingEngine) (order : loc) : MatchingEngine :=
  set_orderChannel me (orderChannel me ++ [order]).

(** [addOrderInternal]: [heap.Push] onto the buy book when the type is
    [Buy], onto the sell book otherwise. *)
Definition addOrderInternal (σ : Mem) (me : MatchingEngine) (order : loc)
  : option (Mem * MatchingEngine) :=
  o ← σ !! order;
  if String.eqb (Type_ o) Buy then
    '(σ', h) ← heap.Push BuyHeap σ (BuyOrders me) order;
    Some (σ', set_BuyOrders me h)
  else
    '(σ', h) ← heap.Push SellHeap σ (SellOrders me) order;
    Some (σ', set_SellOrders me h).

(** [processOrders]: [for order := range me.orderChannel] calls
    [addOrderInternal] on each order it receives.  Nothing closes the
    channel, so the loop never returns.  [receive] is one turn of it
    (nothing happens while no sender waits); [processOrders turns] is
    its first [turns] turns, with no other goroutine at the books in
    between. *)
Definition receive (σ : Mem) (me : MatchingEngine) : option (Mem * MatchingEngine) :=
  match orderChannel me with
  | [] => Some (σ, me)
  | order :: rest => addOrderInternal σ (set_orderChannel me rest) order
  end.

Fixpoint processOrders (turns : nat) (σ : Mem) (me : MatchingEngine)
  : option (Mem * MatchingEngine) :=
  match turns with
  | O => Some (σ, me)
  | S turns' => '(σ, me) ← receive σ me; processOrders turns' σ me
  end.

(** [func min(a, b int) int]. *)
Definition min (a b : Z) : Z := if a <? b then a else b.

(** What the program writes about trades.  [MATCH] is the line
    [MATCH #n: Compra id @ price vs Venta id @ price, Cantidad=q] of
    [MatchOrders]; [Trade] is the line of [executeTrade].  The other
    lines of [MatchOrders] report lengths and amounts and are left out. *)
Inductive Event :=
| MATCH (matchesFound : nat) (buyID : Z) (buyPrice : Q)
        (sellID : Z) (sellPrice : Q) (tradeAmount : Z)
| Trade (buyID sellID amount : Z) (price : Q).

(** [executeTrade]: reports the trade at the sell order's price.  (No
    function of the program calls it.) *)
Definition executeTrade (σ : Mem) (buyOrder sellOrder : loc) (amount : Z)
  : option Event :=
  b ← σ !! buyOrder; s ← σ !! sellOrder;
  Some (Trade (ID b) (ID s) amount (Price s)).

(** [p.Amount -= q] through a pointer. *)
Definition sub_Amount (σ : Mem) (l : loc) (q : Z) : option Mem :=
  o ← σ !! l; Some (<[l := set_Amount o (wrap64 (Amount o - q))]> σ).

(** How an iteration of the [for] loop of [MatchOrders] ends. *)
Inductive Ctl := Break | Continue.

(** The outcome of an iteration: what was written, the new value of
    [matchesFound], the memory and the engine. *)
Record Iter := mkIter {
  ctl : Ctl;
  written : list Event;
  found : nat;
  imem : Mem;
  ieng : MatchingEngine
}.

(** Re-insertion of an order that has quantity left (lines 261-281). *)
Definition reinsert (k : HeapKind) (σ : Mem) (h : list loc) (order : loc)
  : option (Mem * list loc) :=
  o ← σ !! order;
  if 0 <? Amount o then heap.Push k σ h order else Some (σ, h).

(** One iteration of the loop of [MatchOrders]. *)
Definition iteration (matchesFound : nat) (σ : Mem) (me : MatchingEngine)
  : option Iter :=
  if (Len (BuyOrders me) =? 0)%nat then
    Some (mkIter Break [] matchesFound σ me)
  else
    '(bestBuy, σ, hb) ← heap.Pop BuyHeap σ (BuyOrders me);
    let me := set_BuyOrders me hb in
    if (Len (SellOrders me) =? 0)%nat then
      '(σ, hb) ← heap.Push BuyHeap σ (BuyOrders me) bestBuy;
      Some (mkIter Break [] matchesFound σ (set_BuyOrders me hb))
    else
      '(bestSell, σ, hs) ← heap.Pop SellHeap σ (SellOrders me);
      let me := set_SellOrders me hs in
      b ← σ !! bestBuy; s ← σ !! bestSell;
      if price_ge (Price b) (Price s) then
        let tradeAmount := min (Amount b) (Amount s) in
        let matchesFound := S matchesFound in
        let line := MATCH matchesFound (ID b) (Price b) (ID s) (Price s) tradeAmount in
        σ ← sub_Amount σ bestBuy tradeAmount;
        σ ← sub_Amount σ bestSell tradeAmount;
        '(σ, hb) ← reinsert BuyHeap σ (BuyOrders me) bestBuy;
        let me := set_BuyOrders me hb in
        '(σ, hs) ← reinsert SellHeap σ (SellOrders me) bestSell;
        let me := set_SellOrders me hs in
        if ((Len (BuyOrders me) =? 0) || (Len (SellOrders me) =? 0))%nat then
          Some (mkIter Break [line] matchesFound σ me)
        else
          Some (mkIter Continue [line] matchesFound σ me)
      else
        '(σ, hb) ← heap.Push BuyHeap σ (BuyOrders me) bestBuy;
        let me := set_BuyOrders me hb in
        '(σ, hs) ← heap.Push SellHeap σ (SellOrders me) bestSell;
        Some (mkIter Break [] matchesFound σ (set_SellOrders me hs)).

(** The loop, with a bound on the number of iterations. *)
Fixpoint MatchOrders_loop (fuel : nat) (matchesFound : nat) (σ : Mem)
  (me : MatchingEngine) : option (list Event * Mem * MatchingEngine) :=
  match fuel with
  | O => None
  | S fuel' =>
      it ← iteration matchesFound σ me;
      match ctl it with
      | Break => Some (written it, imem it, ieng it)
      | Continue =>
          '(out, σ', me') ← MatchOrders_loop fuel' (found it) (imem it) (ieng it);
          Some (written it ++ out, σ', me')
      end
  end.

(** [MatchOrders]: the sweep.  The bound is one more than the number of
    orders in the two books.  The program releases each mutex between
    the pop of an order and the push that puts it back, so the
    ingestion worker can push an order while a call is under way;
    [MatchOrders] is a call during which it does not. *)
Definition MatchOrders (σ : Mem) (me : MatchingEngine)
  : option (list Event * Mem * MatchingEngine) :=
  MatchOrders_loop (S (Len (BuyOrders me) + Len (SellOrders me))) 0 σ me.

(** [GetHighestBuyOrder] and [GetHighestSellOrder]: [nil] on an empty
    book, else the address of a new order holding a copy of the root. *)
Definition GetHighestBuyOrder (σ : Mem) (me : MatchingEngine) : option (option loc * Mem) :=
  if (0 <? Len (BuyOrders me))%nat then
    o ← deref σ (BuyOrders me) 0;
    let order := new σ in Some (Some order, <[order := o]> σ)
  else Some (None, σ).

Definition GetHighestSellOrder (σ : Mem) (me : MatchingEngine) : option (option loc * Mem) :=
  if (0 <? Len (SellOrders me))%nat then
    o ← deref σ (SellOrders me) 0;
    let order := new σ in Some (Some order, <[order := o]> σ)
  else Some (None, σ).

(** [AddOrderHandler]: a new order is allocated and filled from the
    request body; a body that does not parse is answered with 400 and
    nothing is submitted, any other with 201 after [AddOrder].  The
    argument is the outcome of [json.Unmarshal]. *)
Definition zeroOrder : Order := mkOrder 0 ""%string (0 # 1) 0 0.

Definition AddOrderHandler (σ : Mem) (me : MatchingEngine) (body : option Order)
  : Z * Mem * MatchingEngine :=
  let order := new σ in
  match body with
  | None => (400, <[order := zeroOrder]> σ, me)
  | Some o => (201, <[order := o]> σ, AddOrder me order)
  end.

(** ** Runs of the engine

    The goroutines of the program, one step each: a request to
    [POST /orders], one receive of the ingestion worker, one sweep of
    the matcher, one query.  A step is a whole call: these runs are the
    executions of the program in which no other goroutine is at the
    books while a sweep is under way. *)
Record World := mkWorld {
  mem : Mem;
  engine : MatchingEngine;
  stdout : list Event
}.

Inductive Action :=
| PostOrder (body : option Order)
| Receive
| Sweep
| HighestBuy
| HighestSell.

Definition act (w : World) (a : Action) : option World :=
  match a with
  | PostOrder body =>
      let '(_, σ, me) := AddOrderHandler (mem w) (engine w) body in
      Some (mkWorld σ me (stdout w))
  | Receive =>
      '(σ, me) ← receive (mem w) (engine w);
      Some (mkWorld σ me (stdout w))
  | Sweep =>
      '(out, σ, me) ← MatchOrders (mem w) (engine w);
      Some (mkWorld σ me (stdout w ++ out))
  | HighestBuy =>
      '(_, σ) ← GetHighestBuyOrder (mem w) (engine w);
      Some (mkWorld σ (engine w) (stdout w))
  | HighestSell =>
      '(_, σ) ← GetHighestSellOrder (mem w) (engine w);
      Some (mkWorld σ (engine w) (stdout w))
  end.

Fixpoint run (w : World) (acts : list Action) : option World :=
  match acts with
  | [] => Some w
  | a :: rest => w' ← act w a; run w' rest
  end.

Definition start : World := mkWorld ∅ NewMatchingEngine [].

(** ** Invariants of a book *)

(** The fields of an order other than its heap index. *)
Definition core (o : Order) : Z * OrderType * Q * Z :=
  (ID o, Type_ o, Price o, Amount o).

(** Every address of the list holds an order. *)
Definition allocated (σ : Mem) (h : list loc) : Prop :=
  ∀ l, l ∈ h → is_Some (σ !! l).

(** [array[i].heap_index == i] at every position. *)
Definition indexed (σ : Mem) (h : list loc) : Prop :=
  ∀ i l, h !! i = Some l → Index <$> σ !! l = Some (Z.of_nat i).

(** The price at a position (0 where there is none). *)
Definition priceAt (σ : Mem) (h : list loc) (i : nat) : Q :=
  match deref σ h i with Some o => Price o | None => 0 # 1 end.

(** The heap order on prices seen as a function of the position: no
    position below [n] is [Less] than its parent. *)
Definition okF (k : HeapKind) (f : nat → Q) (c : nat) : Prop :=
  better k (f c) (f ((c - 1) / 2)%nat) = false.

Definition heapF (k : HeapKind) (f : nat → Q) (n : nat) : Prop :=
  ∀ c, (0 < c < n)%nat → okF k f c.

Definition swapF (f : nat → Q) (i j : nat) : nat → Q :=
  λ x, if (x =? i)%nat then f j else if (x =? j)%nat then f i else f x.

(** The heap order but for position [j], which may be [Less] than its
    parent: what [up] maintains. *)
Definition upInv (k : HeapKind) (f : nat → Q) (n j : nat) : Prop :=
  (∀ c, (0 < c < n)%nat → c ≠ j → okF k f c) ∧
  (∀ c, (0 < c < n)%nat → ((c - 1) / 2)%nat = j →
        better k (f c) (f ((j - 1) / 2)%nat) = false).

(** The heap order but for the children of position [i], which may be
    [Less] than [i]: what [down] maintains. *)
Definition downInv (k : HeapKind) (f : nat → Q) (n i : nat) : Prop :=
  (∀ c, (0 < c < n)%nat → ((c - 1) / 2)%nat ≠ i → okF k f c) ∧
  (∀ c, (0 < c < n)%nat → ((c - 1) / 2)%nat = i → (0 < i)%nat →
        better k (f c) (f ((i - 1) / 2)%nat) = false).

(** The child [down] looks at: the right one when it is in range and
    [Less] than the left one. *)
Definition pick (k : HeapKind) (f : nat → Q) (n i : nat) : nat :=
  if ((2 * i + 2 <? n)%nat && better k (f (2 * i + 2)%nat) (f (2 * i + 1)%nat))
  then (2 * i + 2)%nat else (2 * i + 1)%nat.

Definition ordered (k : HeapKind) (σ : Mem) (h : list loc) : Prop :=
  heapF k (priceAt σ h) (length h).

(** A sequence of [Swap]s at positions below [n]. *)
Inductive swapped (n : nat) : Mem * list loc → Mem * list loc → Prop :=
| swapped_refl s : swapped n s s
| swapped_step σ h i j s1 s2 :
    (i < n)%nat → (j < n)%nat → (n ≤ length h)%nat →
    Swap σ h i j = Some s1 → swapped n s1 s2 → swapped n (σ, h) s2.

(** Memories that differ in heap indices only, and only at the
    addresses of [h]. *)
Definition same_core (σ σ' : Mem) : Prop :=
  ∀ l, core <$> σ' !! l = core <$> σ !! l.

Definition same_outside (h : list loc) (σ σ' : Mem) : Prop :=
  ∀ l, l ∉ h → σ' !! l = σ !! l.

(** A book in good order: no address twice, indices right, heap order. *)
Definition book_ok (k : HeapKind) (σ : Mem) (h : list loc) : Prop :=
  NoDup h ∧ indexed σ h ∧ ordered k σ h.

(** The root has the extremal price: no order of the book is [Less]
    than the root, that is none has a higher price (buy book), none a
    lower price (sell book). *)
Definition le_price (a b : Q) : Prop := (Qnum a * QDen b <= Qnum b * QDen a)%Z.

Definition root_extremal (k : HeapKind) (σ : Mem) (h : list loc) : Prop :=
  ∀ r l o, deref σ h 0 = Some r → l ∈ h → σ !! l = Some o →
    match k with
    | BuyHeap => le_price (Price o) (Price r)
    | SellHeap => le_price (Price r) (Price o)
    end.

(** Every order of the list has a positive amount. *)
Definition positive_amounts (σ : Mem) (h : list loc) : Prop :=
  ∀ l, l ∈ h → ∃ o, σ !! l = Some o ∧ 0 < Amount o.

(** The engine in good order: the orders of the two books and of the
    channel are distinct objects, those waiting in the channel exist,
    and each book is in good order. *)
Definition engine_ok (σ : Mem) (me : MatchingEngine) : Prop :=
  NoDup (BuyOrders me ++ SellOrders me ++ orderChannel me) ∧
  allocated σ (orderChannel me) ∧
  book_ok BuyHeap σ (BuyOrders me) ∧
  book_ok SellHeap σ (SellOrders me).

Definition world_ok (w : World) : Prop := engine_ok (mem w) (engine w).

(** ** What an iteration of the sweep does *)

(** The memory after a trade of [q] between the orders at [b] and [s]:
    their amounts went down by [q]; nothing else changed but heap
    indices. *)
Definition traded (σ σ' : Mem) (b s : loc) (q : Z) : Prop :=
  ∀ l, core <$> σ' !! l =
       core <$> ((λ o, if bool_decide (l = b ∨ l = s)
                       then set_Amount o (wrap64 (Amount o - q)) else o) <$> σ !! l).

(** Both books hold orders: the outcome in full. *)
Definition two_books (mf : nat) (σ : Mem) (me : MatchingEngine) (b s : loc) (it : Iter) : Prop :=
  ∃ ob os hb hs,
    σ !! b = Some ob ∧ σ !! s = Some os ∧
    BuyOrders me ≡ₚ b :: hb ∧ SellOrders me ≡ₚ s :: hs ∧
    if price_ge (Price ob) (Price os) then
      let q := min (Amount ob) (Amount os) in
      written it = [MATCH (S mf) (ID ob) (Price ob) (ID os) (Price os) q] ∧
      found it = S mf ∧
      traded σ (imem it) b s q ∧
      BuyOrders (ieng it) ≡ₚ (if 0 <? wrap64 (Amount ob - q) then b :: hb else hb) ∧
      SellOrders (ieng it) ≡ₚ (if 0 <? wrap64 (Amount os - q) then s :: hs else hs) ∧
      ctl it = if ((length (BuyOrders (ieng it)) =? 0)
                   || (length (SellOrders (ieng it)) =? 0))%nat
               then Break else Continue
    else
      ctl it = Break ∧ written it = [] ∧ found it = mf ∧ same_core σ (imem it) ∧
      BuyOrders (ieng it) ≡ₚ BuyOrders me ∧ SellOrders (ieng it) ≡ₚ SellOrders me.

(** The iteration by cases on the two books it starts from. *)
Definition iter_case (mf : nat) (σ : Mem) (me : MatchingEngine) (it : Iter) : Prop :=
  match BuyOrders me, SellOrders me with
  | [], _ => it = mkIter Break [] mf σ me
  | b :: _, [] =>
      ctl it = Break ∧ written it = [] ∧ found it = mf ∧ same_core σ (imem it) ∧
      BuyOrders (ieng it) ≡ₚ BuyOrders me ∧ SellOrders (ieng it) = []
  | b :: _, s :: _ => two_books mf σ me b s it
  end.

(** The orders the engine holds: in a book or waiting in the channel. *)
Definition objects (me : MatchingEngine) : list loc :=
  BuyOrders me ++ SellOrders me ++ orderChannel me.

(** An order in memory that the engine does not hold. *)
Definition detached (σ : Mem) (me : MatchingEngine) (l : loc) : Prop :=
  is_Some (σ !! l) ∧ l ∉ objects me.

(** A request that carries an order carries one with a positive amount. *)
Definition posted_positive (a : Action) : Prop :=
  match a with
  | PostOrder (Some o) => 0 < Amount o
  | _ => True
  end.

(** ** Quantities traded *)

(** The amount and the identifier of the order at an address. *)
Definition amount (σ : Mem) (l : loc) : Z :=
  match σ !! l with Some o => Amount o | None => 0 end.

Definition ident (σ : Mem) (l : loc) : Z :=
  match σ !! l with Some o => ID o | None => 0 end.

(** The sum of the amounts of the orders of a list. *)
Definition total (σ : Mem) (h : list loc) : Z :=
  foldr (λ l acc, amount σ l + acc) 0 h.

(** The quantity the written trades give to the buy order [id], to the
    sell order [id], and in all. *)
Fixpoint tradedBuy (out : list Event) (id : Z) : Z :=
  match out with
  | [] => 0
  | MATCH _ b _ _ _ q :: rest => (if b =? id then q else 0) + tradedBuy rest id
  | Trade _ _ _ _ :: rest => tradedBuy rest id
  end.

Fixpoint tradedSell (out : list Event) (id : Z) : Z :=
  match out with
  | [] => 0
  | MATCH _ _ _ s _ q :: rest => (if s =? id then q else 0) + tradedSell rest id
  | Trade _ _ _ _ :: rest => tradedSell rest id
  end.

Fixpoint volume (out : list Event) : Z :=
  match out with
  | [] => 0
  | MATCH _ _ _ _ _ q :: rest => q + volume rest
  | Trade _ _ _ _ :: rest => volume rest
  end.

(** Amounts as they come in: non-negative and within [int]. *)
Definition amounts_ok (σ : Mem) (h : list loc) : Prop :=
  ∀ l, l ∈ h → 0 <= amount σ l < 2 ^ 63.

(** A trade of [q] between the roots [b] and [s], on amounts. *)
Definition trade_step (σ : Mem) (me : MatchingEngine) (b s : loc) (q : Z)
  (σ1 : Mem) (me1 : MatchingEngine) : Prop :=
  ∃ hb hs,
    BuyOrders me ≡ₚ b :: hb ∧ SellOrders me ≡ₚ s :: hs ∧
    0 <= q ∧ q <= amount σ b ∧ q <= amount σ s ∧
    (q = amount σ b ∨ q = amount σ s) ∧
    amount σ1 b = amount σ b - q ∧ amount σ1 s = amount σ s - q ∧
    (∀ l, l ≠ b → l ≠ s → amount σ1 l = amount σ l) ∧
    (∀ l, ident σ1 l = ident σ l) ∧
    BuyOrders me1 ≡ₚ (if 0 <? amount σ b - q then b :: hb else hb) ∧
    SellOrders me1 ≡ₚ (if 0 <? amount σ s - q then s :: hs else hs).

(** ** Concrete runs *)

Definition order (id : Z) (t : OrderType) (p : Q) (a : Z) : Order := mkOrder id t p a 0.

(** A book as the list of (ID, Price, Amount, Index) of its orders. *)
Definition show (σ : Mem) (h : list loc) : list (Z * Q * Z * Z) :=
  omap (λ l, o ← σ !! l; Some (ID o, Price o, Amount o, Index o)) h.

(** What a run wrote and the two books it left. *)
Definition outcome (w : option World) :=
  w ← w; Some (stdout w, show (mem w) (BuyOrders (engine w)),
               show (mem w) (SellOrders (engine w))).

(** Three orders that cross twice (the cascaded scenario of the
    specification), ingested and not yet matched. *)
Definition cascade : list Action :=
  [PostOrder (Some (order 1 Buy (105 # 1) 4)); Receive;
   PostOrder (Some (order 2 Buy (100 # 1) 2)); Receive;
   PostOrder (Some (order 3 Sell (99 # 1) 5)); Receive].

Definition crossed : World := Eval vm_compute in default start (run start cascade).

(** Two orders that do not cross, ingested. *)
Definition apart : World :=
  Eval vm_compute in
    default start (run start [PostOrder (Some (order 1 Buy (99 # 1) 5)); Receive;
                              PostOrder (Some (order 2 Sell (101 # 1) 5)); Receive]).

(** The specification's malformed order (section 7): a side that is
    neither ["BUY"] nor ["SELL"], a price or an amount that is not
    positive. *)
Definition malformed (o : Order) : bool :=
  negb (String.eqb (Type_ o) Buy || String.eqb (Type_ o) Sell)
  || negb (price_lt (0 # 1) (Price o))
  || (Amount o <=? 0).

(** The outcome of a top-of-book query [q] that found [root] at the top
    of its book: the address [p] it returns is that of a new order that
    holds a copy of the root; nothing else in memory changed, and
    whatever the engine does afterwards the copy stays as it is. *)
Definition snapshot (q : Mem → MatchingEngine → option (option loc * Mem))
  (σ : Mem) (me : MatchingEngine) (root : loc) : Prop :=
  ∃ o p,
    σ !! root = Some o ∧ σ !! p = None ∧
    q σ me = Some (Some p, <[p := o]> σ) ∧
    (∀ l, l ≠ p → <[p := o]> σ !! l = σ !! l) ∧
    ∀ out acts, ∃ w',
      run (mkWorld (<[p := o]> σ) me out) acts = Some w' ∧ mem w' !! p = Some o.

(** A world with one more order in memory, of a type that is neither
    ["BUY"] nor ["SELL"], not yet handed to the engine. *)
Definition stray : Order := mkOrder 9 "HOLD" (1 # 1) 1 0.
Definition with_stray : Mem := <[new (mem crossed) := stray]> (mem crossed).

(** ** The orders of a run and what became of them *)

(** The orders a sequence of actions posts, in order. *)
Fixpoint posted (acts : list Action) : list Order :=
  match acts with
  | [] => []
  | PostOrder (Some o) :: rest => o :: posted rest
  | _ :: rest => posted rest
  end.

(** The sum of the amounts of the orders of [h] that carry the
    identifier [id]. *)
Definition resting (σ : Mem) (h : list loc) (id : Z) : Z :=
  foldr (λ l acc, (if ident σ l =? id then amount σ l else 0) + acc) 0 h.

(** The type of the order at an address. *)
Definition kind (σ : Mem) (l : loc) : OrderType :=
  match σ !! l with Some o => Type_ o | None => ""%string end.

(** An order as [json.Unmarshal] can deliver it for matching: its
    amount is not negative and fits an [int]. *)
Definition posted_ok (o : Order) : Prop := 0 <= Amount o < 2 ^ 63.

(** Memories whose orders carry the same identifiers and types. *)
Definition same_names (σ σ' : Mem) : Prop :=
  ∀ l, ident σ' l = ident σ l ∧ kind σ' l = kind σ l.


(** ** The matcher and the query handlers *)

(** [StartMatching]: the goroutine [for { me.MatchOrders(); time.Sleep(...) }].
    The loop has no exit; [StartMatching rounds] is its first [rounds]
    turns, with no other goroutine running in between, and returns what
    they wrote. *)
Fixpoint StartMatching (rounds : nat) (σ : Mem) (me : MatchingEngine)
  : option (list Event * Mem * MatchingEngine) :=
  match rounds with
  | O => Some ([], σ, me)
  | S rounds' =>
      '(out, σ, me) ← MatchOrders σ me;
      '(out', σ, me) ← StartMatching rounds' σ me;
      Some (out ++ out', σ, me)
  end.

(** What a query handler answers: [c.Status(code).JSON(fiber.Map{"error": msg})]
    or [c.JSON(order)], whose status is 200. *)
Inductive Response :=
| ErrorJSON (status : Z) (error : string)
| OrderJSON (order : Order).

(** [GetHighestBuyOrderHandler] and [GetHighestSellOrderHandler]: 404
    when the query returns [nil], else the order it returns. *)
Definition GetHighestBuyOrderHandler (σ : Mem) (me : MatchingEngine)
  : option (Response * Mem) :=
  '(order, σ) ← GetHighestBuyOrder σ me;
  match order with
  | None => Some (ErrorJSON 404 "No hay órdenes de compra disponibles", σ)
  | Some p => o ← σ !! p; Some (OrderJSON o, σ)
  end.

Definition GetHighestSellOrderHandler (σ : Mem) (me : MatchingEngine)
  : option (Response * Mem) :=
  '(order, σ) ← GetHighestSellOrder σ me;
  match order with
  | None => Some (ErrorJSON 404 "No hay órdenes de venta disponibles", σ)
  | Some p => o ← σ !! p; Some (OrderJSON o, σ)
  end.

(** ** More on books and sweeps *)

(** No order of [h] is [Less] than the order at [x]: none has a higher
    price (buy book), none a lower price (sell book). *)
Definition best (k : HeapKind) (σ : Mem) (h : list loc) (x : loc) : Prop :=
  ∀ l o ox, l ∈ h → σ !! l = Some o → σ !! x = Some ox →
    better k (Price o) (Price ox) = false.

(** The order at [x] is [Less] than every order of [h]. *)
Definition beats (k : HeapKind) (σ : Mem) (x : loc) (h : list loc) : Prop :=
  ∀ l o ox, l ∈ h → σ !! l = Some o → σ !! x = Some ox →
    better k (Price ox) (Price o) = true.

(** The books do not cross: every buy order is priced below every sell
    order. *)
Definition uncrossed (σ : Mem) (me : MatchingEngine) : Prop :=
  ∀ b s ob os, b ∈ BuyOrders me → s ∈ SellOrders me →
    σ !! b = Some ob → σ !! s = Some os → price_lt (Price ob) (Price os) = true.

(** The number and the quantity of a written trade. *)
Definition number (e : Event) : nat :=
  match e with MATCH n _ _ _ _ _ => n | Trade _ _ _ _ => O end.

Definition quantity (e : Event) : Z :=
  match e with MATCH _ _ _ _ _ q => q | Trade _ _ q _ => q end.

(** A line of [MatchOrders] whose buy price is at least its sell price. *)
Definition crosses (e : Event) : Prop :=
  match e with
  | MATCH _ _ pb _ ps _ => price_ge pb ps = true
  | Trade _ _ _ _ => False
  end.

(** Each book holds the orders of its side: type ["BUY"] in the buy
    book, any other type in the sell book. *)
Definition sided (σ : Mem) (me : MatchingEngine) : Prop :=
  (∀ l, l ∈ BuyOrders me → kind σ l = Buy) ∧
  (∀ l, l ∈ SellOrders me → kind σ l ≠ Buy).

(** The price of the order at an address. *)
Definition price (σ : Mem) (l : loc) : Q :=
  match σ !! l with Some o => Price o | None => 0 # 1 end.

(** The two prices of a written trade. *)
Definition buyPrice (e : Event) : Q :=
  match e with MATCH _ _ p _ _ _ => p | Trade _ _ _ p => p end.

Definition sellPrice (e : Event) : Q :=
  match e with MATCH _ _ _ _ p _ => p | Trade _ _ _ p => p end.

(** Price priority between a trade and a later one: the later one's buy
    price is not higher and its sell price is not lower. *)
Definition before (e1 e2 : Event) : Prop :=
  le_price (buyPrice e2) (buyPrice e1) ∧ le_price (sellPrice e1) (sellPrice e2).

(** A trade between an order of the buy book and one of the sell book,
    with their identifiers and at their prices. *)
Definition between (σ : Mem) (me : MatchingEngine) (e : Event) : Prop :=
  ∃ n b s q, b ∈ BuyOrders me ∧ s ∈ SellOrders me ∧
    e = MATCH n (ident σ b) (price σ b) (ident σ s) (price σ s) q.

(** The order at [l] is one of the orders [P], with the identifier,
    the type and the price of that order. *)
Definition from (P : list Order) (σ : Mem) (l : loc) : Prop :=
  ∃ o o', o ∈ P ∧ σ !! l = Some o' ∧
    ID o' = ID o ∧ Type_ o' = Type_ o ∧ Price o' = Price o.

(** A trade between two of the orders [P], a buyer of type ["BUY"] and
    a seller of another type, with their identifiers and prices. *)
Definition posted_trade (P : list Order) (e : Event) : Prop :=
  ∃ n ob os q, ob ∈ P ∧ os ∈ P ∧ Type_ ob = Buy ∧ Type_ os ≠ Buy ∧
    e = MATCH n (ID ob) (Price ob) (ID os) (Price os) q.

(** An action posts orders of [P] only. *)
Definition posts_from (P : list Order) (a : Action) : Prop :=
  match a with
  | PostOrder (Some o) => o ∈ P
  | _ => True
  end.

(** A buy order for 10 and a sell order for 3 at the same price (the
    partial fill of the specification), ingested and not yet matched. *)
Definition partial : World :=
  Eval vm_compute in
    default start (run start [PostOrder (Some (order 1 Buy (100 # 1) 10)); Receive;
                              PostOrder (Some (order 2 Sell (100 # 1) 3)); Receive]).

(** ** Orders by identifier and side

    A trade names its two orders by identifier only, and nothing keeps
    two orders from carrying the same one.  Quantities are therefore
    counted by identifier and side: the buy side is that of the orders
    of type ["BUY"], the sell side that of all the others. *)
Definition is_buy (t : OrderType) : bool := String.eqb t Buy.

Definition same_class (buy : bool) (id : Z) (o : Order) : bool :=
  (ID o =? id) && Bool.eqb (is_buy (Type_ o)) buy.

(** The sum of the amounts, and the number, of the orders of [P] with
    identifier [id] on a side. *)
Definition posted_amount (P : list Order) (buy : bool) (id : Z) : Z :=
  foldr (λ o acc, (if same_class buy id o then Amount o else 0) + acc) 0 P.

Definition posted_count (P : list Order) (buy : bool) (id : Z) : nat :=
  foldr (λ o n, if same_class buy id o then S n else n) O P.

(** The quantity the written trades give to the identifier [id] on a
    side, and the book of a side. *)
Definition traded_side (out : list Event) (buy : bool) (id : Z) : Z :=
  if buy then tradedBuy out id else tradedSell out id.

Definition book (me : MatchingEngine) (buy : bool) : list loc :=
  if buy then BuyOrders me else SellOrders me.

(** The amount that waits in the channel for the identifier [id] on a
    side. *)
Definition waiting (σ : Mem) (chan : list loc) (buy : bool) (id : Z) : Z :=
  foldr (λ l acc, (if (ident σ l =? id) && Bool.eqb (is_buy (kind σ l)) buy
                   then amount σ l else 0) + acc) 0 chan.

(** The sum of [f] over the identifiers of [P], each taken once. *)
Definition over_ids (P : list Order) (f : Z → Z) : Z :=
  foldr (λ id acc, f id + acc) 0 (remove_dups (ID <$> P)).

(** The books, the channel and the output of a world account for the
    orders [P]: by identifier and side, the amounts posted are the
    quantities traded, the amounts left in the book and the amounts
    waiting in the channel. *)
Definition accounted (P : list Order) (w : World) : Prop :=
  ∀ buy id,
    posted_amount P buy id
    = traded_side (stdout w) buy id
      + resting (mem w) (book (engine w) buy) id
      + waiting (mem w) (orderChannel (engine w)) buy id.

(** * Properties *)

(** ** Prices *)

Lemma price_lt_Qlt a b : price_lt a b = true ↔ Qlt a b.
Proof. unfold price_lt, Qlt. apply Z.ltb_lt. Qed.

Lemma price_lt_false a b : price_lt a b = false ↔ Qle b a.
Proof. unfold price_lt, Qle. rewrite Z.ltb_ge. reflexivity. Qed.

Lemma price_ge_Qle a b : price_ge a b = true ↔ Qle b a.
Proof. unfold price_ge, Qle. apply Z.leb_le. Qed.

Lemma price_ge_lt a b : price_ge a b = negb (price_lt a b).
Proof. unfold price_ge, price_lt. apply Z.leb_antisym. Qed.

Lemma le_price_Qle a b : le_price a b ↔ Qle a b.
Proof. reflexivity. Qed.

Lemma better_asym k a b : better k a b = true → better k b a = false.
Proof.
  destruct k; simpl; unfold price_gt; rewrite price_lt_Qlt, price_lt_false;
    apply Qlt_le_weak.
Qed.

Lemma better_negtrans k a b c :
  better k a b = false → better k b c = false → better k a c = false.
Proof.
  destruct k; simpl; unfold price_gt; rewrite !price_lt_false; intros H1 H2.
  - exact (Qle_trans _ _ _ H1 H2).
  - exact (Qle_trans _ _ _ H2 H1).
Qed.

Lemma better_irrefl k a : better k a a = false.
Proof.
  destruct (better k a a) eqn:E; [|done].
  pose proof (better_asym _ _ _ E). congruence.
Qed.

(** [not Less] read as an order on prices. *)
Lemma better_false_le k a b :
  better k a b = false →
  match k with BuyHeap => le_price a b | SellHeap => le_price b a end.
Proof. destruct k; simpl; unfold price_gt; rewrite price_lt_false; done. Qed.

(** ** Parents and children *)

Lemma parent_lt j : (0 < j)%nat → ((j - 1) / 2 < j)%nat.
Proof. intros. apply Nat.Div0.div_lt_upper_bound. lia. Qed.

Lemma parent_of_child c i :
  (0 < c)%nat → ((c - 1) / 2)%nat = i ↔ (c = 2 * i + 1 ∨ c = 2 * i + 2)%nat.
Proof.
  intros Hc. split.
  - intros <-. pose proof (Nat.div_mod_eq (c - 1) 2).
    pose proof (Nat.mod_upper_bound (c - 1) 2). lia.
  - intros [-> | ->].
    + replace (2 * i + 1 - 1)%nat with (i * 2)%nat by lia. apply Nat.div_mul. lia.
    + replace (2 * i + 2 - 1)%nat with (1 + i * 2)%nat by lia.
      rewrite Nat.div_add by lia. reflexivity.
Qed.

(** ** The heap order under sifting, on prices as a function of the position *)

Section Sift.
Variable k : HeapKind.
Implicit Types f : nat → Q.
Local Open Scope nat_scope.

Lemma swapF_l f i j : swapF f i j i = f j.
Proof. unfold swapF. by rewrite Nat.eqb_refl. Qed.

Lemma swapF_r f i j : swapF f i j j = f i.
Proof.
  unfold swapF. destruct (Nat.eqb_spec j i) as [->|]; [done|].
  by rewrite Nat.eqb_refl.
Qed.

Lemma swapF_other f i j x : x ≠ i → x ≠ j → swapF f i j x = f x.
Proof.
  intros Hi Hj. unfold swapF.
  destruct (Nat.eqb_spec x i); [done|]. by destruct (Nat.eqb_spec x j).
Qed.

Lemma heapF_ext f g n :
  (∀ x, (x < n)%nat → f x = g x) → heapF k f n → heapF k g n.
Proof.
  intros E H c Hc. unfold okF. rewrite <- !E; [by apply H| |lia].
  pose proof (parent_lt c). lia.
Qed.

(** The root is extremal in a heap. *)
Lemma heapF_root f n j : heapF k f n → (j < n)%nat → better k (f j) (f 0%nat) = false.
Proof.
  intros H. induction j as [j IH] using lt_wf_ind. intros Hj.
  destruct (Nat.eq_dec j 0) as [->|Hne]; [apply better_irrefl|].
  pose proof (parent_lt j ltac:(lia)) as Hp.
  eapply better_negtrans; [apply (H j); lia|]. apply IH; lia.
Qed.

(** [up]. *)
Lemma upInv_last f n : heapF k f (n - 1) → upInv k f n (n - 1).
Proof.
  intros H. split.
  - intros c Hc Hne. apply H. lia.
  - intros c Hc Hp. apply parent_of_child in Hp; lia.
Qed.

Lemma upInv_stop f n j :
  upInv k f n j → (j - 1) / 2 = j ∨ okF k f j → heapF k f n.
Proof.
  intros [H1 H2] Hj c Hc. destruct (Nat.eq_dec c j) as [->|Hne]; [|by apply H1].
  destruct Hj as [Hj|Hj]; [|done].
  pose proof (parent_lt j). lia.
Qed.

Lemma upInv_step f n j :
  upInv k f n j → (0 < j < n)%nat →
  better k (f j) (f ((j - 1) / 2)%nat) = true →
  upInv k (swapF f ((j - 1) / 2) j) n ((j - 1) / 2).
Proof.
  intros [H1 H2] Hj Hlt. set (i := ((j - 1) / 2)%nat) in *.
  assert (Hij : (i < j)%nat) by (apply parent_lt; lia).
  assert (Hasym : better k (f i) (f j) = false) by by apply better_asym.
  split.
  - intros c Hc Hci. unfold okF.
    destruct (Nat.eq_dec c j) as [->|Hcj].
    { fold i. by rewrite swapF_r, swapF_l. }
    rewrite (swapF_other _ _ _ c) by done.
    set (p := ((c - 1) / 2)%nat).
    destruct (Nat.eq_dec p i) as [Hpi|Hpi].
    { rewrite Hpi, swapF_l. eapply better_negtrans; [|exact Hasym].
      specialize (H1 c Hc Hcj). unfold okF in H1. fold p in H1. by rewrite Hpi in H1. }
    destruct (Nat.eq_dec p j) as [Hpj|Hpj].
    { rewrite Hpj, swapF_r. by apply H2. }
    rewrite swapF_other by done. by apply H1.
  - intros c Hc Hp.
    assert (Hci : c ≠ i) by (pose proof (parent_lt c); lia).
    set (g := ((i - 1) / 2)%nat).
    assert (Hgj : g ≠ j). { pose proof (parent_lt i). subst g. destruct (Nat.eq_dec i 0) as [->|]; [simpl; lia|lia]. }
    destruct (Nat.eq_dec c j) as [->|Hcj].
    + rewrite swapF_r.
      destruct (Nat.eq_dec g i) as [Hgi|Hgi].
      * by rewrite Hgi, swapF_l.
      * rewrite swapF_other by done. apply (H1 i); [|lia].
        destruct (Nat.eq_dec i 0) as [Hi0|]; [|lia].
        subst g. rewrite Hi0 in Hgi. simpl in Hgi. lia.
    + rewrite (swapF_other _ _ _ c) by done.
      assert (Hcok : better k (f c) (f i) = false).
      { specialize (H1 c Hc Hcj). unfold okF in H1. by rewrite Hp in H1. }
      destruct (Nat.eq_dec g i) as [Hgi|Hgi].
      * rewrite Hgi, swapF_l. by eapply better_negtrans.
      * rewrite swapF_other by done. eapply better_negtrans; [exact Hcok|].
        apply (H1 i); [|lia].
        destruct (Nat.eq_dec i 0) as [Hi0|]; [|lia].
        subst g. rewrite Hi0 in Hgi. simpl in Hgi. lia.
Qed.

(** [down]. *)
Lemma downInv_first f n m :
  heapF k f m → (n < m)%nat → downInv k (swapF f 0 n) n 0.
Proof.
  intros H Hn. split; [|intros; lia].
  intros c Hc Hp. unfold okF.
  assert (((c - 1) / 2 < c)%nat) by (apply parent_lt; lia).
  rewrite !swapF_other by lia. apply H. lia.
Qed.

Lemma downInv_leaf f n i : downInv k f n i → (n ≤ 2 * i + 1)%nat → heapF k f n.
Proof.
  intros [H1 H2] Hn c Hc. apply H1; [done|].
  intros Hp. apply parent_of_child in Hp; lia.
Qed.

Lemma pick_cases f n i :
  (pick k f n i = 2 * i + 1 ∨ pick k f n i = 2 * i + 2) ∧
  (2 * i + 1 < n → pick k f n i < n) ∧
  (∀ c, c < n → c = 2 * i + 1 ∨ c = 2 * i + 2 →
        better k (f c) (f (pick k f n i)) = false).
Proof.
  unfold pick.
  destruct (Nat.ltb_spec (2 * i + 2) n) as [Hn|Hn]; cbn [andb].
  - destruct (better k (f (2 * i + 2)) (f (2 * i + 1))) eqn:E.
    + split; [lia|]. split; [lia|]. intros c _ [-> | ->].
      * by apply better_asym.
      * apply better_irrefl.
    + split; [lia|]. split; [lia|]. intros c _ [-> | ->].
      * apply better_irrefl.
      * done.
  - split; [lia|]. split; [lia|]. intros c Hc [-> | ->]; [apply better_irrefl|lia].
Qed.

Lemma downInv_stop f n i :
  downInv k f n i → better k (f (pick k f n i)) (f i) = false → heapF k f n.
Proof.
  intros [H1 H2] Hj c Hc.
  destruct (Nat.eq_dec ((c - 1) / 2) i) as [Hp|Hp]; [|by apply H1].
  unfold okF. rewrite Hp.
  destruct (pick_cases f n i) as (_ & _ & Hbest).
  eapply better_negtrans; [|exact Hj]. apply Hbest; [lia|].
  apply parent_of_child in Hp; lia.
Qed.

Lemma downInv_step f n i :
  downInv k f n i → (2 * i + 1 < n)%nat →
  better k (f (pick k f n i)) (f i) = true →
  downInv k (swapF f i (pick k f n i)) n (pick k f n i).
Proof.
  intros [H1 H2] Hn Hlt.
  destruct (pick_cases f n i) as (Hj & Hjn & Hbest).
  set (j := pick k f n i) in *. specialize (Hjn Hn).
  assert (Hij : (i < j)%nat) by lia.
  assert (Hpj : ((j - 1) / 2)%nat = i) by (apply parent_of_child; lia).
  split.
  - intros c Hc Hp. unfold okF.
    destruct (Nat.eq_dec c j) as [->|Hcj].
    { rewrite Hpj, swapF_r, swapF_l. by apply better_asym. }
    destruct (Nat.eq_dec c i) as [->|Hci].
    { rewrite swapF_l.
      assert (((i - 1) / 2 < i)%nat) by (apply parent_lt; lia).
      rewrite swapF_other by lia. apply H2; [lia|done|lia]. }
    rewrite (swapF_other _ _ _ c) by done.
    destruct (Nat.eq_dec ((c - 1) / 2) i) as [Hpi|Hpi].
    { rewrite Hpi, swapF_l. apply Hbest; [lia|]. apply parent_of_child in Hpi; lia. }
    rewrite swapF_other by done. by apply H1.
  - intros c Hc Hp _. rewrite Hpj, swapF_l.
    assert (((c - 1) / 2 < c)%nat) by (apply parent_lt; lia).
    rewrite swapF_other by lia.
    assert (Hpc : ((c - 1) / 2)%nat ≠ i) by lia.
    specialize (H1 c Hc Hpc). unfold okF in H1. by rewrite Hp in H1.
Qed.
End Sift.

(** ** Memory and the heap methods *)

Lemma same_core_trans σ1 σ2 σ3 : same_core σ1 σ2 → same_core σ2 σ3 → same_core σ1 σ3.
Proof. intros H1 H2 l. by rewrite H2, H1. Qed.

Lemma same_core_Some σ σ' l o :
  same_core σ σ' → σ !! l = Some o → ∃ o', σ' !! l = Some o' ∧ core o' = core o.
Proof.
  intros H Hl. specialize (H l). rewrite Hl in H.
  destruct (σ' !! l) as [o'|]; [|done]. exists o'. split; [done|]. simpl in H. congruence.
Qed.

Lemma same_core_Some_rev σ σ' l o' :
  same_core σ σ' → σ' !! l = Some o' → ∃ o, σ !! l = Some o ∧ core o' = core o.
Proof.
  intros H Hl. specialize (H l). rewrite Hl in H.
  destruct (σ !! l) as [o|]; [|done]. exists o. split; [done|]. simpl in H. congruence.
Qed.

Lemma same_core_is_Some σ σ' l : same_core σ σ' → is_Some (σ' !! l) ↔ is_Some (σ !! l).
Proof.
  intros H. specialize (H l). rewrite <- !(fmap_is_Some core). by rewrite H.
Qed.

Lemma core_Price o o' : core o' = core o → Price o' = Price o.
Proof. unfold core. congruence. Qed.

Lemma core_Amount o o' : core o' = core o → Amount o' = Amount o.
Proof. unfold core. congruence. Qed.

Lemma core_ID o o' : core o' = core o → ID o' = ID o.
Proof. unfold core. congruence. Qed.

Lemma core_Type o o' : core o' = core o → Type_ o' = Type_ o.
Proof. unfold core. congruence. Qed.

Lemma allocated_same_core σ σ' h : same_core σ σ' → allocated σ h → allocated σ' h.
Proof. intros H A l Hl. apply (same_core_is_Some σ σ'); [done|]. by apply A. Qed.

Lemma allocated_perm σ h h' : h ≡ₚ h' → allocated σ h → allocated σ h'.
Proof. intros P A l Hl. apply A. by rewrite P. Qed.

Lemma indexed_allocated σ h : indexed σ h → allocated σ h.
Proof.
  intros H l Hl. apply list_elem_of_lookup in Hl as [i Hi].
  specialize (H i l Hi). apply (fmap_is_Some Index). by rewrite H.
Qed.

Lemma store_Index_Some σ l z σ' :
  store_Index σ l z = Some σ' ↔ ∃ o, σ !! l = Some o ∧ σ' = <[l := set_Index o z]> σ.
Proof.
  unfold store_Index. destruct (σ !! l) as [o|]; simpl; split.
  - intros [= <-]. by exists o.
  - intros (o' & [= <-] & ->). done.
  - done.
  - by intros (? & ? & _).
Qed.

Lemma store_Index_same_core σ l z σ' : store_Index σ l z = Some σ' → same_core σ σ'.
Proof.
  rewrite store_Index_Some. intros (o & Ho & ->) l'.
  destruct (decide (l = l')) as [<-|Hne].
  - by rewrite lookup_insert_eq, Ho.
  - by rewrite lookup_insert_ne.
Qed.

Lemma store_Index_other σ l z σ' l' :
  store_Index σ l z = Some σ' → l' ≠ l → σ' !! l' = σ !! l'.
Proof. rewrite store_Index_Some. intros (o & Ho & ->) Hne. by rewrite lookup_insert_ne. Qed.

Lemma store_Index_here σ l z σ' :
  store_Index σ l z = Some σ' → Index <$> σ' !! l = Some z.
Proof. rewrite store_Index_Some. intros (o & Ho & ->). by rewrite lookup_insert_eq. Qed.

Lemma store_Index_is_Some σ l z : is_Some (σ !! l) → is_Some (store_Index σ l z).
Proof. intros [o Ho]. unfold store_Index. by rewrite Ho. Qed.

(** [Swap]. *)
Lemma Swap_inv σ h i j σ' h' :
  Swap σ h i j = Some (σ', h') →
  ∃ hi hj σ1,
    h !! i = Some hi ∧ h !! j = Some hj ∧
    h' = <[j := hi]> (<[i := hj]> h) ∧
    h' !! i = Some hj ∧ h' !! j = Some hi ∧
    store_Index σ hj (Z.of_nat i) = Some σ1 ∧
    store_Index σ1 hi (Z.of_nat j) = Some σ'.
Proof.
  unfold Swap. intros H.
  destruct (h !! i) as [hi|] eqn:Hi; [|done].
  destruct (h !! j) as [hj|] eqn:Hj; [|done]. simpl in H.
  pose proof (lookup_lt_Some _ _ _ Hi) as Hil.
  pose proof (lookup_lt_Some _ _ _ Hj) as Hjl.
  assert (Hi' : <[j := hi]> (<[i := hj]> h) !! i = Some hj).
  { destruct (decide (i = j)) as [->|Hne].
    - rewrite list_lookup_insert_eq by (by rewrite length_insert). congruence.
    - rewrite list_lookup_insert_ne by done. by rewrite list_lookup_insert_eq. }
  assert (Hj' : <[j := hi]> (<[i := hj]> h) !! j = Some hi).
  { by rewrite list_lookup_insert_eq by (by rewrite length_insert). }
  rewrite Hi' in H. simpl in H.
  destruct (store_Index σ hj (Z.of_nat i)) as [σ1|] eqn:H1; [|done]. simpl in H.
  rewrite Hj' in H. simpl in H.
  destruct (store_Index σ1 hi (Z.of_nat j)) as [σ2|] eqn:H2; [|done]. simpl in H.
  injection H as <- <-. by exists hi, hj, σ1.
Qed.

Lemma Swap_is_Some σ h i j :
  allocated σ h → (i < length h)%nat → (j < length h)%nat → is_Some (Swap σ h i j).
Proof.
  intros A Hi Hj.
  destruct (lookup_lt_is_Some_2 h i Hi) as [hi Ei].
  destruct (lookup_lt_is_Some_2 h j Hj) as [hj Ej].
  unfold Swap. rewrite Ei, Ej. simpl.
  assert (Hi' : <[j := hi]> (<[i := hj]> h) !! i = Some hj).
  { destruct (decide (i = j)) as [->|Hne].
    - rewrite list_lookup_insert_eq by (by rewrite length_insert). congruence.
    - rewrite list_lookup_insert_ne by done. by rewrite list_lookup_insert_eq. }
  rewrite Hi'. simpl.
  destruct (store_Index_is_Some σ hj (Z.of_nat i)) as [σ1 E1].
  { apply A. by eapply list_elem_of_lookup_2. }
  rewrite E1. simpl.
  rewrite list_lookup_insert_eq by (by rewrite length_insert). simpl.
  destruct (store_Index_is_Some σ1 hi (Z.of_nat j)) as [σ2 E2].
  { apply (same_core_is_Some σ σ1); [by eapply store_Index_same_core|].
    apply A. by eapply list_elem_of_lookup_2. }
  rewrite E2. done.
Qed.

Lemma Swap_length σ h i j σ' h' : Swap σ h i j = Some (σ', h') → length h' = length h.
Proof. intros H. apply Swap_inv in H as (hi & hj & σ1 & _ & _ & -> & _). by rewrite !length_insert. Qed.

Lemma Swap_lookup σ h i j σ' h' x :
  Swap σ h i j = Some (σ', h') →
  h' !! x = if decide (x = i) then h !! j else if decide (x = j) then h !! i else h !! x.
Proof.
  intros H. apply Swap_inv in H as (hi & hj & σ1 & Hi & Hj & -> & Hi' & Hj' & _).
  destruct (decide (x = i)) as [->|Hxi]; [congruence|].
  destruct (decide (x = j)) as [->|Hxj]; [congruence|].
  by rewrite !list_lookup_insert_ne.
Qed.

Lemma Swap_perm σ h i j σ' h' : Swap σ h i j = Some (σ', h') → h' ≡ₚ h.
Proof.
  intros H. apply Swap_inv in H as (hi & hj & σ1 & Hi & Hj & -> & _).
  by apply Permutation_insert_swap.
Qed.

Lemma Swap_same_core σ h i j σ' h' : Swap σ h i j = Some (σ', h') → same_core σ σ'.
Proof.
  intros H. apply Swap_inv in H as (hi & hj & σ1 & _ & _ & _ & _ & _ & H1 & H2).
  eapply same_core_trans; by eapply store_Index_same_core.
Qed.

Lemma Swap_same_outside σ h i j σ' h' : Swap σ h i j = Some (σ', h') → same_outside h σ σ'.
Proof.
  intros H. apply Swap_inv in H as (hi & hj & σ1 & Hi & Hj & _ & _ & _ & H1 & H2).
  intros l Hl.
  rewrite (store_Index_other _ _ _ _ l H2), (store_Index_other _ _ _ _ l H1); [done| |];
    intros ->; apply Hl; by eapply list_elem_of_lookup_2.
Qed.

Lemma priceAt_eq σ σ' h h' x y :
  same_core σ σ' → h' !! x = h !! y → priceAt σ' h' x = priceAt σ h y.
Proof.
  intros C E. unfold priceAt, deref. rewrite E.
  destruct (h !! y) as [l|]; simpl; [|done].
  destruct (σ !! l) as [o|] eqn:Ho.
  - destruct (same_core_Some _ _ _ _ C Ho) as (o' & -> & Hc). by apply core_Price.
  - specialize (C l). rewrite Ho in C. by destruct (σ' !! l).
Qed.

Lemma Swap_priceAt σ h i j σ' h' x :
  Swap σ h i j = Some (σ', h') → priceAt σ' h' x = swapF (priceAt σ h) i j x.
Proof.
  intros H. pose proof (Swap_same_core _ _ _ _ _ _ H) as C.
  pose proof (Swap_lookup _ _ _ _ _ _ x H) as L.
  destruct (decide (x = i)) as [->|Hxi].
  { rewrite swapF_l. by apply priceAt_eq. }
  destruct (decide (x = j)) as [->|Hxj].
  { rewrite swapF_r. by apply priceAt_eq. }
  rewrite swapF_other by done. by apply priceAt_eq.
Qed.

Lemma Swap_indexed σ h i j σ' h' :
  Swap σ h i j = Some (σ', h') → NoDup h → indexed σ h → indexed σ' h'.
Proof.
  intros H ND I x l Hx.
  pose proof (Swap_lookup _ _ _ _ _ _ x H) as L. rewrite Hx in L.
  apply Swap_inv in H as (hi & hj & σ1 & Hi & Hj & _ & _ & _ & H1 & H2).
  destruct (decide (x = i)) as [->|Hxi].
  { assert (l = hj) as -> by congruence.
    destruct (decide (hj = hi)) as [->|Hne].
    - assert (i = j) as -> by by eapply NoDup_lookup.
      by eapply store_Index_here.
    - rewrite (store_Index_other _ _ _ _ hj H2) by done. by eapply store_Index_here. }
  destruct (decide (x = j)) as [->|Hxj].
  { assert (l = hi) as -> by congruence. by eapply store_Index_here. }
  symmetry in L.
  rewrite (store_Index_other _ _ _ _ l H2), (store_Index_other _ _ _ _ l H1).
  - by apply I.
  - intros ->. apply Hxj. by eapply NoDup_lookup.
  - intros ->. apply Hxi. by eapply NoDup_lookup.
Qed.

Lemma swapped_spec n σ h σ' h' :
  swapped n (σ, h) (σ', h') →
  h' ≡ₚ h ∧ length h' = length h ∧ same_core σ σ' ∧ same_outside h σ σ' ∧
  (∀ x, (n ≤ x)%nat → h' !! x = h !! x) ∧
  (NoDup h → indexed σ h → indexed σ' h').
Proof.
  intros H. remember (σ, h) as s eqn:Es. remember (σ', h') as s' eqn:Es'.
  revert σ h Es. induction H as [s|σ0 h0 i j [σ1 h1] s2 Hi Hj Hn HS Hrest IH];
    intros σ h Es; simplify_eq.
  { repeat split; done. }
  destruct (IH eq_refl σ1 h1 eq_refl) as (P & L & C & O & U & I).
  pose proof (Swap_perm _ _ _ _ _ _ HS) as P1.
  repeat split.
  - by rewrite P.
  - rewrite L. by eapply Swap_length.
  - eapply same_core_trans; [by eapply Swap_same_core|done].
  - intros l Hl. rewrite O by (by rewrite P1).
    by eapply Swap_same_outside.
  - intros x Hx. rewrite U by done.
    rewrite (Swap_lookup _ _ _ _ _ _ x HS).
    destruct (decide (x = i)); [lia|]. destruct (decide (x = j)); [lia|]. done.
  - intros ND Ix. apply I; [by rewrite P1|]. by eapply Swap_indexed.
Qed.

(** ** [container/heap]: the loops *)

Lemma deref_is_Some σ h i : allocated σ h → (i < length h)%nat → is_Some (deref σ h i).
Proof.
  intros A Hi. destruct (lookup_lt_is_Some_2 h i Hi) as [l El].
  unfold deref. rewrite El. simpl. apply A. by eapply list_elem_of_lookup_2.
Qed.

Lemma Less_inv k σ h i j b :
  Less k σ h i j = Some b → b = better k (priceAt σ h i) (priceAt σ h j).
Proof.
  unfold Less, priceAt. destruct (deref σ h i); [|done].
  destruct (deref σ h j); [|done]. simpl. congruence.
Qed.

Lemma Less_is_Some k σ h i j :
  allocated σ h → (i < length h)%nat → (j < length h)%nat → is_Some (Less k σ h i j).
Proof.
  intros A Hi Hj. unfold Less.
  destruct (deref_is_Some σ h i A Hi) as [a ->].
  destruct (deref_is_Some σ h j A Hj) as [b ->]. done.
Qed.

Lemma upInv_ext k f g n j : (∀ x, f x = g x) → upInv k f n j → upInv k g n j.
Proof.
  intros E [H1 H2]. split.
  - intros c Hc Hne. unfold okF. rewrite <- !E. by apply H1.
  - intros c Hc Hp. rewrite <- !E. by apply H2.
Qed.

Lemma downInv_ext k f g n i : (∀ x, f x = g x) → downInv k f n i → downInv k g n i.
Proof.
  intros E [H1 H2]. split.
  - intros c Hc Hne. unfold okF. rewrite <- !E. by apply H1.
  - intros c Hc Hp Hi. rewrite <- !E. by apply H2.
Qed.

Lemma parent_neq j : ((j - 1) / 2)%nat ≠ j → (0 < j)%nat.
Proof. destruct j; [intros H; by destruct H|lia]. Qed.

Section Loops.
Variable k : HeapKind.

#[local] Arguments Nat.div : simpl never.
#[local] Arguments Nat.mul : simpl never.
#[local] Arguments Nat.add : simpl never.

Lemma up_loop_swapped fuel σ h j s :
  heap.up_loop fuel k σ h j = Some s → (j < length h)%nat →
  swapped (length h) (σ, h) s.
Proof.
  revert σ h j. induction fuel as [|fuel IH]; intros σ h j H Hj; [done|].
  simpl in H. destruct (Nat.eqb_spec ((j - 1) / 2) j) as [E|E].
  { injection H as <-. constructor. }
  destruct (Less k σ h j ((j - 1) / 2)) as [[]|]; simpl in H; [| |done].
  - destruct (Swap σ h ((j - 1) / 2) j) as [[σ1 h1]|] eqn:HS; [|done]. simpl in H.
    assert ((j - 1) / 2 < j)%nat by (apply parent_lt; by apply parent_neq).
    pose proof (Swap_length _ _ _ _ _ _ HS) as L.
    apply (swapped_step _ σ h ((j - 1) / 2) j (σ1, h1)); [lia|lia|lia|done|].
    rewrite <- L. apply (IH _ _ _ H). lia.
  - injection H as <-. constructor.
Qed.

Lemma up_loop_is_Some fuel σ h j :
  allocated σ h → (j < length h)%nat → (j < fuel)%nat →
  is_Some (heap.up_loop fuel k σ h j).
Proof.
  revert σ h j. induction fuel as [|fuel IH]; intros σ h j A Hj Hf; [lia|].
  simpl. destruct (Nat.eqb_spec ((j - 1) / 2) j) as [E|E]; [done|].
  assert ((j - 1) / 2 < j)%nat by (apply parent_lt; by apply parent_neq).
  destruct (Less_is_Some k σ h j ((j - 1) / 2) A) as [b ->]; [lia|lia|]. simpl.
  destruct b; simpl; [|done].
  destruct (Swap_is_Some σ h ((j - 1) / 2) j A) as [[σ1 h1] HS]; [lia|lia|].
  rewrite HS. simpl.
  pose proof (Swap_length _ _ _ _ _ _ HS) as L.
  apply IH; [|lia|lia].
  eapply allocated_perm; [symmetry; by eapply Swap_perm|].
  eapply allocated_same_core; [by eapply Swap_same_core|done].
Qed.

Lemma up_loop_heap fuel σ h j σ' h' :
  heap.up_loop fuel k σ h j = Some (σ', h') → (j < length h)%nat →
  upInv k (priceAt σ h) (length h) j → heapF k (priceAt σ' h') (length h).
Proof.
  revert σ h j. induction fuel as [|fuel IH]; intros σ h j H Hj Inv; [done|].
  simpl in H. destruct (Nat.eqb_spec ((j - 1) / 2) j) as [E|E].
  { injection H as <- <-. eapply upInv_stop; [done|by left]. }
  destruct (Less k σ h j ((j - 1) / 2)) as [b|] eqn:HL; [|done]. simpl in H.
  apply Less_inv in HL. destruct b; simpl in H.
  - destruct (Swap σ h ((j - 1) / 2) j) as [[σ1 h1]|] eqn:HS; [|done]. simpl in H.
    assert ((j - 1) / 2 < j)%nat by (apply parent_lt; by apply parent_neq).
    pose proof (Swap_length _ _ _ _ _ _ HS) as L.
    rewrite <- L. apply (IH _ _ _ H); [lia|]. rewrite L.
    eapply upInv_ext; [intros x; symmetry; by eapply Swap_priceAt|].
    apply upInv_step; [done|split; [by apply parent_neq|lia]|done].
  - injection H as <- <-. eapply upInv_stop; [done|by right].
Qed.

Lemma down_loop_swapped fuel σ h i n s :
  heap.down_loop fuel k σ h i n = Some s → (n ≤ length h)%nat → (i < n)%nat →
  swapped n (σ, h) s.
Proof.
  revert σ h i. induction fuel as [|fuel IH]; intros σ h i H Hn Hi; [done|].
  simpl in H. destruct (Nat.leb_spec n (2 * i + 1)) as [E|E].
  { injection H as <-. constructor. }
  destruct (if (2 * i + 1 + 1 <? n)%nat
            then Less k σ h (2 * i + 1 + 1) (2 * i + 1)
            else Some false) as [r|] eqn:Hr; [|done]. simpl in H.
  set (j := if r then (2 * i + 1 + 1)%nat else (2 * i + 1)%nat) in *.
  assert (Hjn : (j < n)%nat).
  { subst j. destruct r; [|lia].
    destruct (Nat.ltb_spec (2 * i + 1 + 1) n); [lia|congruence]. }
  assert (Hij : (i < j)%nat) by (subst j; destruct r; lia).
  destruct (Less k σ h j i) as [[]|]; simpl in H; [| |done].
  - destruct (Swap σ h i j) as [[σ1 h1]|] eqn:HS; [|done]. simpl in H.
    pose proof (Swap_length _ _ _ _ _ _ HS) as L.
    apply (swapped_step _ σ h i j (σ1, h1)); [lia|lia|lia|done|].
    apply (IH _ _ _ H); lia.
  - injection H as <-. constructor.
Qed.

Lemma down_loop_is_Some fuel σ h i n :
  allocated σ h → (n ≤ length h)%nat → (i < n)%nat → (n < fuel + i)%nat →
  is_Some (heap.down_loop fuel k σ h i n).
Proof.
  revert σ h i. induction fuel as [|fuel IH]; intros σ h i A Hn Hi Hf; [lia|].
  simpl. destruct (Nat.leb_spec n (2 * i + 1)) as [E|E]; [done|].
  assert (is_Some (if (2 * i + 1 + 1 <? n)%nat
            then Less k σ h (2 * i + 1 + 1) (2 * i + 1)
            else Some false)) as [r Hr].
  { destruct (Nat.ltb_spec (2 * i + 1 + 1) n); [|done].
    apply Less_is_Some; [done|lia|lia]. }
  rewrite Hr. simpl.
  set (j := if r then (2 * i + 1 + 1)%nat else (2 * i + 1)%nat) in *.
  assert (Hjn : (j < n)%nat).
  { subst j. destruct r; [|lia].
    destruct (Nat.ltb_spec (2 * i + 1 + 1) n); [lia|congruence]. }
  assert (Hij : (i < j)%nat) by (subst j; destruct r; lia).
  destruct (Less_is_Some k σ h j i A) as [b ->]; [lia|lia|]. simpl.
  destruct b; simpl; [|done].
  destruct (Swap_is_Some σ h i j A) as [[σ1 h1] HS]; [lia|lia|].
  rewrite HS. simpl.
  pose proof (Swap_length _ _ _ _ _ _ HS) as L.
  apply IH; [|lia|lia|lia].
  eapply allocated_perm; [symmetry; by eapply Swap_perm|].
  eapply allocated_same_core; [by eapply Swap_same_core|done].
Qed.

Lemma down_loop_heap fuel σ h i n σ' h' :
  heap.down_loop fuel k σ h i n = Some (σ', h') →
  downInv k (priceAt σ h) n i → heapF k (priceAt σ' h') n.
Proof.
  revert σ h i. induction fuel as [|fuel IH]; intros σ h i H Inv; [done|].
  simpl in H. destruct (Nat.leb_spec n (2 * i + 1)) as [E|E].
  { injection H as <- <-. eapply downInv_leaf; [done|lia]. }
  destruct (if (2 * i + 1 + 1 <? n)%nat
            then Less k σ h (2 * i + 1 + 1) (2 * i + 1)
            else Some false) as [r|] eqn:Hr; [|done]. simpl in H.
  set (j := if r then (2 * i + 1 + 1)%nat else (2 * i + 1)%nat) in *.
  assert (Hj : j = pick k (priceAt σ h) n i).
  { subst j. unfold pick.
    replace (2 * i + 2)%nat with (2 * i + 1 + 1)%nat by lia.
    replace (2 * i + 1)%nat with (2 * i + 1)%nat by lia.
    destruct (Nat.ltb_spec (2 * i + 1 + 1) n); cbn [andb].
    - apply Less_inv in Hr. by rewrite <- Hr.
    - by injection Hr as <-. }
  clearbody j. subst j.
  destruct (Less k σ h (pick k (priceAt σ h) n i) i) as [b|] eqn:HL; [|done].
  simpl in H. apply Less_inv in HL. destruct b; simpl in H.
  - destruct (Swap σ h i (pick k (priceAt σ h) n i)) as [[σ1 h1]|] eqn:HS; [|done].
    simpl in H. apply (IH _ _ _ H).
    eapply downInv_ext; [intros x; symmetry; by eapply Swap_priceAt|].
    apply downInv_step; [done|lia|done].
  - injection H as <- <-. eapply downInv_stop; done.
Qed.
End Loops.

(** ** [heap.Push] and [heap.Pop] on a book *)

Lemma Push_inv σ h x σ' h' :
  Push σ h x = Some (σ', h') ↔
  store_Index σ x (Z.of_nat (length h)) = Some σ' ∧ h' = h ++ [x].
Proof.
  unfold Push. destruct (store_Index σ x (Z.of_nat (length h))) as [σ1|]; simpl.
  - split; [by intros [= <- <-]|by intros [[= <-] ->]].
  - split; [done|by intros [? _]].
Qed.

Lemma Pop_inv σ h x σ' h' :
  Pop σ h = Some (x, σ', h') ↔
  ∃ m, length h = S m ∧ h !! m = Some x ∧ store_Index σ x (-1) = Some σ' ∧ h' = take m h.
Proof.
  unfold Pop. destruct (length h) as [|m] eqn:L.
  { split; [done|]. by intros (m & ? & _). }
  destruct (h !! m) as [y|] eqn:Hy; simpl.
  - destruct (store_Index σ y (-1)) as [σ1|] eqn:HS; simpl.
    + split.
      * intros [= <- <- <-]. by exists m.
      * intros (m' & [= <-] & Hm & H1 & ->). rewrite Hy in Hm. injection Hm as <-.
        rewrite HS in H1. by injection H1 as <-.
    + split; [done|]. intros (m' & [= <-] & Hm & H1 & _).
      rewrite Hy in Hm. injection Hm as <-. congruence.
  - split; [done|]. intros (m' & [= <-] & Hm & _). congruence.
Qed.

Lemma list_last_split (h : list loc) m x :
  length h = S m → h !! m = Some x → h = take m h ++ [x].
Proof.
  intros L Hx. rewrite <- (take_S_r _ _ _ Hx). rewrite <- L. by rewrite firstn_all.
Qed.

Lemma indexed_ext σ σ' h : (∀ l, l ∈ h → σ' !! l = σ !! l) → indexed σ h → indexed σ' h.
Proof.
  intros E I i l Hi. rewrite E; [by apply I|]. by eapply list_elem_of_lookup_2.
Qed.

Lemma priceAt_ext σ σ' h i :
  (∀ l, l ∈ h → σ' !! l = σ !! l) → priceAt σ' h i = priceAt σ h i.
Proof.
  intros E. unfold priceAt, deref. destruct (h !! i) as [l|] eqn:Hl; [|done]. simpl.
  rewrite E; [done|]. by eapply list_elem_of_lookup_2.
Qed.

Lemma ordered_ext k σ σ' h :
  (∀ l, l ∈ h → σ' !! l = σ !! l) → ordered k σ h → ordered k σ' h.
Proof.
  intros E. apply heapF_ext. intros x _. symmetry. by apply priceAt_ext.
Qed.

Lemma book_ok_ext k σ σ' h :
  (∀ l, l ∈ h → σ' !! l = σ !! l) → book_ok k σ h → book_ok k σ' h.
Proof.
  intros E (ND & I & O). split; [done|]. split; [by eapply indexed_ext|by eapply ordered_ext].
Qed.

Section Book.
Variable k : HeapKind.

Lemma heap_Push_is_Some σ h x :
  allocated σ h → is_Some (σ !! x) → is_Some (heap.Push k σ h x).
Proof.
  intros A Hx. unfold heap.Push.
  destruct (store_Index_is_Some σ x (Z.of_nat (length h)) Hx) as [σ1 H1].
  assert (Push σ h x = Some (σ1, h ++ [x])) as -> by by apply Push_inv.
  simpl. apply up_loop_is_Some.
  - intros l Hl. apply (same_core_is_Some σ σ1); [by eapply store_Index_same_core|].
    apply elem_of_app in Hl as [Hl|Hl]; [by apply A|].
    apply list_elem_of_singleton in Hl as ->. done.
  - unfold Len. rewrite length_app. simpl. lia.
  - lia.
Qed.

Lemma heap_Push_frame σ h x σ' h' :
  heap.Push k σ h x = Some (σ', h') →
  h' ≡ₚ x :: h ∧ same_core σ σ' ∧ same_outside (x :: h) σ σ'.
Proof.
  unfold heap.Push. intros H.
  destruct (Push σ h x) as [[σ1 h1]|] eqn:HP; [|done]. simpl in H.
  apply Push_inv in HP as [H1 ->].
  apply up_loop_swapped in H; [|unfold Len; rewrite length_app; simpl; lia].
  apply swapped_spec in H as (P & _ & C & O & _).
  split; [|split].
  - rewrite P. by rewrite Permutation_app_comm.
  - eapply same_core_trans; [by eapply store_Index_same_core|done].
  - intros l Hl. rewrite O.
    + eapply store_Index_other; [done|]. intros ->. apply Hl. by left.
    + intros Hin. apply Hl. apply elem_of_app in Hin as [Hin|Hin]; [by right|].
      apply list_elem_of_singleton in Hin as ->. by left.
Qed.

Lemma heap_Push_book σ h x σ' h' :
  book_ok k σ h → x ∉ h → heap.Push k σ h x = Some (σ', h') → book_ok k σ' h'.
Proof.
  intros (ND & I & O) Hx H. unfold heap.Push in H.
  destruct (Push σ h x) as [[σ1 h1]|] eqn:HP; [|done]. simpl in H.
  apply Push_inv in HP as [H1 ->].
  assert (L : (Len (h ++ [x]) - 1 < length (h ++ [x]))%nat)
    by (unfold Len; rewrite length_app; simpl; lia).
  assert (ND1 : NoDup (h ++ [x])).
  { apply NoDup_app. split; [done|]. split; [|apply NoDup_singleton].
    intros y Hy Hy'. apply list_elem_of_singleton in Hy' as ->. done. }
  assert (E1 : ∀ l, l ∈ h → σ1 !! l = σ !! l).
  { intros l Hl. eapply store_Index_other; [done|]. by intros ->. }
  assert (I1 : indexed σ1 (h ++ [x])).
  { intros i l Hi. apply lookup_app_Some in Hi as [Hi|[Hlen Hi]].
    - rewrite E1 by (by eapply list_elem_of_lookup_2). by apply I.
    - apply list_lookup_singleton_Some in Hi as [Hi ->].
      replace i with (length h) by lia. by eapply store_Index_here. }
  pose proof (up_loop_swapped _ _ _ _ _ _ H L) as SW.
  apply swapped_spec in SW as (P & Len' & _ & _ & _ & I').
  split; [by rewrite P|]. split; [by apply I'|].
  unfold ordered. rewrite Len'.
  eapply (up_loop_heap k _ _ _ _ _ _ H L).
  unfold Len. rewrite length_app. simpl.
  apply upInv_last.
  replace (length h + 1 - 1)%nat with (length h) by lia.
  eapply heapF_ext; [|exact O]. intros i Hi. unfold priceAt, deref.
  rewrite lookup_app_l by done.
  destruct (h !! i) as [l|] eqn:Hl; [|done]. simpl.
  rewrite E1; [done|]. by eapply list_elem_of_lookup_2.
Qed.

Lemma down_is_Some σ h n :
  allocated σ h → (n ≤ length h)%nat → is_Some (heap.down k σ h 0 n).
Proof.
  intros A Hn. destruct n as [|n]; [done|].
  apply down_loop_is_Some; [done|lia|lia|lia].
Qed.

Lemma down_swapped σ h n s :
  heap.down k σ h 0 n = Some s → (n ≤ length h)%nat → swapped n (σ, h) s.
Proof.
  intros H Hn. destruct n as [|n].
  - injection H as <-. constructor.
  - apply (down_loop_swapped k _ _ _ _ _ _ H); lia.
Qed.

Lemma heap_Pop_is_Some σ h :
  allocated σ h → (0 < length h)%nat → is_Some (heap.Pop k σ h).
Proof.
  intros A Hh. unfold heap.Pop, Len.
  destruct (Swap_is_Some σ h 0 (length h - 1) A) as [[σ1 h1] HS]; [lia|lia|].
  rewrite HS. simpl.
  pose proof (Swap_length _ _ _ _ _ _ HS) as L1.
  assert (A1 : allocated σ1 h1).
  { eapply allocated_perm; [symmetry; by eapply Swap_perm|].
    eapply allocated_same_core; [by eapply Swap_same_core|done]. }
  destruct (down_is_Some σ1 h1 (length h - 1) A1) as [[σ2 h2] HD]; [lia|].
  rewrite HD. simpl.
  apply down_swapped in HD; [|lia].
  apply swapped_spec in HD as (P2 & L2 & C2 & _).
  assert (A2 : allocated σ2 h2).
  { eapply allocated_perm; [symmetry; exact P2|].
    eapply allocated_same_core; [exact C2|done]. }
  destruct (lookup_lt_is_Some_2 h2 (length h - 1)) as [y Hy]; [lia|].
  destruct (store_Index_is_Some σ2 y (-1)) as [σ3 H3].
  { apply A2. by eapply list_elem_of_lookup_2. }
  exists (y, σ3, take (length h - 1) h2). apply Pop_inv.
  exists (length h - 1)%nat. split; [lia|]. done.
Qed.

Lemma down_heap σ h n σ' h' :
  heap.down k σ h 0 n = Some (σ', h') →
  downInv k (priceAt σ h) n 0 → heapF k (priceAt σ' h') n.
Proof. apply down_loop_heap. Qed.

(** The steps of [heap.Pop], taken apart. *)
Lemma heap_Pop_steps σ h x σ' h' :
  heap.Pop k σ h = Some (x, σ', h') →
  ∃ σ1 h1 σ2 h2,
    Swap σ h 0 (length h - 1) = Some (σ1, h1) ∧
    heap.down k σ1 h1 0 (length h - 1) = Some (σ2, h2) ∧
    swapped (length h - 1) (σ1, h1) (σ2, h2) ∧
    length h = S (length h - 1) ∧ length h2 = length h ∧
    h2 !! (length h - 1)%nat = Some x ∧ h !! 0%nat = Some x ∧
    store_Index σ2 x (-1) = Some σ' ∧ h' = take (length h - 1) h2.
Proof.
  unfold heap.Pop, Len. intros H.
  destruct (Swap σ h 0 (length h - 1)) as [[σ1 h1]|] eqn:HS; [|done]. simpl in H.
  destruct (heap.down k σ1 h1 0 (length h - 1)) as [[σ2 h2]|] eqn:HD; [|done].
  simpl in H. apply Pop_inv in H as (m & Lm & Hm & H3 & ->).
  pose proof (Swap_length _ _ _ _ _ _ HS) as L1.
  pose proof (down_swapped _ _ _ _ HD ltac:(lia)) as SW.
  pose proof (swapped_spec _ _ _ _ _ SW) as (P2 & L2 & C2 & O2 & U2 & I2).
  assert (m = (length h - 1)%nat) as -> by lia.
  exists σ1, h1, σ2, h2. repeat split; try done; try lia.
  rewrite U2 in Hm by lia. rewrite (Swap_lookup _ _ _ _ _ _ _ HS) in Hm.
  destruct (decide (length h - 1 = 0)%nat) as [E|E]; [by rewrite E in Hm|].
  by rewrite decide_True in Hm.
Qed.

Lemma heap_Pop_frame σ h x σ' h' :
  heap.Pop k σ h = Some (x, σ', h') →
  h !! 0%nat = Some x ∧ h ≡ₚ x :: h' ∧ same_core σ σ' ∧ same_outside h σ σ' ∧
  Index <$> σ' !! x = Some (-1) ∧ length h = S (length h').
Proof.
  intros H.
  apply heap_Pop_steps in H
    as (σ1 & h1 & σ2 & h2 & HS & HD & SW & Ln & L2 & Hx2 & Hx & H3 & ->).
  pose proof (swapped_spec _ _ _ _ _ SW) as (P2 & _ & C2 & O2 & _ & _).
  pose proof (Swap_perm _ _ _ _ _ _ HS) as P1.
  assert (Hsplit : h2 = take (length h - 1) h2 ++ [x])
    by (apply list_last_split; [lia|done]).
  repeat split.
  - done.
  - transitivity h2; [by rewrite P2, P1|].
    rewrite Hsplit at 1. exact (Permutation_app_comm _ [x]).
  - eapply same_core_trans; [by eapply Swap_same_core|].
    eapply same_core_trans; [exact C2|by eapply store_Index_same_core].
  - intros l Hl.
    rewrite (store_Index_other _ _ _ _ l H3).
    + rewrite O2 by (by rewrite P1). by eapply Swap_same_outside.
    + intros ->. apply Hl. by eapply list_elem_of_lookup_2.
  - by eapply store_Index_here.
  - rewrite length_take. lia.
Qed.

Lemma heap_Pop_book σ h x σ' h' :
  book_ok k σ h → heap.Pop k σ h = Some (x, σ', h') → book_ok k σ' h'.
Proof.
  intros (ND & I & O) H.
  pose proof (heap_Pop_frame _ _ _ _ _ H) as (_ & P & _).
  apply heap_Pop_steps in H
    as (σ1 & h1 & σ2 & h2 & HS & HD & SW & Ln & L2 & Hx2 & Hx & H3 & ->).
  pose proof (swapped_spec _ _ _ _ _ SW) as (P2 & _ & C2 & O2 & _ & I2).
  pose proof (Swap_perm _ _ _ _ _ _ HS) as P1.
  assert (ND1 : NoDup h1) by by rewrite P1.
  assert (ND2 : NoDup h2) by by rewrite P2.
  assert (I2' : indexed σ2 h2) by (apply I2; [done|by eapply Swap_indexed]).
  assert (E3 : ∀ i l, take (length h - 1) h2 !! i = Some l →
                 h2 !! i = Some l ∧ (i < length h - 1)%nat ∧ σ' !! l = σ2 !! l).
  { intros i l Hi. apply lookup_take_Some in Hi as [Hi Hlt]. split; [done|].
    split; [done|]. eapply store_Index_other; [done|]. intros ->.
    pose proof (NoDup_lookup _ _ _ _ ND2 Hi Hx2). lia. }
  split; [|split].
  - rewrite P in ND. by apply NoDup_cons in ND as [_ ND].
  - intros i l Hi. destruct (E3 i l Hi) as (Hi2 & _ & ->). by apply I2'.
  - unfold ordered. rewrite length_take, L2, Nat.min_l by lia.
    eapply heapF_ext; [|eapply (down_heap _ _ _ _ _ HD)].
    + intros i Hi. unfold priceAt, deref. rewrite lookup_take_lt by done.
      destruct (h2 !! i) as [l|] eqn:Hl; [|done]. simpl.
      destruct (E3 i l) as (_ & _ & ->); [|done].
      apply lookup_take_Some. done.
    + eapply downInv_ext; [intros y; symmetry; by eapply Swap_priceAt|].
      eapply downInv_first; [exact O|lia].
Qed.
End Book.

(** ** The root of a book in good order *)

Lemma book_ok_allocated k σ h : book_ok k σ h → allocated σ h.
Proof. intros (_ & I & _). by apply indexed_allocated. Qed.

Lemma ordered_root_extremal k σ h : ordered k σ h → root_extremal k σ h.
Proof.
  intros O r l o Hr Hl Ho.
  apply list_elem_of_lookup in Hl as [j Hj].
  pose proof (lookup_lt_Some _ _ _ Hj) as Hlt.
  pose proof (heapF_root k _ _ j O Hlt) as B.
  unfold priceAt in B. rewrite Hr in B. unfold deref in B. rewrite Hj in B.
  simpl in B. rewrite Ho in B. by apply better_false_le in B.
Qed.

(** ** Two books side by side *)

Lemma heap_Push_other k σ h x σ' h' k2 g :
  heap.Push k σ h x = Some (σ', h') → (∀ l, l ∈ g → l ≠ x ∧ l ∉ h) →
  book_ok k2 σ g → book_ok k2 σ' g.
Proof.
  intros H D. apply book_ok_ext. intros l Hl.
  apply heap_Push_frame in H as (_ & _ & O). apply O.
  destruct (D l Hl) as [Hx Hh]. intros Hin. by apply elem_of_cons in Hin as [->|Hin].
Qed.

Lemma positive_amounts_same_core σ σ' h :
  same_core σ σ' → positive_amounts σ h → positive_amounts σ' h.
Proof.
  intros C P l Hl. destruct (P l Hl) as (o & Ho & Hpos).
  destruct (same_core_Some _ _ _ _ C Ho) as (o' & Ho' & Hc).
  exists o'. split; [done|]. by rewrite (core_Amount _ _ Hc).
Qed.

Lemma positive_amounts_perm σ h h' :
  h ≡ₚ h' → positive_amounts σ h → positive_amounts σ h'.
Proof. intros E P l Hl. apply P. by rewrite E. Qed.

#[global] Instance positive_amounts_proper σ :
  Proper ((≡ₚ) ==> iff) (positive_amounts σ).
Proof.
  intros h h' E. split; apply positive_amounts_perm; [done|by symmetry].
Qed.

Lemma positive_amounts_app σ h g :
  positive_amounts σ (h ++ g) ↔ positive_amounts σ h ∧ positive_amounts σ g.
Proof.
  unfold positive_amounts. split.
  - intros H. split; intros l Hl; apply H; set_solver.
  - intros [H1 H2] l Hl. apply elem_of_app in Hl as [Hl|Hl]; auto.
Qed.

Lemma positive_amounts_ext σ σ' h :
  (∀ l, l ∈ h → σ' !! l = σ !! l) → positive_amounts σ h → positive_amounts σ' h.
Proof. intros E P l Hl. rewrite E by done. by apply P. Qed.

Lemma same_outside_weaken h g σ σ' :
  (∀ l, l ∈ h → l ∈ g) → same_outside h σ σ' → same_outside g σ σ'.
Proof. intros Hs O l Hl. apply O. intros Hin. by apply Hl, Hs. Qed.

Lemma same_outside_trans h σ1 σ2 σ3 :
  same_outside h σ1 σ2 → same_outside h σ2 σ3 → same_outside h σ1 σ3.
Proof. intros H1 H2 l Hl. rewrite H2, H1; done. Qed.

(** ** Ingestion *)

Lemma new_fresh (σ : Mem) : σ !! new σ = None.
Proof. apply not_elem_of_dom. unfold new. apply is_fresh. Qed.

Lemma engine_ok_allocated σ me :
  engine_ok σ me → allocated σ (BuyOrders me ++ SellOrders me ++ orderChannel me).
Proof.
  intros (_ & A & B & S) l Hl.
  apply elem_of_app in Hl as [Hl|Hl]; [exact (book_ok_allocated _ _ _ B l Hl)|].
  apply elem_of_app in Hl as [Hl|Hl]; [exact (book_ok_allocated _ _ _ S l Hl)|by apply A].
Qed.

Lemma engine_ok_new σ me :
  engine_ok σ me →
  ∀ l, l ∈ BuyOrders me ++ SellOrders me ++ orderChannel me → l ≠ new σ.
Proof.
  intros OK l Hl ->. apply engine_ok_allocated in OK. specialize (OK _ Hl).
  rewrite new_fresh in OK. by destruct OK.
Qed.

(** Writing a new object leaves the engine in good order. *)
Lemma engine_ok_alloc σ me o : engine_ok σ me → engine_ok (<[new σ := o]> σ) me.
Proof.
  intros OK. pose proof (engine_ok_new σ me OK) as F.
  destruct OK as (ND & A & B & S).
  assert (E : ∀ l, l ∈ BuyOrders me ++ SellOrders me ++ orderChannel me →
                   <[new σ := o]> σ !! l = σ !! l).
  { intros l Hl. apply lookup_insert_ne. intros Hn. by apply (F l). }
  split; [done|]. split; [|split].
  - intros l Hl. rewrite E by set_solver. by apply A.
  - eapply book_ok_ext; [|exact B]. intros l Hl. apply E. set_solver.
  - eapply book_ok_ext; [|exact S]. intros l Hl. apply E. set_solver.
Qed.

Lemma AddOrderHandler_ok σ me body st σ' me' :
  engine_ok σ me → AddOrderHandler σ me body = (st, σ', me') → engine_ok σ' me'.
Proof.
  intros OK H. pose proof (engine_ok_new σ me OK) as F.
  unfold AddOrderHandler in H. destruct body as [o|]; injection H as <- <- <-.
  - pose proof (engine_ok_alloc σ me o OK) as (ND & A & B & S).
    split; [|split; [|split]]; simpl; [| |done|done].
    + rewrite !app_assoc. apply NoDup_app. rewrite <- !app_assoc.
      split; [done|]. split; [|apply NoDup_singleton].
      intros l Hl Hl'. apply list_elem_of_singleton in Hl'. by apply (F l).
    + intros l Hl. apply elem_of_app in Hl as [Hl|Hl]; [by apply A|].
      apply list_elem_of_singleton in Hl as ->. by rewrite lookup_insert_eq.
  - by apply engine_ok_alloc.
Qed.

(** [addOrderInternal] on an order that is in no book. *)
Lemma addOrderInternal_ok σ me order :
  engine_ok σ me → is_Some (σ !! order) →
  order ∉ BuyOrders me ++ SellOrders me ++ orderChannel me →
  ∃ σ' me', addOrderInternal σ me order = Some (σ', me') ∧ engine_ok σ' me' ∧
    same_core σ σ' ∧ orderChannel me' = orderChannel me ∧
    same_outside (order :: BuyOrders me ++ SellOrders me) σ σ' ∧
    ∃ o, σ !! order = Some o ∧
      if String.eqb (Type_ o) Buy
      then BuyOrders me' ≡ₚ order :: BuyOrders me ∧ SellOrders me' = SellOrders me
      else SellOrders me' ≡ₚ order :: SellOrders me ∧ BuyOrders me' = BuyOrders me.
Proof.
  intros (ND & A & B & S) [o Ho] Hnew. unfold addOrderInternal. rewrite Ho. simpl.
  apply NoDup_app in ND as (NDb & Dbs & ND).
  apply NoDup_app in ND as (NDs & Dsc & NDc).
  destruct (String.eqb (Type_ o) Buy) eqn:Et.
  - destruct (heap_Push_is_Some BuyHeap σ (BuyOrders me) order) as [[σ' h'] HP];
      [by eapply book_ok_allocated|done|].
    rewrite HP. simpl. exists σ', (set_BuyOrders me h').
    pose proof (heap_Push_frame _ _ _ _ _ _ HP) as (P & C & O).
    split; [done|]. split; [|split; [done|split; [done|split; [|exists o; by rewrite Et]]]].
    2:{ eapply same_outside_weaken; [|exact O]. intros l Hl.
        apply elem_of_cons in Hl as [->|Hl]; [by left|].
        right. apply elem_of_app. auto. }
    split; [|split; [|split]]; simpl.
    + rewrite P. apply NoDup_cons. split; [set_solver|].
      apply NoDup_app. split; [done|]. split; [done|]. by apply NoDup_app.
    + intros l Hl. apply (same_core_is_Some σ σ'); [done|]. by apply A.
    + eapply heap_Push_book; [exact B| |exact HP]. set_solver.
    + eapply heap_Push_other; [exact HP| |exact S].
      intros l Hl. split; [set_solver|]. intros Hb. apply (Dbs l Hb). set_solver.
  - destruct (heap_Push_is_Some SellHeap σ (SellOrders me) order) as [[σ' h'] HP];
      [by eapply book_ok_allocated|done|].
    rewrite HP. simpl. exists σ', (set_SellOrders me h').
    pose proof (heap_Push_frame _ _ _ _ _ _ HP) as (P & C & O).
    split; [done|]. split; [|split; [done|split; [done|split; [|exists o; by rewrite Et]]]].
    2:{ eapply same_outside_weaken; [|exact O]. intros l Hl.
        apply elem_of_cons in Hl as [->|Hl]; [by left|].
        right. apply elem_of_app. auto. }
    split; [|split; [|split]]; simpl.
    + rewrite P. apply NoDup_app. split; [done|]. split.
      * intros l Hl Hl'. apply elem_of_cons in Hl' as [->|Hl']; [|by apply (Dbs l Hl)].
        apply Hnew. apply elem_of_app. by left.
      * apply NoDup_cons. split; [|by apply NoDup_app].
        intros Hin. apply Hnew. apply elem_of_app. by right.
    + intros l Hl. apply (same_core_is_Some σ σ'); [done|]. by apply A.
    + eapply heap_Push_other; [exact HP| |exact B].
      intros l Hl. split; [set_solver|]. intros Hb. apply (Dbs l Hl). set_solver.
    + eapply heap_Push_book; [exact S| |exact HP]. set_solver.
Qed.

Lemma receive_ok σ me :
  engine_ok σ me → ∃ σ' me', receive σ me = Some (σ', me') ∧ engine_ok σ' me' ∧
    same_core σ σ' ∧
    same_outside (BuyOrders me ++ SellOrders me ++ orderChannel me) σ σ' ∧
    BuyOrders me' ++ SellOrders me' ++ orderChannel me'
      ≡ₚ BuyOrders me ++ SellOrders me ++ orderChannel me.
Proof.
  intros OK. unfold receive. destruct (orderChannel me) as [|order rest] eqn:Ec.
  { exists σ, me. rewrite Ec. done. }
  destruct OK as (ND & A & B & S). rewrite Ec in ND, A.
  assert (Pm : BuyOrders me ++ SellOrders me ++ order :: rest
               ≡ₚ order :: BuyOrders me ++ SellOrders me ++ rest).
  { rewrite !app_assoc. by rewrite <- Permutation_middle. }
  rewrite Pm in ND. apply NoDup_cons in ND as [Hnew ND'].
  destruct (addOrderInternal_ok σ (set_orderChannel me rest) order)
    as (σ' & me' & H & OK' & C & Ech & O & o & Ho & Hr).
  - split; [done|]. split; [|done]. intros l Hl. apply A. by right.
  - apply A. by left.
  - done.
  - exists σ', me'. split; [done|]. split; [done|]. split; [done|].
    simpl in *. split.
    { eapply same_outside_weaken; [|exact O]. intros l Hl.
      apply elem_of_cons in Hl as [->|Hl].
      - apply elem_of_app. right. apply elem_of_app. right. by left.
      - apply elem_of_app in Hl as [Hl|Hl]; apply elem_of_app; [by left|].
        right. apply elem_of_app. by left. }
    rewrite Ech. destruct (String.eqb (Type_ o) Buy).
    + destruct Hr as [-> ->]. simpl. by rewrite !app_assoc, <- Permutation_middle.
    + destruct Hr as [-> ->]. simpl.
      rewrite (Permutation_app_comm (BuyOrders me)). simpl.
      rewrite (Permutation_app_comm (BuyOrders me)).
      by rewrite <- Permutation_middle.
Qed.

(** ** The pieces of a sweep *)

Lemma submseteq_NoDup {A} (l k : list A) : l ⊆+ k → NoDup k → NoDup l.
Proof.
  induction 1 as [|x l k H IH|x y l|x l k H IH|l k m H1 IH1 H2 IH2]; intros ND.
  - done.
  - apply NoDup_cons in ND as [Hx ND]. apply NoDup_cons. split; [|by apply IH].
    intros Hin. apply Hx. by eapply elem_of_submseteq.
  - by rewrite Permutation_swap.
  - apply NoDup_cons in ND as [_ ND]. by apply IH.
  - apply IH1, IH2, ND.
Qed.

Lemma heap_Push_spec k σ h x :
  book_ok k σ h → x ∉ h → is_Some (σ !! x) →
  ∃ σ' h', heap.Push k σ h x = Some (σ', h') ∧ book_ok k σ' h' ∧
    h' ≡ₚ x :: h ∧ same_core σ σ' ∧ same_outside (x :: h) σ σ'.
Proof.
  intros B Hx Hs.
  destruct (heap_Push_is_Some k σ h x (book_ok_allocated _ _ _ B) Hs) as [[σ' h'] H].
  exists σ', h'. split; [done|]. split; [by eapply heap_Push_book|].
  by eapply heap_Push_frame.
Qed.

Lemma heap_Pop_spec k σ h x0 :
  book_ok k σ h → h !! 0%nat = Some x0 →
  ∃ σ' h', heap.Pop k σ h = Some (x0, σ', h') ∧ book_ok k σ' h' ∧
    h ≡ₚ x0 :: h' ∧ same_core σ σ' ∧ same_outside h σ σ' ∧
    Index <$> σ' !! x0 = Some (-1) ∧ length h = S (length h').
Proof.
  intros B H0.
  destruct (heap_Pop_is_Some k σ h (book_ok_allocated _ _ _ B)) as [[[x σ'] h'] H].
  { apply lookup_lt_Some in H0. lia. }
  pose proof (heap_Pop_frame _ _ _ _ _ _ H) as (Hx & P & C & O & I & L).
  assert (x = x0) as -> by congruence.
  exists σ', h'. split; [done|]. split; [by eapply heap_Pop_book|done].
Qed.

Lemma sub_Amount_Some σ l q σ' :
  sub_Amount σ l q = Some σ' ↔
  ∃ o, σ !! l = Some o ∧ σ' = <[l := set_Amount o (wrap64 (Amount o - q))]> σ.
Proof.
  unfold sub_Amount. destruct (σ !! l) as [o|]; simpl; split.
  - intros [= <-]. by exists o.
  - intros (o' & [= <-] & ->). done.
  - done.
  - by intros (? & ? & _).
Qed.

Lemma reinsert_spec k σ h x o :
  book_ok k σ h → x ∉ h → σ !! x = Some o →
  ∃ σ' h', reinsert k σ h x = Some (σ', h') ∧ book_ok k σ' h' ∧
    h' ≡ₚ (if 0 <? Amount o then x :: h else h) ∧
    same_core σ σ' ∧ same_outside (x :: h) σ σ'.
Proof.
  intros B Hx Ho. unfold reinsert. rewrite Ho. simpl.
  destruct (0 <? Amount o).
  - apply heap_Push_spec; [done|done|by rewrite Ho].
  - exists σ, h. done.
Qed.

(** ** One iteration of the sweep *)

Lemma engine_ok_intro σ buy sell chan :
  NoDup (buy ++ sell ++ chan) → allocated σ chan →
  book_ok BuyHeap σ buy → book_ok SellHeap σ sell →
  engine_ok σ (mkEngine buy sell chan).
Proof. intros. unfold engine_ok. simpl. done. Qed.

Lemma book_ok_nil k σ : book_ok k σ [].
Proof.
  split; [apply NoDup_nil_2|]. split; [by intros i l Hi|].
  intros c Hc. simpl in Hc. lia.
Qed.

Lemma iteration_no_sell mf σ me b :
  engine_ok σ me → BuyOrders me !! 0%nat = Some b → SellOrders me = [] →
  ∃ it, iteration mf σ me = Some it ∧
    engine_ok (imem it) (ieng it) ∧
    orderChannel (ieng it) = orderChannel me ∧
    same_outside (BuyOrders me ++ SellOrders me) σ (imem it) ∧
    ctl it = Break ∧ written it = [] ∧ found it = mf ∧ same_core σ (imem it) ∧
    BuyOrders (ieng it) ≡ₚ BuyOrders me ∧ SellOrders (ieng it) = [].
Proof.
  intros OK Hb0 Es. destruct me as [buy sell chan]. pose proof OK as (ND & A & B & SB).
  unfold iteration, set_BuyOrders, set_SellOrders.
  cbn [BuyOrders SellOrders orderChannel] in *.
  assert ((Len buy =? 0)%nat = false) as ->.
  { apply Nat.eqb_neq. apply lookup_lt_Some in Hb0. unfold Len. lia. }
  assert ((Len sell =? 0)%nat = true) as -> by (by rewrite Es).
  destruct (heap_Pop_spec BuyHeap σ buy b B Hb0)
    as (σ1 & hb & HP1 & B1 & P1 & C1 & O1 & _ & L1).
  rewrite HP1. simpl.
  rewrite P1 in ND.
  destruct (book_ok_allocated _ _ _ B b) as [ob Hob]; [by eapply list_elem_of_lookup_2|].
  destruct (heap_Push_spec BuyHeap σ1 hb b B1) as (σ2 & hb2 & HP2 & B2 & P2 & C2 & O2).
  { apply NoDup_app in ND as (ND & _). by apply NoDup_cons in ND as [? _]. }
  { apply (same_core_is_Some σ σ1); [done|]. by rewrite Hob. }
  rewrite HP2. simpl. eexists. split; [done|]. simpl.
  split; [|split; [done|split]].
  - apply engine_ok_intro; [by rewrite P2| |done|].
    + eapply allocated_same_core; [exact C2|]. by eapply allocated_same_core.
    + rewrite Es. apply book_ok_nil.
  - eapply same_outside_trans; eapply same_outside_weaken; [|exact O1| |exact O2];
      intros l Hl; apply elem_of_app; left; [done|by rewrite P1].
  - repeat split; try done.
    + by eapply same_core_trans.
    + by rewrite P2, P1.
Qed.

Lemma iteration_both mf σ me b s :
  engine_ok σ me → BuyOrders me !! 0%nat = Some b → SellOrders me !! 0%nat = Some s →
  ∃ it, iteration mf σ me = Some it ∧
    engine_ok (imem it) (ieng it) ∧
    orderChannel (ieng it) = orderChannel me ∧
    same_outside (BuyOrders me ++ SellOrders me) σ (imem it) ∧
    two_books mf σ me b s it.
Proof.
  intros OK Hb0 Hs0. destruct me as [buy sell chan]. pose proof OK as (ND & A & B & SB).
  unfold iteration, two_books, set_BuyOrders, set_SellOrders.
  cbn [BuyOrders SellOrders orderChannel] in *.
  assert ((Len buy =? 0)%nat = false) as ->.
  { apply Nat.eqb_neq. apply lookup_lt_Some in Hb0. unfold Len. lia. }
  assert ((Len sell =? 0)%nat = false) as ->.
  { apply Nat.eqb_neq. apply lookup_lt_Some in Hs0. unfold Len. lia. }
  destruct (heap_Pop_spec BuyHeap σ buy b B Hb0)
    as (σ1 & hb & HP1 & B1 & P1 & C1 & O1 & _ & L1).
  rewrite HP1. simpl.
  rewrite P1 in ND.
  destruct (book_ok_allocated _ _ _ B b) as [ob Hob]; [by eapply list_elem_of_lookup_2|].
  assert (S1 : book_ok SellHeap σ1 sell).
  { eapply book_ok_ext; [|exact SB]. intros l Hl. apply O1. rewrite P1.
    intros Hin. apply NoDup_app in ND as (_ & D & _). apply (D l Hin).
    apply elem_of_app. by left. }
  assert (A1 : allocated σ1 chan) by by eapply allocated_same_core.
  assert (Hb1 : is_Some (σ1 !! b)).
  { apply (same_core_is_Some σ σ1); [done|]. by rewrite Hob. }
  destruct (heap_Pop_spec SellHeap σ1 sell s S1 Hs0)
    as (σ2 & hs & HP2 & S2 & P2 & C2 & O2 & _ & L2).
  rewrite HP2. simpl.
  rewrite P2 in ND.
  destruct (book_ok_allocated _ _ _ SB s) as [os Hos]; [by eapply list_elem_of_lookup_2|].
  (* the two popped orders and the rest of the books are distinct objects *)
  pose proof ND as ND0.
  apply NoDup_app in ND as (NDb & Dbs & ND).
  apply NoDup_app in ND as (NDs & Dsc & NDc).
  apply NoDup_cons in NDb as [Hbhb NDhb].
  apply NoDup_cons in NDs as [Hshs NDhs].
  assert (Hbs : b ≠ s).
  { intros ->. apply (Dbs s); [by left|]. apply elem_of_app. left. by left. }
  assert (Hbhs : b ∉ hs).
  { intros Hin. apply (Dbs b); [by left|]. apply elem_of_app. left. by right. }
  assert (Hshb : s ∉ hb).
  { intros Hin. apply (Dbs s); [by right|]. apply elem_of_app. left. by left. }
  assert (Dhh : ∀ l, l ∈ hb → l ∉ hs).
  { intros l Hl Hin. apply (Dbs l); [by right|]. apply elem_of_app. left. by right. }
  assert (B2 : book_ok BuyHeap σ2 hb).
  { eapply book_ok_ext; [|exact B1]. intros l Hl. apply O2. rewrite P2.
    intros Hin. apply elem_of_cons in Hin as [->|Hin]; [done|]. by apply (Dhh l). }
  assert (C02 : same_core σ σ2) by by eapply same_core_trans.
  destruct (same_core_Some _ _ _ _ C02 Hob) as (b2 & Hb2 & Cb2).
  destruct (same_core_Some _ _ _ _ C02 Hos) as (s2 & Hs2 & Cs2).
  rewrite Hb2, Hs2. simpl.
  rewrite (core_Price _ _ Cb2), (core_Price _ _ Cs2).
  rewrite (core_Amount _ _ Cb2), (core_Amount _ _ Cs2).
  rewrite (core_ID _ _ Cb2), (core_ID _ _ Cs2).
  assert (O02 : same_outside (buy ++ sell) σ σ2).
  { eapply same_outside_trans; eapply same_outside_weaken; [|exact O1| |exact O2];
      intros l Hl; apply elem_of_app; [by left|by right]. }
  assert (A2 : allocated σ2 chan) by by eapply allocated_same_core.
  destruct (price_ge (Price ob) (Price os)) eqn:Hge.
  2:{ (* no cross: both orders go back *)
    destruct (heap_Push_spec BuyHeap σ2 hb b B2 Hbhb) as (σ3 & hb3 & HP3 & B3 & P3 & C3 & O3).
    { by rewrite Hb2. }
    rewrite HP3. simpl.
    assert (S3 : book_ok SellHeap σ3 hs).
    { eapply book_ok_ext; [|exact S2]. intros l Hl. apply O3.
      intros Hin. apply elem_of_cons in Hin as [->|Hin]; [done|]. by apply (Dhh l). }
    destruct (heap_Push_spec SellHeap σ3 hs s S3 Hshs) as (σ4 & hs4 & HP4 & S4 & P4 & C4 & O4).
    { apply (same_core_is_Some σ2 σ3); [done|]. by rewrite Hs2. }
    rewrite HP4. simpl. eexists. split; [done|]. simpl.
    split; [|split; [done|split]].
    - apply engine_ok_intro; [by rewrite P3, P4| | |done].
      + eapply allocated_same_core; [exact C4|]. by eapply allocated_same_core.
      + eapply book_ok_ext; [|exact B3]. intros l Hl. apply O4. rewrite P3 in Hl.
        intros Hin. apply elem_of_cons in Hin as [->|Hin].
        * apply elem_of_cons in Hl as [->|Hl]; done.
        * apply elem_of_cons in Hl as [->|Hl]; [done|]. by apply (Dhh l).
    - eapply same_outside_trans; [exact O02|].
      eapply same_outside_trans; eapply same_outside_weaken; [|exact O3| |exact O4];
        intros l Hl; apply elem_of_app.
      + left. by rewrite P1.
      + right. by rewrite P2.
    - exists ob, os, hb, hs. rewrite Hge. repeat split; try done.
      + eapply same_core_trans; [exact C02|]. by eapply same_core_trans.
      + by rewrite P3, P1.
      + by rewrite P4, P2. }
  (* cross *)
  set (q := min (Amount ob) (Amount os)).
  set (σ3 := <[b := set_Amount b2 (wrap64 (Amount b2 - q))]> σ2).
  assert (sub_Amount σ2 b q = Some σ3) as -> by (apply sub_Amount_Some; by exists b2).
  simpl.
  assert (Hs3 : σ3 !! s = Some s2) by (subst σ3; by rewrite lookup_insert_ne).
  set (σ4 := <[s := set_Amount s2 (wrap64 (Amount s2 - q))]> σ3).
  assert (sub_Amount σ3 s q = Some σ4) as -> by (apply sub_Amount_Some; by exists s2).
  simpl.
  assert (E4 : ∀ l, l ≠ b → l ≠ s → σ4 !! l = σ2 !! l).
  { intros l H1 H2. subst σ4 σ3. by rewrite !lookup_insert_ne. }
  assert (Hb4 : σ4 !! b = Some (set_Amount b2 (wrap64 (Amount b2 - q)))).
  { subst σ4 σ3. rewrite lookup_insert_ne by done. by rewrite lookup_insert_eq. }
  assert (Hs4 : σ4 !! s = Some (set_Amount s2 (wrap64 (Amount s2 - q)))).
  { subst σ4. by rewrite lookup_insert_eq. }
  assert (B4 : book_ok BuyHeap σ4 hb).
  { eapply book_ok_ext; [|exact B2]. intros l Hl. apply E4; by intros ->. }
  assert (S4 : book_ok SellHeap σ4 hs).
  { eapply book_ok_ext; [|exact S2]. intros l Hl. apply E4; by intros ->. }
  destruct (reinsert_spec BuyHeap σ4 hb b _ B4 Hbhb Hb4)
    as (σ5 & hb5 & HR5 & B5 & P5 & C5 & O5).
  rewrite HR5. simpl.
  assert (S5 : book_ok SellHeap σ5 hs).
  { eapply book_ok_ext; [|exact S4]. intros l Hl. apply O5.
    intros Hin. apply elem_of_cons in Hin as [->|Hin]; [done|]. by apply (Dhh l). }
  destruct (same_core_Some _ _ _ _ C5 Hs4) as (s5 & Hs5 & Cs5).
  destruct (reinsert_spec SellHeap σ5 hs s _ S5 Hshs Hs5)
    as (σ6 & hs6 & HR6 & S6 & P6 & C6 & O6).
  rewrite HR6. simpl.
  rewrite (core_Amount _ _ Cs5) in P6. simpl in P5, P6.
  rewrite (core_Amount _ _ Cb2) in P5. rewrite (core_Amount _ _ Cs2) in P6.
  assert (Sub5 : hb5 ⊆+ b :: hb).
  { rewrite P5. destruct (0 <? wrap64 (Amount ob - q)); [done|by constructor]. }
  assert (Sub6 : hs6 ⊆+ s :: hs).
  { rewrite P6. destruct (0 <? wrap64 (Amount os - q)); [done|by constructor]. }
  assert (B6 : book_ok BuyHeap σ6 hb5).
  { eapply book_ok_ext; [|exact B5]. intros l Hl. apply O6.
    pose proof (elem_of_submseteq _ _ _ Hl Sub5) as Hl'.
    intros Hin. apply elem_of_cons in Hin as [->|Hin].
    - apply elem_of_cons in Hl' as [->|Hl']; done.
    - apply elem_of_cons in Hl' as [->|Hl']; [done|]. by apply (Dhh l). }
  assert (OK6 : engine_ok σ6 (mkEngine hb5 hs6 chan)).
  { apply engine_ok_intro; [| |done|done].
    - eapply submseteq_NoDup; [|exact ND0].
      apply submseteq_app; [done|]. by apply submseteq_app.
    - eapply allocated_same_core; [exact C6|]. eapply allocated_same_core; [exact C5|].
      intros l Hl. rewrite E4; [by apply A2| |].
      + intros ->. apply (Dbs b); [by left|]. apply elem_of_app. by right.
      + intros ->. apply (Dsc s); [by left|done]. }
  assert (O6' : same_outside (buy ++ sell) σ σ6).
  { intros l Hl.
    assert (Hlb : l ∉ b :: hb) by (intros Hin; apply Hl, elem_of_app; left; by rewrite P1).
    assert (Hls : l ∉ s :: hs) by (intros Hin; apply Hl, elem_of_app; right; by rewrite P2).
    rewrite O6 by done. rewrite O5 by done. rewrite E4.
    - by apply O02.
    - intros ->. apply Hlb. by left.
    - intros ->. apply Hls. by left. }
  assert (T : traded σ σ6 b s q).
  { intros l. rewrite (C6 l), (C5 l).
    destruct (decide (l = b)) as [->|Hlb].
    { rewrite Hb4, Hob. simpl. rewrite bool_decide_true by (by left).
      unfold core in *. simpl. congruence. }
    destruct (decide (l = s)) as [->|Hls].
    { rewrite Hs4, Hos. simpl. rewrite bool_decide_true by (by right).
      unfold core in *. simpl. congruence. }
    rewrite E4 by done. rewrite (C02 l).
    destruct (σ !! l) as [o|]; [|done]. simpl.
    rewrite bool_decide_false; [done|]. by intros [|]. }
  destruct ((Len hb5 =? 0)%nat || (Len hs6 =? 0)%nat) eqn:Hend;
    (eexists; split; [done|]; simpl; split; [done|]; split; [done|]; split; [done|];
     exists ob, os, hb, hs; rewrite Hge; simpl; unfold Len in Hend; rewrite Hend;
     repeat split; done).
Qed.

Lemma iteration_spec mf σ me :
  engine_ok σ me →
  ∃ it, iteration mf σ me = Some it ∧
    engine_ok (imem it) (ieng it) ∧
    orderChannel (ieng it) = orderChannel me ∧
    same_outside (BuyOrders me ++ SellOrders me) σ (imem it) ∧
    iter_case mf σ me it.
Proof.
  intros OK. unfold iter_case.
  destruct (BuyOrders me) as [|b buy0] eqn:Eb.
  { exists (mkIter Break [] mf σ me). unfold iteration. rewrite Eb. simpl. done. }
  destruct (SellOrders me) as [|s sell0] eqn:Es.
  - destruct (iteration_no_sell mf σ me b OK) as (it & H & ? & ? & O & R);
      [by rewrite Eb|done|].
    exists it. rewrite Eb, Es in O. rewrite Eb in R. done.
  - destruct (iteration_both mf σ me b s OK) as (it & H & ? & ? & O & ?);
      [by rewrite Eb|by rewrite Es|].
    exists it. rewrite Eb, Es in O. done.
Qed.

(** ** The sweep ends *)

Lemma min_cases a b : min a b = a ∨ min a b = b.
Proof. unfold min. destruct (a <? b); auto. Qed.

Lemma wrap64_in64 z : in64 z → wrap64 z = z.
Proof.
  unfold in64, wrap64. intros H. rewrite Z.mod_small; lia.
Qed.

Lemma wrap64_diag a : wrap64 (a - a) = 0.
Proof. rewrite Z.sub_diag. reflexivity. Qed.

(** An iteration that trades takes an order out of the books: the side
    whose amount is the traded minimum is left with nothing and is not
    put back. *)
Lemma two_books_fewer mf σ me b s it :
  two_books mf σ me b s it → written it ≠ [] →
  (length (BuyOrders (ieng it)) + length (SellOrders (ieng it))
   < length (BuyOrders me) + length (SellOrders me))%nat.
Proof.
  intros (ob & os & hb & hs & Hob & Hos & Pb & Ps & H) Hw.
  destruct (price_ge (Price ob) (Price os)).
  2:{ destruct H as (_ & Hn & _). done. }
  cbv zeta in H. destruct H as (_ & _ & _ & Pb' & Ps' & _).
  rewrite Pb, Ps, Pb', Ps'. simpl.
  destruct (min_cases (Amount ob) (Amount os)) as [E|E]; rewrite E in *.
  - rewrite wrap64_diag. simpl.
    destruct (0 <? wrap64 (Amount os - Amount ob)); simpl; lia.
  - rewrite (wrap64_diag (Amount os)). simpl.
    destruct (0 <? wrap64 (Amount ob - Amount os)); simpl; lia.
Qed.

Lemma iter_case_Continue mf σ me it :
  iter_case mf σ me it → ctl it = Continue →
  written it ≠ [] ∧
  (length (BuyOrders (ieng it)) + length (SellOrders (ieng it))
   < length (BuyOrders me) + length (SellOrders me))%nat.
Proof.
  unfold iter_case. intros H Hc.
  destruct (BuyOrders me) as [|b buy0] eqn:Eb; [by subst it|].
  destruct (SellOrders me) as [|s sell0] eqn:Es.
  { destruct H as (Hb & _). congruence. }
  assert (Hw : written it ≠ []).
  { destruct H as (ob & os & hb & hs & _ & _ & _ & _ & H).
    destruct (price_ge (Price ob) (Price os)).
    - destruct H as (-> & _). done.
    - destruct H as (Hb & _). congruence. }
  split; [done|]. rewrite <- Eb, <- Es. by eapply two_books_fewer.
Qed.

Lemma MatchOrders_loop_ok fuel mf σ me :
  engine_ok σ me →
  (length (BuyOrders me) + length (SellOrders me) < fuel)%nat →
  ∃ out σ' me', MatchOrders_loop fuel mf σ me = Some (out, σ', me') ∧
    engine_ok σ' me' ∧ orderChannel me' = orderChannel me ∧
    same_outside (BuyOrders me ++ SellOrders me) σ σ' ∧
    BuyOrders me' ⊆+ BuyOrders me ∧ SellOrders me' ⊆+ SellOrders me.
Proof.
  revert mf σ me. induction fuel as [|fuel IH]; intros mf σ me OK Hf; [lia|].
  destruct (iteration_spec mf σ me OK) as (it & Hit & OK1 & Ech & O & Hcase).
  simpl. rewrite Hit. simpl.
  assert (Sub : BuyOrders (ieng it) ⊆+ BuyOrders me ∧ SellOrders (ieng it) ⊆+ SellOrders me).
  { unfold iter_case in Hcase.
    destruct (BuyOrders me) as [|b buy0] eqn:Eb.
    { subst it. simpl. by rewrite Eb. }
    destruct (SellOrders me) as [|s sell0] eqn:Es.
    { destruct Hcase as (_ & _ & _ & _ & -> & ->). done. }
    destruct Hcase as (ob & os & hb & hs & _ & _ & Pb & Ps & H).
    rewrite <- Eb, <- Es in *.
    destruct (price_ge (Price ob) (Price os)).
    - cbv zeta in H. destruct H as (_ & _ & _ & -> & -> & _). rewrite Pb, Ps.
      split.
      + destruct (0 <? _); [done|by constructor].
      + destruct (0 <? _); [done|by constructor].
    - destruct H as (_ & _ & _ & _ & -> & ->). done. }
  destruct (ctl it) eqn:Hctl.
  { exists (written it), (imem it), (ieng it). done. }
  destruct (iter_case_Continue _ _ _ _ Hcase Hctl) as [_ Hlt].
  destruct (IH (found it) (imem it) (ieng it) OK1) as (out & σ' & me' & H & OK' & Ech' & O' & Sb & Ss);
    [lia|].
  rewrite H. simpl. exists (written it ++ out), σ', me'.
  split; [done|]. split; [done|]. split; [congruence|].
  destruct Sub as [Sb1 Ss1]. split; [|split; by etrans].
  eapply same_outside_trans; [exact O|].
  eapply same_outside_weaken; [|exact O'].
  intros l Hl. apply elem_of_app in Hl as [Hl|Hl]; apply elem_of_app.
  - left. by eapply elem_of_submseteq.
  - right. by eapply elem_of_submseteq.
Qed.

Lemma MatchOrders_ok σ me :
  engine_ok σ me →
  ∃ out σ' me', MatchOrders σ me = Some (out, σ', me') ∧
    engine_ok σ' me' ∧ orderChannel me' = orderChannel me ∧
    same_outside (BuyOrders me ++ SellOrders me) σ σ' ∧
    BuyOrders me' ⊆+ BuyOrders me ∧ SellOrders me' ⊆+ SellOrders me.
Proof. intros OK. apply MatchOrders_loop_ok; [done|]. unfold Len. lia. Qed.

(** ** Queries *)

Lemma GetHighestBuyOrder_spec σ me :
  engine_ok σ me →
  match BuyOrders me !! 0%nat with
  | None => GetHighestBuyOrder σ me = Some (None, σ)
  | Some root =>
      ∃ o, σ !! root = Some o ∧
        GetHighestBuyOrder σ me = Some (Some (new σ), <[new σ := o]> σ)
  end.
Proof.
  intros (_ & _ & B & _). unfold GetHighestBuyOrder, Len.
  destruct (BuyOrders me) as [|root h] eqn:E; [done|]. simpl.
  destruct (book_ok_allocated _ _ _ B root) as [o Ho]; [by left|].
  exists o. split; [done|]. unfold deref. simpl. by rewrite Ho.
Qed.

Lemma GetHighestSellOrder_spec σ me :
  engine_ok σ me →
  match SellOrders me !! 0%nat with
  | None => GetHighestSellOrder σ me = Some (None, σ)
  | Some root =>
      ∃ o, σ !! root = Some o ∧
        GetHighestSellOrder σ me = Some (Some (new σ), <[new σ := o]> σ)
  end.
Proof.
  intros (_ & _ & _ & S). unfold GetHighestSellOrder, Len.
  destruct (SellOrders me) as [|root h] eqn:E; [done|]. simpl.
  destruct (book_ok_allocated _ _ _ S root) as [o Ho]; [by left|].
  exists o. split; [done|]. unfold deref. simpl. by rewrite Ho.
Qed.

(** ** Runs *)

Lemma start_ok : world_ok start.
Proof.
  unfold world_ok, start. simpl. apply engine_ok_intro.
  - apply NoDup_nil_2.
  - intros l Hl. by apply elem_of_nil in Hl.
  - apply book_ok_nil.
  - apply book_ok_nil.
Qed.

Lemma detached_alloc σ me l o :
  detached σ me l → <[new σ := o]> σ !! l = σ !! l.
Proof.
  intros [[x Hx] _]. apply lookup_insert_ne. intros E. rewrite <- E, new_fresh in Hx. done.
Qed.

(** A step of the engine keeps it in good order and leaves alone the
    orders it does not hold. *)
Lemma act_ok w a :
  world_ok w →
  ∃ w', act w a = Some w' ∧ world_ok w' ∧
    ∀ l, detached (mem w) (engine w) l →
         mem w' !! l = mem w !! l ∧ detached (mem w') (engine w') l.
Proof.
  intros OK. destruct w as [σ me out]. unfold world_ok in *. simpl in *.
  assert (Keep : ∀ σ' me' l, detached σ me l → σ' !! l = σ !! l →
            (∀ x, x ∈ objects me' → x ∈ objects me ∨ x = new σ) →
            σ' !! l = σ !! l ∧ detached σ' me' l).
  { intros σ' me' l [Hs Hn] E Hsub. split; [done|]. split; [by rewrite E|].
    intros Hin. destruct (Hsub l Hin) as [?| ->]; [done|].
    rewrite new_fresh in Hs. by destruct Hs. }
  destruct a as [body| | | |]; simpl.
  - destruct (AddOrderHandler σ me body) as [[st σ'] me'] eqn:H.
    exists (mkWorld σ' me' out). split; [done|]. split; [by eapply AddOrderHandler_ok|].
    simpl. intros l D. unfold AddOrderHandler in H.
    destruct body as [o|]; injection H as <- <- <-.
    + apply Keep; [done|by eapply detached_alloc|].
      intros x Hx. unfold objects, AddOrder in *. simpl in Hx.
      rewrite !app_assoc in Hx. apply elem_of_app in Hx as [Hx|Hx].
      * left. by rewrite !app_assoc.
      * right. by apply list_elem_of_singleton in Hx.
    + apply Keep; [done|by eapply detached_alloc|auto].
  - destruct (receive_ok σ me OK) as (σ' & me' & H & OK' & C & O & P).
    rewrite H. simpl. exists (mkWorld σ' me' out). split; [done|]. split; [done|].
    simpl. intros l D. apply Keep; [done|apply O; by destruct D|].
    intros x Hx. left. unfold objects in *. by rewrite <- P.
  - destruct (MatchOrders_ok σ me OK) as (ev & σ' & me' & H & OK' & Ech & O & Sb & Ss).
    rewrite H. simpl. exists (mkWorld σ' me' (out ++ ev)). split; [done|]. split; [done|].
    simpl. intros l D. apply Keep; [done| |].
    + apply O. destruct D as [_ Hn]. intros Hin. apply Hn. unfold objects.
      rewrite app_assoc. apply elem_of_app. by left.
    + intros x Hx. left. unfold objects in *. rewrite Ech in Hx.
      apply elem_of_app in Hx as [Hx|Hx]; apply elem_of_app.
      * left. by eapply elem_of_submseteq.
      * right. apply elem_of_app in Hx as [Hx|Hx]; apply elem_of_app; [|by right].
        left. by eapply elem_of_submseteq.
  - pose proof (GetHighestBuyOrder_spec σ me OK) as H.
    destruct (BuyOrders me !! 0%nat) as [root|].
    + destruct H as (o & Ho & ->). simpl. eexists. split; [done|]. simpl.
      split; [by apply engine_ok_alloc|]. intros l D.
      apply Keep; [done|by eapply detached_alloc|auto].
    + rewrite H. simpl. eexists. split; [done|]. simpl. split; [done|].
      intros l D. apply Keep; [done|done|auto].
  - pose proof (GetHighestSellOrder_spec σ me OK) as H.
    destruct (SellOrders me !! 0%nat) as [root|].
    + destruct H as (o & Ho & ->). simpl. eexists. split; [done|]. simpl.
      split; [by apply engine_ok_alloc|]. intros l D.
      apply Keep; [done|by eapply detached_alloc|auto].
    + rewrite H. simpl. eexists. split; [done|]. simpl. split; [done|].
      intros l D. apply Keep; [done|done|auto].
Qed.

Lemma run_ok acts w :
  world_ok w →
  ∃ w', run w acts = Some w' ∧ world_ok w' ∧
    ∀ l, detached (mem w) (engine w) l →
         mem w' !! l = mem w !! l ∧ detached (mem w') (engine w') l.
Proof.
  revert w. induction acts as [|a acts IH]; intros w OK.
  { exists w. done. }
  destruct (act_ok w a OK) as (w1 & H1 & OK1 & F1).
  destruct (IH w1 OK1) as (w2 & H2 & OK2 & F2).
  exists w2. simpl. rewrite H1. simpl. split; [done|]. split; [done|].
  intros l D. destruct (F1 l D) as [E1 D1]. destruct (F2 l D1) as [E2 D2].
  split; [congruence|done].
Qed.

Lemma reachable_ok acts w : run start acts = Some w → world_ok w.
Proof.
  intros H. destruct (run_ok acts start start_ok) as (w' & H' & OK & _). congruence.
Qed.

(** ** Heap indices under the heap methods *)

Lemma Push_indexed σ h x σ' h' :
  NoDup h → x ∉ h → indexed σ h → Push σ h x = Some (σ', h') →
  NoDup h' ∧ indexed σ' h'.
Proof.
  intros ND Hx I H. apply Push_inv in H as [H1 ->]. split.
  - apply NoDup_app. split; [done|]. split; [|apply NoDup_singleton].
    intros y Hy Hy'. apply list_elem_of_singleton in Hy' as ->. done.
  - intros i l Hi. apply lookup_app_Some in Hi as [Hi|[Hlen Hi]].
    + rewrite (store_Index_other _ _ _ _ l H1); [by apply I|].
      intros ->. apply Hx. by eapply list_elem_of_lookup_2.
    + apply list_lookup_singleton_Some in Hi as [Hi ->].
      replace i with (length h) by lia. by eapply store_Index_here.
Qed.

Lemma Pop_indexed σ h x σ' h' :
  NoDup h → indexed σ h → Pop σ h = Some (x, σ', h') →
  NoDup h' ∧ indexed σ' h' ∧ Index <$> σ' !! x = Some (-1).
Proof.
  intros ND I H. apply Pop_inv in H as (m & L & Hm & H1 & ->).
  split; [|split].
  - rewrite (list_last_split h m x L Hm) in ND. by apply NoDup_app in ND as (? & _).
  - intros i l Hi. apply lookup_take_Some in Hi as [Hi Hlt].
    rewrite (store_Index_other _ _ _ _ l H1); [by apply I|].
    intros ->. pose proof (NoDup_lookup _ _ _ _ ND Hi Hm). lia.
  - by eapply store_Index_here.
Qed.

Lemma heap_Push_indexed k σ h x σ' h' :
  NoDup h → x ∉ h → indexed σ h → heap.Push k σ h x = Some (σ', h') →
  NoDup h' ∧ indexed σ' h'.
Proof.
  intros ND Hx I H. unfold heap.Push in H.
  destruct (Push σ h x) as [[σ1 h1]|] eqn:HP; [|done]. simpl in H.
  destruct (Push_indexed _ _ _ _ _ ND Hx I HP) as [ND1 I1].
  apply up_loop_swapped in H.
  - apply swapped_spec in H as (P & _ & _ & _ & _ & I'). split; [by rewrite P|by apply I'].
  - apply Push_inv in HP as [_ ->]. unfold Len. rewrite length_app. simpl. lia.
Qed.

Lemma heap_Pop_indexed k σ h x σ' h' :
  NoDup h → indexed σ h → heap.Pop k σ h = Some (x, σ', h') →
  NoDup h' ∧ indexed σ' h' ∧ h !! 0%nat = Some x ∧ Index <$> σ' !! x = Some (-1).
Proof.
  intros ND I H.
  pose proof (heap_Pop_frame _ _ _ _ _ _ H) as (Hx & _ & _ & _ & Hi & _).
  apply heap_Pop_steps in H
    as (σ1 & h1 & σ2 & h2 & HS & HD & SW & Ln & L2 & Hx2 & _ & H3 & ->).
  pose proof (swapped_spec _ _ _ _ _ SW) as (P2 & _ & _ & _ & _ & I2).
  pose proof (Swap_perm _ _ _ _ _ _ HS) as P1.
  assert (ND1 : NoDup h1) by by rewrite P1.
  assert (ND2 : NoDup h2) by by rewrite P2.
  assert (I2' : indexed σ2 h2) by (apply I2; [done|by eapply Swap_indexed]).
  assert (HP : Pop σ2 h2 = Some (x, σ', take (length h - 1) h2)).
  { apply Pop_inv. exists (length h - 1)%nat. split; [lia|done]. }
  destruct (Pop_indexed _ _ _ _ _ ND2 I2' HP) as (? & ? & ?). done.
Qed.

(** ** Amounts stay positive *)

Lemma traded_lookup σ σ' b s q l o :
  traded σ σ' b s q → σ !! l = Some o →
  ∃ o', σ' !! l = Some o' ∧ ID o' = ID o ∧ Type_ o' = Type_ o ∧ Price o' = Price o ∧
    Amount o' = if bool_decide (l = b ∨ l = s) then wrap64 (Amount o - q) else Amount o.
Proof.
  intros T Ho. specialize (T l). rewrite Ho in T. simpl in T.
  destruct (σ' !! l) as [o'|]; [|done]. exists o'. split; [done|].
  simpl in T. injection T as T1 T2 T3 T4. rewrite T1, T2, T3, T4.
  by destruct (bool_decide (l = b ∨ l = s)).
Qed.

Lemma iteration_det mf σ me it :
  engine_ok σ me → iteration mf σ me = Some it →
  engine_ok (imem it) (ieng it) ∧
  orderChannel (ieng it) = orderChannel me ∧
  same_outside (BuyOrders me ++ SellOrders me) σ (imem it) ∧
  iter_case mf σ me it.
Proof.
  intros OK H. destruct (iteration_spec mf σ me OK) as (it' & H' & R).
  rewrite H in H'. by injection H' as <-.
Qed.

Lemma iteration_positive mf σ me it :
  engine_ok σ me → iteration mf σ me = Some it →
  positive_amounts σ (objects me) → positive_amounts (imem it) (objects (ieng it)).
Proof.
  intros OK H Pos. pose proof OK as (ND & _).
  destruct (iteration_det _ _ _ _ OK H) as (OK' & Ech & O & Hcase).
  unfold iter_case in Hcase. unfold objects in *. rewrite Ech.
  destruct (BuyOrders me) as [|b0 buy0] eqn:Eb.
  { subst it. simpl. by rewrite Eb. }
  destruct (SellOrders me) as [|s0 sell0] eqn:Es.
  { destruct Hcase as (_ & _ & _ & C & -> & ->). by eapply positive_amounts_same_core. }
  destruct Hcase as (ob & os & hb & hs & Hob & Hos & Pb & Ps & Hc).
  rewrite <- Eb, <- Es in *.
  destruct (price_ge (Price ob) (Price os)).
  2:{ destruct Hc as (_ & _ & _ & C & -> & ->). by eapply positive_amounts_same_core. }
  cbv zeta in Hc. destruct Hc as (_ & _ & T & -> & -> & _).
  rewrite Pb, Ps in ND, Pos.
  set (q := min (Amount ob) (Amount os)) in *.
  (* the two orders of the trade and the others *)
  assert (Hrest : ∀ l, l ∈ hb ++ hs ++ orderChannel me → l ≠ b0 ∧ l ≠ s0).
  { intros l Hl.
    apply NoDup_app in ND as (NDb & Dbs & ND).
    apply NoDup_cons in NDb as [Hb _].
    apply NoDup_app in ND as (NDs & Dsc & _).
    apply NoDup_cons in NDs as [Hs _].
    apply elem_of_app in Hl as [Hl|Hl].
    - split; [by intros ->|]. intros ->.
      apply (Dbs s0); [by right|]. apply elem_of_app. left. by left.
    - split.
      + intros ->. apply (Dbs b0); [by left|]. apply elem_of_app in Hl as [Hl|Hl];
          apply elem_of_app; [left; by right|by right].
      + intros ->. apply elem_of_app in Hl as [Hl|Hl]; [done|].
        apply (Dsc s0); [by left|done]. }
  assert (Keep : ∀ l, l ∈ hb ++ hs ++ orderChannel me →
            ∃ o, imem it !! l = Some o ∧ 0 < Amount o).
  { intros l Hl. destruct (Hrest l Hl) as [Hlb Hls].
    destruct (Pos l) as (o & Ho & Hpos).
    { apply elem_of_app in Hl as [Hl|Hl]; apply elem_of_app; [left; by right|].
      right. apply elem_of_app in Hl as [Hl|Hl]; apply elem_of_app; [left; by right|by right]. }
    destruct (traded_lookup _ _ _ _ _ _ _ T Ho) as (o' & Ho' & _ & _ & _ & Ha).
    rewrite bool_decide_false in Ha by (by intros [|]).
    exists o'. split; [done|lia]. }
  destruct (traded_lookup _ _ _ _ _ _ _ T Hob) as (ob' & Hob' & _ & _ & _ & Hab).
  rewrite bool_decide_true in Hab by (by left).
  destruct (traded_lookup _ _ _ _ _ _ _ T Hos) as (os' & Hos' & _ & _ & _ & Has).
  rewrite bool_decide_true in Has by (by right).
  intros l Hl.
  destruct (Z.ltb_spec 0 (wrap64 (Amount ob - q))) as [Hqb|Hqb];
    destruct (Z.ltb_spec 0 (wrap64 (Amount os - q))) as [Hqs|Hqs];
    repeat (apply elem_of_app in Hl as [Hl|Hl] || apply elem_of_cons in Hl as [->|Hl]);
    try (by (exists ob'; split; [done|lia]));
    try (by (exists os'; split; [done|lia]));
    apply Keep; repeat (apply elem_of_app; (by left) || right); done.
Qed.

Lemma MatchOrders_loop_positive fuel mf σ me out σ' me' :
  engine_ok σ me → positive_amounts σ (objects me) →
  MatchOrders_loop fuel mf σ me = Some (out, σ', me') →
  positive_amounts σ' (objects me').
Proof.
  revert mf σ me out. induction fuel as [|fuel IH]; intros mf σ me out OK Pos H; [done|].
  simpl in H. destruct (iteration mf σ me) as [it|] eqn:Hit; [|done]. simpl in H.
  pose proof (iteration_positive _ _ _ _ OK Hit Pos) as Pos1.
  destruct (iteration_det _ _ _ _ OK Hit) as (OK1 & _).
  destruct (ctl it).
  - by injection H as <- <- <-.
  - destruct (MatchOrders_loop fuel (found it) (imem it) (ieng it))
      as [[[out1 σ1] me1]|] eqn:Hl; [|done].
    simpl in H. injection H as <- <- <-. by eapply IH.
Qed.

Lemma positive_amounts_alloc σ me o :
  engine_ok σ me → positive_amounts σ (objects me) →
  positive_amounts (<[new σ := o]> σ) (objects me).
Proof.
  intros OK. apply positive_amounts_ext. intros l Hl.
  apply lookup_insert_ne. intros E. by apply (engine_ok_new σ me OK l).
Qed.

Lemma act_positive w a w' :
  world_ok w → positive_amounts (mem w) (objects (engine w)) → posted_positive a →
  act w a = Some w' → positive_amounts (mem w') (objects (engine w')).
Proof.
  intros OK Pos Ha H. destruct w as [σ me out]. unfold world_ok in OK. simpl in *.
  destruct a as [body| | | |]; simpl in H.
  - unfold AddOrderHandler in H. destruct body as [o|]; injection H as <-; simpl.
    + unfold objects, AddOrder. simpl. rewrite !app_assoc.
      apply positive_amounts_app. split.
      * rewrite <- !app_assoc. by apply positive_amounts_alloc.
      * intros l Hl. apply list_elem_of_singleton in Hl as ->.
        exists o. by rewrite lookup_insert_eq.
    + by apply positive_amounts_alloc.
  - destruct (receive_ok σ me OK) as (σ' & me' & Hr & _ & C & _ & P).
    rewrite Hr in H. injection H as <-. simpl. unfold objects. rewrite P.
    by eapply positive_amounts_same_core.
  - destruct (MatchOrders σ me) as [[[ev σ'] me']|] eqn:HM; [|done].
    injection H as <-. simpl. by eapply MatchOrders_loop_positive.
  - pose proof (GetHighestBuyOrder_spec σ me OK) as Hq.
    destruct (BuyOrders me !! 0%nat) as [root|].
    + destruct Hq as (o & _ & Hq). rewrite Hq in H. injection H as <-. simpl.
      by apply positive_amounts_alloc.
    + rewrite Hq in H. by injection H as <-.
  - pose proof (GetHighestSellOrder_spec σ me OK) as Hq.
    destruct (SellOrders me !! 0%nat) as [root|].
    + destruct Hq as (o & _ & Hq). rewrite Hq in H. injection H as <-. simpl.
      by apply positive_amounts_alloc.
    + rewrite Hq in H. by injection H as <-.
Qed.

Lemma run_positive acts w w' :
  world_ok w → positive_amounts (mem w) (objects (engine w)) →
  Forall posted_positive acts → run w acts = Some w' →
  positive_amounts (mem w') (objects (engine w')).
Proof.
  revert w. induction acts as [|a acts IH]; intros w OK Pos Ha H.
  { simpl in H. by injection H as <-. }
  apply Forall_cons in Ha as [Ha Hacts]. simpl in H.
  destruct (act w a) as [w1|] eqn:H1; [|done]. simpl in H.
  destruct (act_ok w a OK) as (w1' & H1' & OK1 & _).
  assert (w1' = w1) as -> by congruence.
  eapply IH; [done| |done|done]. exact (act_positive w a w1 OK Pos Ha H1).
Qed.

(** ** Amounts under a trade *)

Lemma amount_same_core σ σ' l : same_core σ σ' → amount σ' l = amount σ l.
Proof.
  intros C. specialize (C l). unfold amount.
  destruct (σ !! l) as [o|], (σ' !! l) as [o'|]; try done.
  apply core_Amount. simpl in C. congruence.
Qed.

Lemma ident_same_core σ σ' l : same_core σ σ' → ident σ' l = ident σ l.
Proof.
  intros C. specialize (C l). unfold ident.
  destruct (σ !! l) as [o|], (σ' !! l) as [o'|]; try done.
  apply core_ID. simpl in C. congruence.
Qed.

Lemma traded_ident σ σ' b s q l : traded σ σ' b s q → ident σ' l = ident σ l.
Proof.
  intros T. specialize (T l). unfold ident.
  destruct (σ !! l) as [o|], (σ' !! l) as [o'|]; try done.
  simpl in T. injection T as T1 _. rewrite T1.
  by destruct (bool_decide (l = b ∨ l = s)).
Qed.

Lemma traded_amount_other σ σ' b s q l :
  traded σ σ' b s q → l ≠ b → l ≠ s → amount σ' l = amount σ l.
Proof.
  intros T Hb Hs. specialize (T l). unfold amount.
  rewrite bool_decide_false in T by (by intros [|]).
  destruct (σ !! l) as [o|], (σ' !! l) as [o'|]; try done.
  simpl in T. injection T as _ _ _ T. done.
Qed.

Lemma traded_amount_here σ σ' b s q l o :
  traded σ σ' b s q → l = b ∨ l = s → σ !! l = Some o →
  amount σ' l = wrap64 (Amount o - q).
Proof.
  intros T Hl Ho. destruct (traded_lookup _ _ _ _ _ _ _ T Ho) as (o' & Ho' & _ & _ & _ & Ha).
  rewrite bool_decide_true in Ha by done. unfold amount. by rewrite Ho'.
Qed.

Lemma min_le a b : min a b <= a ∧ min a b <= b.
Proof. unfold min. destruct (Z.ltb_spec a b); lia. Qed.

Lemma iteration_amounts mf σ me it :
  engine_ok σ me → amounts_ok σ (BuyOrders me ++ SellOrders me) →
  iteration mf σ me = Some it →
  (written it = [] ∧ ctl it = Break ∧ same_core σ (imem it) ∧
   BuyOrders (ieng it) ≡ₚ BuyOrders me ∧ SellOrders (ieng it) ≡ₚ SellOrders me) ∨
  (∃ b s q n pb ps,
     written it = [MATCH n (ident σ b) pb (ident σ s) ps q] ∧
     trade_step σ me b s q (imem it) (ieng it)).
Proof.
  intros OK Am H.
  destruct (iteration_det _ _ _ _ OK H) as (_ & _ & _ & Hcase).
  unfold iter_case in Hcase.
  destruct (BuyOrders me) as [|b buy0] eqn:Eb.
  { subst it. simpl. rewrite Eb. left. done. }
  destruct (SellOrders me) as [|s sell0] eqn:Es.
  { destruct Hcase as (? & ? & _ & ? & ? & ->). left. done. }
  destruct Hcase as (ob & os & hb & hs & Hob & Hos & Pb & Ps & Hc).
  rewrite <- Eb, <- Es in *.
  destruct (price_ge (Price ob) (Price os)).
  2:{ destruct Hc as (? & ? & _ & ? & ? & ?). left. done. }
  cbv zeta in Hc. destruct Hc as (Hw & _ & T & Pb' & Ps' & _). right.
  set (q := min (Amount ob) (Amount os)) in *.
  assert (Hab : amount σ b = Amount ob) by (unfold amount; by rewrite Hob).
  assert (Has : amount σ s = Amount os) by (unfold amount; by rewrite Hos).
  assert (Rb : 0 <= Amount ob < 2 ^ 63).
  { rewrite <- Hab. apply Am. apply elem_of_app. left. rewrite Pb. by left. }
  assert (Rs : 0 <= Amount os < 2 ^ 63).
  { rewrite <- Has. apply Am. apply elem_of_app. right. rewrite Ps. by left. }
  pose proof (min_le (Amount ob) (Amount os)) as [Hq1 Hq2]. fold q in Hq1, Hq2.
  assert (Hq0 : 0 <= q).
  { destruct (min_cases (Amount ob) (Amount os)) as [E|E]; fold q in E; lia. }
  assert (Wb : wrap64 (Amount ob - q) = Amount ob - q)
    by (apply wrap64_in64; unfold in64; lia).
  assert (Ws : wrap64 (Amount os - q) = Amount os - q)
    by (apply wrap64_in64; unfold in64; lia).
  exists b, s, q, (S mf), (Price ob), (Price os). split.
  { unfold ident. by rewrite Hob, Hos. }
  exists hb, hs. rewrite Hab, Has. rewrite Wb in Pb'. rewrite Ws in Ps'.
  split; [done|]. split; [done|]. split; [done|]. split; [done|]. split; [done|].
  split; [destruct (min_cases (Amount ob) (Amount os)); auto|].
  split; [rewrite <- Wb; eapply traded_amount_here; eauto|].
  split; [rewrite <- Ws; eapply traded_amount_here; eauto|].
  split; [intros l; by eapply traded_amount_other|].
  split; [intros l; by eapply traded_ident|]. done.
Qed.

#[global] Instance total_proper σ : Proper ((≡ₚ) ==> (=)) (total σ).
Proof.
  intros h h' E. unfold total. induction E as [|x h h' E IH|x y h|h1 h2 h3 E1 IH1 E2 IH2];
    simpl; [done|by rewrite IH|lia|congruence].
Qed.

Lemma total_ext σ σ' h :
  (∀ l, l ∈ h → amount σ' l = amount σ l) → total σ' h = total σ h.
Proof.
  induction h as [|x h IH]; intros E; [done|]. unfold total in *. simpl.
  rewrite E by (by left). rewrite IH; [done|]. intros l Hl. apply E. by right.
Qed.

Lemma total_cons σ x h : total σ (x :: h) = amount σ x + total σ h.
Proof. done. Qed.



(** ** Quantities by identifier *)

Lemma tradedBuy_app out1 out2 id :
  tradedBuy (out1 ++ out2) id = tradedBuy out1 id + tradedBuy out2 id.
Proof.
  induction out1 as [|[n b pb s ps q|????] out1 IH]; simpl; [done| |done].
  rewrite IH. lia.
Qed.

Lemma tradedSell_app out1 out2 id :
  tradedSell (out1 ++ out2) id = tradedSell out1 id + tradedSell out2 id.
Proof.
  induction out1 as [|[n b pb s ps q|????] out1 IH]; simpl; [done| |done].
  rewrite IH. lia.
Qed.

#[global] Instance resting_proper σ : Proper ((≡ₚ) ==> (=) ==> (=)) (resting σ).
Proof.
  intros h h' E id ? <-. unfold resting.
  induction E as [|x h h' E IH|x y h|h1 h2 h3 E1 IH1 E2 IH2];
    simpl; [done|by rewrite IH|lia|congruence].
Qed.

Lemma resting_ext σ σ' h id :
  (∀ l, l ∈ h → ident σ' l = ident σ l ∧ amount σ' l = amount σ l) →
  resting σ' h id = resting σ h id.
Proof.
  unfold resting. induction h as [|x h IH]; intros E; simpl; [done|].
  destruct (E x) as [-> ->]; [by left|]. rewrite IH; [done|].
  intros l Hl. apply E. by right.
Qed.

Lemma same_names_trans σ1 σ2 σ3 :
  same_names σ1 σ2 → same_names σ2 σ3 → same_names σ1 σ3.
Proof.
  intros H1 H2 l. destruct (H1 l) as [<- <-]. apply H2.
Qed.

Lemma same_core_names σ σ' : same_core σ σ' → same_names σ σ'.
Proof.
  intros C l. specialize (C l). unfold ident, kind.
  destruct (σ !! l) as [o|], (σ' !! l) as [o'|]; try done.
  simpl in C. assert (core o' = core o) as E by congruence.
  split; [by apply core_ID|by apply core_Type].
Qed.

Lemma traded_names σ σ' b s q : traded σ σ' b s q → same_names σ σ'.
Proof.
  intros T l. specialize (T l). unfold ident, kind.
  destruct (σ !! l) as [o|], (σ' !! l) as [o'|]; try done.
  simpl in T. injection T as T1 T2 _ _. rewrite T1, T2.
  by destruct (bool_decide (l = b ∨ l = s)).
Qed.

Lemma iteration_names mf σ me it :
  engine_ok σ me → iteration mf σ me = Some it → same_names σ (imem it).
Proof.
  intros OK H. destruct (iteration_det _ _ _ _ OK H) as (_ & _ & _ & Hcase).
  unfold iter_case in Hcase.
  destruct (BuyOrders me) as [|b buy0]; [by subst it|].
  destruct (SellOrders me) as [|s sell0].
  { destruct Hcase as (_ & _ & _ & C & _). by apply same_core_names. }
  destruct Hcase as (ob & os & hb & hs & _ & _ & _ & _ & Hc).
  destruct (price_ge (Price ob) (Price os)).
  - cbv zeta in Hc. destruct Hc as (_ & _ & T & _). by eapply traded_names.
  - destruct Hc as (_ & _ & _ & C & _). by apply same_core_names.
Qed.

Lemma MatchOrders_loop_names fuel mf σ me out σ' me' :
  engine_ok σ me → MatchOrders_loop fuel mf σ me = Some (out, σ', me') →
  same_names σ σ'.
Proof.
  revert mf σ me out. induction fuel as [|fuel IH]; intros mf σ me out OK H; [done|].
  simpl in H. destruct (iteration mf σ me) as [it|] eqn:Hit; [|done]. simpl in H.
  pose proof (iteration_names _ _ _ _ OK Hit) as N1.
  destruct (iteration_det _ _ _ _ OK Hit) as (OK1 & _).
  destruct (ctl it).
  - by injection H as <- <- <-.
  - destruct (MatchOrders_loop fuel (found it) (imem it) (ieng it))
      as [[[out1 σ1] me1]|] eqn:Hl; [|done].
    simpl in H. injection H as <- <- <-.
    eapply same_names_trans; [exact N1|]. by eapply IH.
Qed.

Lemma amount_lookup σ σ' l : σ' !! l = σ !! l → amount σ' l = amount σ l.
Proof. unfold amount. by intros ->. Qed.

Lemma ident_lookup σ σ' l : σ' !! l = σ !! l → ident σ' l = ident σ l.
Proof. unfold ident. by intros ->. Qed.

Lemma kind_lookup σ σ' l : σ' !! l = σ !! l → kind σ' l = kind σ l.
Proof. unfold kind. by intros ->. Qed.


(** Where [receive] puts the order it takes off the channel. *)
Lemma receive_routed σ me σ' me' :
  engine_ok σ me → receive σ me = Some (σ', me') →
  same_core σ σ' ∧ objects me' ≡ₚ objects me ∧
  (∀ l, l ∈ BuyOrders me' → l ∈ BuyOrders me ∨ kind σ' l = Buy) ∧
  (∀ l, l ∈ SellOrders me' → l ∈ SellOrders me ∨ kind σ' l ≠ Buy).
Proof.
  intros OK H. unfold receive in H.
  destruct (orderChannel me) as [|order rest] eqn:Ec.
  { injection H as <- <-. split; [done|]. split; [done|]. split; auto. }
  pose proof OK as (ND & A & B & S). rewrite Ec in ND, A.
  assert (Pm : BuyOrders me ++ SellOrders me ++ order :: rest
               ≡ₚ order :: BuyOrders me ++ SellOrders me ++ rest).
  { rewrite !app_assoc. by rewrite <- Permutation_middle. }
  rewrite Pm in ND. apply NoDup_cons in ND as [Hnew ND'].
  destruct (addOrderInternal_ok σ (set_orderChannel me rest) order)
    as (σ1 & me1 & H1 & _ & C & Ech & _ & o & Ho & R).
  { apply engine_ok_intro; [done| |done|done]. intros l Hl. apply A. by right. }
  { apply A. by left. }
  { done. }
  rewrite H1 in H. injection H as <- <-. simpl in *.
  assert (K : kind σ1 order = Type_ o).
  { destruct (same_core_names _ _ C order) as [_ ->]. unfold kind. by rewrite Ho. }
  split; [done|]. unfold objects. rewrite Ech, Ec.
  destruct (String.eqb (Type_ o) Buy) eqn:Et; destruct R as [P E].
  - apply String.eqb_eq in Et. split; [|split].
    + rewrite E, P. simpl. by rewrite !app_assoc, <- Permutation_middle.
    + intros l Hl. rewrite P in Hl.
      apply elem_of_cons in Hl as [->|Hl]; [right; congruence|by left].
    + intros l Hl. rewrite E in Hl. by left.
  - apply String.eqb_neq in Et. split; [|split].
    + rewrite E, P. rewrite (Permutation_app_comm (BuyOrders me)). simpl.
      rewrite (Permutation_app_comm (BuyOrders me)). by rewrite <- Permutation_middle.
    + intros l Hl. rewrite E in Hl. by left.
    + intros l Hl. rewrite P in Hl.
      apply elem_of_cons in Hl as [->|Hl]; [right; congruence|by left].
Qed.



Lemma posted_cons a acts : posted (a :: acts) = posted [a] ++ posted acts.
Proof. by destruct a as [[o|]| | | |]. Qed.


(** ** What an iteration writes and leaves *)

Lemma iteration_events mf σ me it :
  engine_ok σ me → iteration mf σ me = Some it →
  Forall (λ e, ∃ n b pb s ps q,
            e = MATCH n (ident σ b) pb (ident σ s) ps q ∧
            b ∈ BuyOrders me ∧ s ∈ SellOrders me) (written it) ∧
  BuyOrders (ieng it) ⊆+ BuyOrders me ∧ SellOrders (ieng it) ⊆+ SellOrders me.
Proof.
  intros OK H. destruct (iteration_det _ _ _ _ OK H) as (_ & _ & _ & Hcase).
  unfold iter_case in Hcase.
  destruct (BuyOrders me) as [|b buy0] eqn:Eb.
  { subst it. simpl. by rewrite Eb. }
  destruct (SellOrders me) as [|s sell0] eqn:Es.
  { destruct Hcase as (_ & Hw & _ & _ & Pb' & Ps'). by rewrite Hw, Pb', Ps'. }
  destruct Hcase as (ob & os & hb & hs & Hob & Hos & Pb & Ps & Hc).
  rewrite <- Eb, <- Es.
  destruct (price_ge (Price ob) (Price os)).
  - cbv zeta in Hc. destruct Hc as (Hw & _ & _ & Pb' & Ps' & _).
    rewrite Hw, Pb', Ps', Pb, Ps. split; [|split].
    + apply Forall_singleton.
      exists (S mf), b, (Price ob), s, (Price os), (min (Amount ob) (Amount os)).
      unfold ident. rewrite Hob, Hos. split; [done|].
      split; [rewrite Pb|rewrite Ps]; by left.
    + destruct (0 <? wrap64 (Amount ob - min (Amount ob) (Amount os)));
        [done|by constructor].
    + destruct (0 <? wrap64 (Amount os - min (Amount ob) (Amount os)));
        [done|by constructor].
  - destruct Hc as (_ & Hw & _ & _ & Pb' & Ps'). by rewrite Hw, Pb', Ps'.
Qed.


(** ** The best order of a book *)

Lemma root_best k σ h x : ordered k σ h → h !! 0%nat = Some x → best k σ h x.
Proof.
  intros O Hx l o ox Hl Ho Hox.
  apply list_elem_of_lookup in Hl as [j Hj].
  pose proof (heapF_root k _ _ j O (lookup_lt_Some _ _ _ Hj)) as B.
  unfold priceAt, deref in B. rewrite Hj, Hx in B. simpl in B.
  by rewrite Ho, Hox in B.
Qed.

Lemma best_same_core k σ σ' h x : same_core σ σ' → best k σ h x → best k σ' h x.
Proof.
  intros C B l o ox Hl Ho Hox.
  destruct (same_core_Some_rev _ _ _ _ C Ho) as (o0 & Ho0 & E).
  destruct (same_core_Some_rev _ _ _ _ C Hox) as (ox0 & Hox0 & Ex).
  rewrite (core_Price _ _ E), (core_Price _ _ Ex). by eapply B.
Qed.

Lemma best_perm k σ h h' x : h ≡ₚ h' → best k σ h x → best k σ h' x.
Proof. intros P B l o ox Hl. apply B. by rewrite P. Qed.

(** An order that is [Less] than every order of a book becomes the
    root when it is pushed. *)
Lemma heap_Push_root k σ h x σ' h' :
  book_ok k σ h → x ∉ h → is_Some (σ !! x) → beats k σ x h →
  heap.Push k σ h x = Some (σ', h') → h' !! 0%nat = Some x.
Proof.
  intros B Hx [ox Hox] W H.
  pose proof (heap_Push_book k _ _ _ _ _ B Hx H) as (_ & _ & O').
  destruct (heap_Push_frame k _ _ _ _ _ H) as (P & C & _).
  destruct h' as [|r h'']; [by apply Permutation_nil_cons in P|]. simpl.
  assert (Hr : r ∈ x :: h) by (rewrite <- P; by left).
  apply elem_of_cons in Hr as [->|Hr]; [done|].
  exfalso.
  destruct (indexed_allocated _ _ (proj1 (proj2 B)) r Hr) as [or Hor].
  pose proof (W r or ox Hr Hor Hox) as Wr.
  assert (Bx : best k σ (r :: h'') r).
  { apply (best_same_core k σ' σ); [intros l; symmetry; apply C|].
    by apply root_best. }
  assert (x ∈ r :: h'') as Hin by (rewrite P; by left).
  by rewrite (Bx x ox or Hin Hox Hor) in Wr.
Qed.

(** ** The sweep ends on books that do not cross *)

Lemma price_lt_between a b c d :
  le_price a b → price_lt b c = true → le_price c d → price_lt a d = true.
Proof.
  rewrite !le_price_Qle, !price_lt_Qlt. intros H1 H2 H3.
  eapply Qle_lt_trans; [done|]. by eapply Qlt_le_trans.
Qed.

Lemma uncrossed_quiet σ me σ' me' :
  same_core σ σ' →
  BuyOrders me' ≡ₚ BuyOrders me → SellOrders me' ≡ₚ SellOrders me →
  uncrossed σ me → uncrossed σ' me'.
Proof.
  intros C Pb Ps U b s ob os Hb Hs Hob Hos.
  destruct (same_core_Some_rev _ _ _ _ C Hob) as (ob0 & Hob0 & Eb).
  destruct (same_core_Some_rev _ _ _ _ C Hos) as (os0 & Hos0 & Es).
  rewrite (core_Price _ _ Eb), (core_Price _ _ Es).
  apply (U b s); [by rewrite <- Pb|by rewrite <- Ps|done|done].
Qed.

Lemma uncrossed_no_buy σ me : BuyOrders me = [] → uncrossed σ me.
Proof. intros E b s ob os Hb. rewrite E in Hb. by apply elem_of_nil in Hb. Qed.

Lemma uncrossed_no_sell σ me : SellOrders me = [] → uncrossed σ me.
Proof. intros E b s ob os _ Hs. rewrite E in Hs. by apply elem_of_nil in Hs. Qed.

(** Roots that do not cross: no buy order crosses a sell order. *)
Lemma roots_apart σ me b s ob os :
  engine_ok σ me →
  BuyOrders me !! 0%nat = Some b → SellOrders me !! 0%nat = Some s →
  σ !! b = Some ob → σ !! s = Some os →
  price_ge (Price ob) (Price os) = false → uncrossed σ me.
Proof.
  intros (_ & _ & B & SB) Hb Hs Hob Hos Hge b' s' ob' os' Hb' Hs' Hob' Hos'.
  pose proof (root_best BuyHeap σ _ b (proj2 (proj2 B)) Hb b' ob' ob Hb' Hob' Hob) as L1.
  pose proof (root_best SellHeap σ _ s (proj2 (proj2 SB)) Hs s' os' os Hs' Hos' Hos) as L2.
  apply (better_false_le BuyHeap) in L1. apply (better_false_le SellHeap) in L2.
  apply (price_lt_between _ (Price ob) (Price os)); [done| |done].
  rewrite price_ge_lt in Hge. by apply negb_false_iff in Hge.
Qed.

Lemma iteration_Break_uncrossed mf σ me it :
  engine_ok σ me → iteration mf σ me = Some it → ctl it = Break →
  uncrossed (imem it) (ieng it).
Proof.
  intros OK H Hctl. destruct (iteration_det _ _ _ _ OK H) as (_ & _ & _ & Hcase).
  unfold iter_case in Hcase.
  destruct (BuyOrders me) as [|b buy0] eqn:Eb.
  { subst it. simpl. by apply uncrossed_no_buy. }
  destruct (SellOrders me) as [|s sell0] eqn:Es.
  { destruct Hcase as (_ & _ & _ & _ & _ & Ps'). by apply uncrossed_no_sell. }
  destruct Hcase as (ob & os & hb & hs & Hob & Hos & Pb & Ps & Hc).
  destruct (price_ge (Price ob) (Price os)) eqn:Hge.
  - cbv zeta in Hc. destruct Hc as (_ & _ & _ & _ & _ & Hc). rewrite Hctl in Hc.
    destruct (length (BuyOrders (ieng it)) =? 0)%nat eqn:E1.
    { apply uncrossed_no_buy. apply Nat.eqb_eq in E1. by apply nil_length_inv. }
    destruct (length (SellOrders (ieng it)) =? 0)%nat eqn:E2; [|done].
    apply uncrossed_no_sell. apply Nat.eqb_eq in E2. by apply nil_length_inv.
  - destruct Hc as (_ & _ & _ & C & Pb' & Ps').
    apply (uncrossed_quiet σ me); [done|done|done|].
    apply (roots_apart σ me b s ob os); [done|by rewrite Eb|by rewrite Es|done..].
Qed.

Lemma MatchOrders_loop_uncrossed fuel mf σ me out σ' me' :
  engine_ok σ me → MatchOrders_loop fuel mf σ me = Some (out, σ', me') →
  uncrossed σ' me'.
Proof.
  revert mf σ me out. induction fuel as [|fuel IH]; intros mf σ me out OK H; [done|].
  simpl in H. destruct (iteration mf σ me) as [it|] eqn:Hit; [|done]. simpl in H.
  destruct (iteration_det _ _ _ _ OK Hit) as (OK1 & _).
  destruct (ctl it) eqn:Hctl.
  - injection H as <- <- <-. exact (iteration_Break_uncrossed mf σ me it OK Hit Hctl).
  - destruct (MatchOrders_loop fuel (found it) (imem it) (ieng it))
      as [[[out1 σ1] me1]|] eqn:Hl; [|done].
    simpl in H. injection H as <- <- <-.
    exact (IH (found it) (imem it) (ieng it) out1 OK1 Hl).
Qed.

(** On books that do not cross, an iteration writes nothing and ends
    the loop. *)
Lemma iteration_quiet mf σ me it :
  engine_ok σ me → uncrossed σ me → iteration mf σ me = Some it →
  ctl it = Break ∧ written it = [] ∧ same_core σ (imem it) ∧
  BuyOrders (ieng it) ≡ₚ BuyOrders me ∧ SellOrders (ieng it) ≡ₚ SellOrders me.
Proof.
  intros OK U H. destruct (iteration_det _ _ _ _ OK H) as (_ & _ & _ & Hcase).
  unfold iter_case in Hcase.
  destruct (BuyOrders me) as [|b buy0] eqn:Eb.
  { subst it. simpl. rewrite Eb. done. }
  destruct (SellOrders me) as [|s sell0] eqn:Es.
  { destruct Hcase as (? & ? & _ & ? & ? & ->). done. }
  destruct Hcase as (ob & os & hb & hs & Hob & Hos & Pb & Ps & Hc).
  assert (Hlt : price_lt (Price ob) (Price os) = true).
  { apply (U b s); [rewrite Eb; by left|rewrite Es; by left|done|done]. }
  rewrite price_ge_lt, Hlt in Hc. simpl in Hc. rewrite <- Eb, <- Es.
  destruct Hc as (? & ? & _ & ? & ? & ?). done.
Qed.

Lemma MatchOrders_quiet σ me :
  engine_ok σ me → uncrossed σ me →
  ∃ σ' me', MatchOrders σ me = Some ([], σ', me') ∧
    engine_ok σ' me' ∧ uncrossed σ' me' ∧ same_core σ σ' ∧
    BuyOrders me' ≡ₚ BuyOrders me ∧ SellOrders me' ≡ₚ SellOrders me ∧
    orderChannel me' = orderChannel me.
Proof.
  intros OK U. destruct (iteration_spec 0 σ me OK) as (it & H & OK' & Ec & _ & _).
  destruct (iteration_quiet _ _ _ _ OK U H) as (Hctl & Hw & C & Pb & Ps).
  exists (imem it), (ieng it). unfold MatchOrders. simpl. rewrite H. simpl.
  rewrite Hctl, Hw. split_and!; try done. by eapply uncrossed_quiet.
Qed.

Lemma StartMatching_quiet rounds σ me :
  engine_ok σ me → uncrossed σ me →
  ∃ σ' me', StartMatching rounds σ me = Some ([], σ', me') ∧
    same_core σ σ' ∧
    BuyOrders me' ≡ₚ BuyOrders me ∧ SellOrders me' ≡ₚ SellOrders me ∧
    orderChannel me' = orderChannel me.
Proof.
  revert σ me. induction rounds as [|n IH]; intros σ me OK U.
  { exists σ, me. done. }
  destruct (MatchOrders_quiet σ me OK U) as (σ1 & me1 & H & OK1 & U1 & C1 & Pb1 & Ps1 & Ec1).
  destruct (IH σ1 me1 OK1 U1) as (σ2 & me2 & H2 & C2 & Pb2 & Ps2 & Ec2).
  exists σ2, me2. simpl. rewrite H. simpl. rewrite H2. simpl.
  split_and!; [done|by eapply same_core_trans|by rewrite Pb2|by rewrite Ps2|congruence].
Qed.

(** ** What a sweep writes *)

(** An iteration either writes nothing and ends the loop, the books as
    they were, or writes one trade between the two roots. *)
Lemma iteration_shape mf σ me it :
  engine_ok σ me → iteration mf σ me = Some it →
  (written it = [] ∧ ctl it = Break ∧ same_core σ (imem it) ∧
   BuyOrders (ieng it) ≡ₚ BuyOrders me ∧ SellOrders (ieng it) ≡ₚ SellOrders me) ∨
  (∃ b s ob os hb hs,
     σ !! b = Some ob ∧ σ !! s = Some os ∧
     BuyOrders me !! 0%nat = Some b ∧ SellOrders me !! 0%nat = Some s ∧
     BuyOrders me ≡ₚ b :: hb ∧ SellOrders me ≡ₚ s :: hs ∧
     price_ge (Price ob) (Price os) = true ∧
     written it = [MATCH (S mf) (ID ob) (Price ob) (ID os) (Price os)
                     (min (Amount ob) (Amount os))] ∧
     found it = S mf ∧
     traded σ (imem it) b s (min (Amount ob) (Amount os)) ∧
     BuyOrders (ieng it)
       ≡ₚ (if 0 <? wrap64 (Amount ob - min (Amount ob) (Amount os))
           then b :: hb else hb) ∧
     SellOrders (ieng it)
       ≡ₚ (if 0 <? wrap64 (Amount os - min (Amount ob) (Amount os))
           then s :: hs else hs)).
Proof.
  intros OK H. destruct (iteration_det _ _ _ _ OK H) as (_ & _ & _ & Hcase).
  unfold iter_case in Hcase.
  destruct (BuyOrders me) as [|b buy0] eqn:Eb.
  { subst it. simpl. rewrite Eb. by left. }
  destruct (SellOrders me) as [|s sell0] eqn:Es.
  { destruct Hcase as (? & ? & _ & ? & ? & ->). by left. }
  destruct Hcase as (ob & os & hb & hs & Hob & Hos & Pb & Ps & Hc).
  assert (Rb : (b :: buy0) !! 0%nat = Some b) by done.
  assert (Rs : (s :: sell0) !! 0%nat = Some s) by done.
  rewrite <- Eb in Rb |- *. rewrite <- Es in Rs |- *.
  destruct (price_ge (Price ob) (Price os)) eqn:Hge.
  - cbv zeta in Hc. destruct Hc as (Hw & Hf & T & Pb' & Ps' & _).
    right. exists b, s, ob, os, hb, hs. done.
  - destruct Hc as (? & ? & _ & ? & ? & ?). by left.
Qed.

(** The trades of a sweep are numbered from 1, in the order written. *)
Lemma MatchOrders_loop_numbers fuel mf σ me out σ' me' :
  engine_ok σ me → MatchOrders_loop fuel mf σ me = Some (out, σ', me') →
  number <$> out = seq (S mf) (length out).
Proof.
  revert mf σ me out. induction fuel as [|fuel IH]; intros mf σ me out OK H; [done|].
  simpl in H. destruct (iteration mf σ me) as [it|] eqn:Hit; [|done]. simpl in H.
  destruct (iteration_det _ _ _ _ OK Hit) as (OK1 & _).
  destruct (iteration_shape _ _ _ _ OK Hit) as [(Hw & Hctl & _)|Htr].
  - rewrite Hctl in H. injection H as <- <- <-. by rewrite Hw.
  - destruct Htr as (b & s & ob & os & hb & hs & _ & _ & _ & _ & _ & _ & _ & Hw & Hf & _).
    destruct (ctl it).
    + injection H as <- <- <-. by rewrite Hw.
    + destruct (MatchOrders_loop fuel (found it) (imem it) (ieng it))
        as [[[out1 σ1] me1]|] eqn:Hl; [|done].
      simpl in H. injection H as <- <- <-.
      rewrite Hw. simpl. f_equal. rewrite <- Hf.
      exact (IH (found it) (imem it) (ieng it) out1 OK1 Hl).
Qed.

(** Every line a sweep writes is a trade whose buy price is at least
    its sell price. *)
Lemma MatchOrders_loop_crosses fuel mf σ me out σ' me' :
  engine_ok σ me → MatchOrders_loop fuel mf σ me = Some (out, σ', me') →
  Forall crosses out.
Proof.
  revert mf σ me out. induction fuel as [|fuel IH]; intros mf σ me out OK H; [done|].
  simpl in H. destruct (iteration mf σ me) as [it|] eqn:Hit; [|done]. simpl in H.
  destruct (iteration_det _ _ _ _ OK Hit) as (OK1 & _).
  assert (Hw : Forall crosses (written it)).
  { destruct (iteration_shape _ _ _ _ OK Hit) as [(-> & _)|Htr]; [done|].
    destruct Htr as (b & s & ob & os & hb & hs & _ & _ & _ & _ & _ & _ & Hge & -> & _).
    by apply Forall_singleton. }
  destruct (ctl it).
  - by injection H as <- <- <-.
  - destruct (MatchOrders_loop fuel (found it) (imem it) (ieng it))
      as [[[out1 σ1] me1]|] eqn:Hl; [|done].
    simpl in H. injection H as <- <- <-.
    apply Forall_app. split; [done|].
    exact (IH (found it) (imem it) (ieng it) out1 OK1 Hl).
Qed.

(** With positive amounts in the books, every trade of a sweep is for a
    positive quantity. *)
Lemma MatchOrders_loop_quantities fuel mf σ me out σ' me' :
  engine_ok σ me → positive_amounts σ (objects me) →
  MatchOrders_loop fuel mf σ me = Some (out, σ', me') →
  Forall (λ e, 0 < quantity e) out.
Proof.
  revert mf σ me out. induction fuel as [|fuel IH]; intros mf σ me out OK Pos H; [done|].
  simpl in H. destruct (iteration mf σ me) as [it|] eqn:Hit; [|done]. simpl in H.
  destruct (iteration_det _ _ _ _ OK Hit) as (OK1 & _).
  pose proof (iteration_positive _ _ _ _ OK Hit Pos) as Pos1.
  assert (Hw : Forall (λ e, 0 < quantity e) (written it)).
  { destruct (iteration_shape _ _ _ _ OK Hit) as [(-> & _)|Htr]; [done|].
    destruct Htr as (b & s & ob & os & hb & hs & Hob & Hos & _ & _ & Pb & Ps & _ & -> & _).
    apply Forall_singleton. simpl.
    destruct (Pos b) as (ob' & Hob' & Hpb).
    { unfold objects. apply elem_of_app. left. rewrite Pb. by left. }
    destruct (Pos s) as (os' & Hos' & Hps).
    { unfold objects. apply elem_of_app. right. apply elem_of_app. left.
      rewrite Ps. by left. }
    assert (ob' = ob) as -> by congruence. assert (os' = os) as -> by congruence.
    destruct (min_cases (Amount ob) (Amount os)) as [-> | ->]; done. }
  destruct (ctl it).
  - by injection H as <- <- <-.
  - destruct (MatchOrders_loop fuel (found it) (imem it) (ieng it))
      as [[[out1 σ1] me1]|] eqn:Hl; [|done].
    simpl in H. injection H as <- <- <-.
    apply Forall_app. split; [done|].
    exact (IH (found it) (imem it) (ieng it) out1 OK1 Pos1 Hl).
Qed.

(** Each trade of a sweep takes one or two orders off the books. *)
Lemma MatchOrders_loop_count fuel mf σ me out σ' me' :
  engine_ok σ me → MatchOrders_loop fuel mf σ me = Some (out, σ', me') →
  (length (BuyOrders me') + length (SellOrders me') + length out
   ≤ length (BuyOrders me) + length (SellOrders me))%nat ∧
  (length (BuyOrders me) + length (SellOrders me)
   ≤ length (BuyOrders me') + length (SellOrders me') + 2 * length out)%nat.
Proof.
  revert mf σ me out. induction fuel as [|fuel IH]; intros mf σ me out OK H; [done|].
  simpl in H. destruct (iteration mf σ me) as [it|] eqn:Hit; [|done]. simpl in H.
  destruct (iteration_det _ _ _ _ OK Hit) as (OK1 & _).
  assert (Hw :
    (length (BuyOrders (ieng it)) + length (SellOrders (ieng it)) + length (written it)
     ≤ length (BuyOrders me) + length (SellOrders me))%nat ∧
    (length (BuyOrders me) + length (SellOrders me)
     ≤ length (BuyOrders (ieng it)) + length (SellOrders (ieng it))
       + 2 * length (written it))%nat ∧
    (written it = [] → ctl it = Break)).
  { destruct (iteration_shape _ _ _ _ OK Hit) as [(-> & Hctl & _ & -> & ->)|Htr].
    { simpl. split; [lia|]. split; [lia|done]. }
    destruct Htr as (b & s & ob & os & hb & hs & _ & _ & _ & _ & Pb & Ps & _ & -> & _ & _ & Pb' & Ps').
    rewrite Pb', Ps', Pb, Ps. simpl.
    destruct (min_cases (Amount ob) (Amount os)) as [-> | ->];
      rewrite wrap64_diag; simpl;
      match goal with |- context [if ?c then _ else _] => destruct c end;
      simpl; split; try lia; split; try lia; done. }
  destruct Hw as (L1 & L2 & _).
  destruct (ctl it).
  - by injection H as <- <- <-.
  - destruct (MatchOrders_loop fuel (found it) (imem it) (ieng it))
      as [[[out1 σ1] me1]|] eqn:Hl; [|done].
    simpl in H. injection H as <- <- <-.
    destruct (IH (found it) (imem it) (ieng it) out1 OK1 Hl) as [I1 I2].
    rewrite length_app. lia.
Qed.

(** ** What a sweep changes in memory *)

Lemma MatchOrders_loop_fields fuel mf σ me out σ' me' :
  engine_ok σ me → MatchOrders_loop fuel mf σ me = Some (out, σ', me') →
  ∀ l o, σ !! l = Some o →
    ∃ o', σ' !! l = Some o' ∧ ID o' = ID o ∧ Type_ o' = Type_ o ∧ Price o' = Price o.
Proof.
  revert mf σ me out. induction fuel as [|fuel IH]; intros mf σ me out OK H; [done|].
  simpl in H. destruct (iteration mf σ me) as [it|] eqn:Hit; [|done]. simpl in H.
  destruct (iteration_det _ _ _ _ OK Hit) as (OK1 & _).
  assert (Hw : ∀ l o, σ !! l = Some o →
    ∃ o', imem it !! l = Some o' ∧ ID o' = ID o ∧ Type_ o' = Type_ o ∧ Price o' = Price o).
  { intros l o Ho.
    destruct (iteration_shape _ _ _ _ OK Hit) as [(_ & _ & C & _)|Htr].
    - destruct (same_core_Some _ _ _ _ C Ho) as (o' & Ho' & E). exists o'.
      by rewrite (core_ID _ _ E), (core_Type _ _ E), (core_Price _ _ E).
    - destruct Htr as (b & s & ob & os & hb & hs & _ & _ & _ & _ & _ & _ & _ & _ & _ & T & _).
      destruct (traded_lookup _ _ _ _ _ _ _ T Ho) as (o' & Ho' & ? & ? & ? & _).
      by exists o'. }
  destruct (ctl it).
  - by injection H as <- <- <-.
  - destruct (MatchOrders_loop fuel (found it) (imem it) (ieng it))
      as [[[out1 σ1] me1]|] eqn:Hl; [|done].
    simpl in H. injection H as <- <- <-.
    intros l o Ho. destruct (Hw l o Ho) as (o1 & Ho1 & E1 & E2 & E3).
    destruct (IH (found it) (imem it) (ieng it) out1 OK1 Hl l o1 Ho1)
      as (o' & Ho' & F1 & F2 & F3).
    exists o'. split; [done|]. split; [congruence|]. split; congruence.
Qed.

(** Amounts that are not negative only go down in a sweep, and not
    below zero. *)
Lemma MatchOrders_loop_lowers fuel mf σ me out σ' me' (L : list loc) :
  engine_ok σ me → (∀ l, l ∈ BuyOrders me ++ SellOrders me → l ∈ L) →
  amounts_ok σ L →
  MatchOrders_loop fuel mf σ me = Some (out, σ', me') →
  ∀ l, l ∈ L → 0 <= amount σ' l <= amount σ l.
Proof.
  revert mf σ me out.
  induction fuel as [|fuel IH]; intros mf σ me out OK Sub Am H; [done|].
  simpl in H. destruct (iteration mf σ me) as [it|] eqn:Hit; [|done]. simpl in H.
  destruct (iteration_det _ _ _ _ OK Hit) as (OK1 & _).
  assert (Am' : amounts_ok σ (BuyOrders me ++ SellOrders me)).
  { intros l Hl. apply Am. by apply Sub. }
  assert (Hw : (∀ l, l ∈ L → 0 <= amount (imem it) l <= amount σ l) ∧
               (∀ l, l ∈ BuyOrders (ieng it) ++ SellOrders (ieng it) → l ∈ L)).
  { destruct (iteration_amounts _ _ _ _ OK Am' Hit) as [(_ & _ & C & Pb & Ps)|Htr].
    - split.
      + intros l Hl. rewrite (amount_same_core _ _ _ C). pose proof (Am l Hl). lia.
      + intros l Hl. apply Sub. by rewrite <- Pb, <- Ps.
    - destruct Htr as (b & s & q & n & pb & ps & _ & hb & hs & Pb & Ps & Hq0 & Hqb & Hqs
                       & _ & Hb1 & Hs1 & Ho & _ & Pb1 & Ps1).
      assert (Hb : b ∈ L).
      { apply Sub. apply elem_of_app. left. rewrite Pb. by left. }
      assert (Hs : s ∈ L).
      { apply Sub. apply elem_of_app. right. rewrite Ps. by left. }
      split.
      + intros l Hl. pose proof (Am l Hl).
        destruct (decide (l = b)) as [->|Hlb]; [lia|].
        destruct (decide (l = s)) as [->|Hls]; [lia|].
        rewrite Ho by done. lia.
      + intros l Hl. apply Sub. rewrite Pb, Ps.
        apply elem_of_app in Hl as [Hl|Hl]; apply elem_of_app; [left|right].
        * rewrite Pb1 in Hl. destruct (0 <? amount σ b - q); [done|by right].
        * rewrite Ps1 in Hl. destruct (0 <? amount σ s - q); [done|by right]. }
  destruct Hw as [Hlow Sub1].
  destruct (ctl it).
  - by injection H as <- <- <-.
  - destruct (MatchOrders_loop fuel (found it) (imem it) (ieng it))
      as [[[out1 σ1] me1]|] eqn:Hl; [|done].
    simpl in H. injection H as <- <- <-.
    assert (Am1 : amounts_ok (imem it) L).
    { intros l Hin. pose proof (Hlow l Hin). pose proof (Am l Hin). lia. }
    intros l Hin.
    pose proof (IH (found it) (imem it) (ieng it) out1 OK1 Sub1 Am1 Hl l Hin).
    pose proof (Hlow l Hin). lia.
Qed.

(** ** Invariants of runs *)

(** Only a sweep writes. *)
Lemma act_stdout w a w' :
  act w a = Some w' →
  stdout w' = stdout w ∨
  ∃ out σ' me', a = Sweep ∧ MatchOrders (mem w) (engine w) = Some (out, σ', me') ∧
                w' = mkWorld σ' me' (stdout w ++ out).
Proof.
  intros H. destruct a as [body| | | |]; simpl in H.
  - destruct (AddOrderHandler _ _ _) as [[? ?] ?]. injection H as <-. by left.
  - destruct (receive _ _) as [[? ?]|]; [|done]. injection H as <-. by left.
  - destruct (MatchOrders _ _) as [[[out σ'] me']|] eqn:HM; [|done].
    injection H as <-. right. by exists out, σ', me'.
  - destruct (GetHighestBuyOrder _ _) as [[? ?]|]; [|done]. injection H as <-. by left.
  - destruct (GetHighestSellOrder _ _) as [[? ?]|]; [|done]. injection H as <-. by left.
Qed.

Lemma run_invariant (Inv : World → Prop) (Pa : Action → Prop) :
  (∀ w a w', world_ok w → Inv w → Pa a → act w a = Some w' → Inv w') →
  ∀ acts w w', world_ok w → Inv w → Forall Pa acts → run w acts = Some w' → Inv w'.
Proof.
  intros Step acts. induction acts as [|a acts IH]; intros w w' OK I Ha H.
  { simpl in H. by injection H as <-. }
  apply Forall_cons in Ha as [Ha Hacts]. simpl in H.
  destruct (act w a) as [w1|] eqn:H1; [|done]. simpl in H.
  destruct (act_ok w a OK) as (w1' & H1' & OK1 & _).
  assert (w1' = w1) as -> by congruence.
  apply (IH w1 w' OK1); [|done|done]. exact (Step w a w1 OK I Ha H1).
Qed.

Lemma act_crosses w a w' :
  world_ok w → Forall crosses (stdout w) → act w a = Some w' →
  Forall crosses (stdout w').
Proof.
  intros OK I H. destruct (act_stdout _ _ _ H) as [->|(out & σ' & me' & _ & HM & ->)];
    [done|].
  simpl. apply Forall_app. split; [done|].
  exact (MatchOrders_loop_crosses _ _ _ _ _ _ _ OK HM).
Qed.

Lemma act_quantities w a w' :
  world_ok w → positive_amounts (mem w) (objects (engine w)) →
  Forall (λ e, 0 < quantity e) (stdout w) → act w a = Some w' →
  Forall (λ e, 0 < quantity e) (stdout w').
Proof.
  intros OK Pos I H.
  destruct (act_stdout _ _ _ H) as [->|(out & σ' & me' & _ & HM & ->)]; [done|].
  simpl. apply Forall_app. split; [done|].
  exact (MatchOrders_loop_quantities _ _ _ _ _ _ _ OK Pos HM).
Qed.

Lemma sided_alloc σ me o : engine_ok σ me → sided σ me → sided (<[new σ := o]> σ) me.
Proof.
  intros OK [Sb Ss].
  assert (K : ∀ l, l ∈ BuyOrders me ++ SellOrders me ++ orderChannel me →
              kind (<[new σ := o]> σ) l = kind σ l).
  { intros l Hl. apply kind_lookup. apply lookup_insert_ne.
    intros E. by apply (engine_ok_new _ _ OK l Hl). }
  split; intros l Hl.
  - rewrite K; [by apply Sb|]. apply elem_of_app. by left.
  - rewrite K; [by apply Ss|]. apply elem_of_app. right. apply elem_of_app. by left.
Qed.

Lemma act_sided w a w' :
  world_ok w → sided (mem w) (engine w) → act w a = Some w' →
  sided (mem w') (engine w').
Proof.
  intros OK Sd H. destruct w as [σ me out]. unfold world_ok in OK. simpl in *.
  destruct a as [body| | | |]; simpl in H.
  - unfold AddOrderHandler in H. destruct body as [o|]; injection H as <-; simpl.
    + destruct (sided_alloc σ me o OK Sd) as [Sb Ss]. by split.
    + by apply sided_alloc.
  - destruct (receive σ me) as [[σ' me']|] eqn:Hr; [|done]. injection H as <-. simpl.
    destruct (receive_routed _ _ _ _ OK Hr) as (C & _ & Rb & Rs).
    pose proof (same_core_names _ _ C) as N. destruct Sd as [Sb Ss].
    split; intros l Hl.
    + destruct (Rb l Hl) as [Hin|?]; [|done]. destruct (N l) as [_ ->]. by apply Sb.
    + destruct (Rs l Hl) as [Hin|?]; [|done]. destruct (N l) as [_ ->]. by apply Ss.
  - destruct (MatchOrders σ me) as [[[ev σ'] me']|] eqn:HM; [|done].
    injection H as <-. simpl.
    destruct (MatchOrders_ok σ me OK) as (ev0 & σ0 & me0 & HM0 & _ & _ & _ & Sb0 & Ss0).
    rewrite HM in HM0. injection HM0 as <- <- <-.
    pose proof (MatchOrders_loop_names _ _ _ _ _ _ _ OK HM) as N.
    destruct Sd as [Sb Ss]. split; intros l Hl.
    + destruct (N l) as [_ ->]. apply Sb. by eapply elem_of_submseteq.
    + destruct (N l) as [_ ->]. apply Ss. by eapply elem_of_submseteq.
  - pose proof (GetHighestBuyOrder_spec σ me OK) as Hq.
    destruct (BuyOrders me !! 0%nat) as [root|].
    + destruct Hq as (o & _ & Hq). rewrite Hq in H. injection H as <-. simpl.
      by apply sided_alloc.
    + rewrite Hq in H. by injection H as <-.
  - pose proof (GetHighestSellOrder_spec σ me OK) as Hq.
    destruct (SellOrders me !! 0%nat) as [root|].
    + destruct Hq as (o & _ & Hq). rewrite Hq in H. injection H as <-. simpl.
      by apply sided_alloc.
    + rewrite Hq in H. by injection H as <-.
Qed.

(** ** Price priority *)

Lemma price_same_core σ σ' l : same_core σ σ' → price σ' l = price σ l.
Proof.
  intros C. unfold price. pose proof (C l) as E.
  destruct (σ !! l) as [o|], (σ' !! l) as [o'|]; simpl in E; try done.
  apply core_Price. congruence.
Qed.

Lemma traded_price σ σ' b s q l : traded σ σ' b s q → price σ' l = price σ l.
Proof.
  intros T. unfold price. destruct (σ !! l) as [o|] eqn:Ho.
  - destruct (traded_lookup _ _ _ _ _ _ _ T Ho) as (o' & -> & _ & _ & ? & _). done.
  - pose proof (T l) as E. rewrite Ho in E. simpl in E.
    by destruct (σ' !! l).
Qed.

Lemma iteration_prices mf σ me it :
  engine_ok σ me → iteration mf σ me = Some it →
  ∀ l, price (imem it) l = price σ l.
Proof.
  intros OK H l. destruct (iteration_shape _ _ _ _ OK H) as [(_ & _ & C & _)|Htr].
  - by apply price_same_core.
  - destruct Htr as (b & s & ob & os & hb & hs & _ & _ & _ & _ & _ & _ & _ & _ & _ & T & _).
    by eapply traded_price.
Qed.

Lemma best_le_price σ h r l :
  allocated σ h → best BuyHeap σ h r → r ∈ h → l ∈ h → le_price (price σ l) (price σ r).
Proof.
  intros A B Hr Hl. destruct (A l Hl) as [o Ho]. destruct (A r Hr) as [or Hor].
  unfold price. rewrite Ho, Hor.
  exact (better_false_le BuyHeap _ _ (B l o or Hl Ho Hor)).
Qed.

Lemma best_ge_price σ h r l :
  allocated σ h → best SellHeap σ h r → r ∈ h → l ∈ h → le_price (price σ r) (price σ l).
Proof.
  intros A B Hr Hl. destruct (A l Hl) as [o Ho]. destruct (A r Hr) as [or Hor].
  unfold price. rewrite Ho, Hor.
  exact (better_false_le SellHeap _ _ (B l o or Hl Ho Hor)).
Qed.

(** What an iteration writes is a trade between the two roots. *)
Lemma iteration_between mf σ me it :
  engine_ok σ me → iteration mf σ me = Some it →
  written it = [] ∨
  ∃ b s n q, BuyOrders me !! 0%nat = Some b ∧ SellOrders me !! 0%nat = Some s ∧
    written it = [MATCH n (ident σ b) (price σ b) (ident σ s) (price σ s) q].
Proof.
  intros OK H. destruct (iteration_shape _ _ _ _ OK H) as [(? & _)|Htr]; [by left|].
  destruct Htr as (b & s & ob & os & hb & hs & Hob & Hos & Rb & Rs & _ & _ & _ & Hw & _).
  right. exists b, s, (S mf), (min (Amount ob) (Amount os)).
  unfold ident, price. by rewrite Hob, Hos.
Qed.

Lemma MatchOrders_loop_priority fuel mf σ me out σ' me' :
  engine_ok σ me → MatchOrders_loop fuel mf σ me = Some (out, σ', me') →
  StronglySorted before out ∧ Forall (between σ me) out ∧
  ∀ e, head out = Some e →
    (∀ l, l ∈ BuyOrders me → le_price (price σ l) (buyPrice e)) ∧
    (∀ l, l ∈ SellOrders me → le_price (sellPrice e) (price σ l)).
Proof.
  revert mf σ me out. induction fuel as [|fuel IH]; intros mf σ me out OK H; [done|].
  simpl in H. destruct (iteration mf σ me) as [it|] eqn:Hit; [|done]. simpl in H.
  destruct (iteration_det _ _ _ _ OK Hit) as (OK1 & _).
  pose proof (iteration_prices _ _ _ _ OK Hit) as Pr.
  pose proof (iteration_names _ _ _ _ OK Hit) as Nm.
  destruct (iteration_events _ _ _ _ OK Hit) as (_ & Sb & Ss).
  pose proof OK as (_ & _ & B & SB).
  pose proof (book_ok_allocated _ _ _ B) as Ab.
  pose proof (book_ok_allocated _ _ _ SB) as As.
  destruct (iteration_between _ _ _ _ OK Hit) as [Hw|(b & s & n & q & Rb & Rs & Hw)].
  { destruct (iteration_shape _ _ _ _ OK Hit) as [(_ & Hctl & _)|Htr].
    2:{ destruct Htr as (? & ? & ? & ? & ? & ? & _ & _ & _ & _ & _ & _ & _ & Hw' & _).
        by rewrite Hw in Hw'. }
    rewrite Hctl in H. injection H as <- <- <-. rewrite Hw.
    split; [constructor|]. split; [constructor|]. intros e He. done. }
  assert (Hb : b ∈ BuyOrders me) by (by eapply list_elem_of_lookup_2).
  assert (Hs : s ∈ SellOrders me) by (by eapply list_elem_of_lookup_2).
  pose proof (root_best BuyHeap σ _ b (proj2 (proj2 B)) Rb) as Bb.
  pose proof (root_best SellHeap σ _ s (proj2 (proj2 SB)) Rs) as Bs.
  assert (E0 : between σ me (MATCH n (ident σ b) (price σ b) (ident σ s) (price σ s) q)).
  { by exists n, b, s, q. }
  assert (First : ∀ e, head (written it) = Some e →
            (∀ l, l ∈ BuyOrders me → le_price (price σ l) (buyPrice e)) ∧
            (∀ l, l ∈ SellOrders me → le_price (sellPrice e) (price σ l))).
  { intros e He. rewrite Hw in He. injection He as <-. simpl. split; intros l Hl.
    - by apply best_le_price with (BuyOrders me).
    - by apply best_ge_price with (SellOrders me). }
  destruct (ctl it).
  - injection H as <- <- <-. split; [|split; [|done]].
    + rewrite Hw. repeat constructor.
    + rewrite Hw. by apply Forall_singleton.
  - destruct (MatchOrders_loop fuel (found it) (imem it) (ieng it))
      as [[[out1 σ1] me1]|] eqn:Hl; [|done].
    simpl in H. injection H as <- <- <-.
    destruct (IH (found it) (imem it) (ieng it) out1 OK1 Hl) as (SS & Bt & _).
    assert (Bt' : Forall (between σ me) out1).
    { eapply Forall_impl; [exact Bt|]. simpl.
      intros e (n' & b' & s' & q' & Hb' & Hs' & ->).
      exists n', b', s', q'. rewrite !Pr. destruct (Nm b') as [-> _].
      destruct (Nm s') as [-> _].
      split; [by eapply elem_of_submseteq|]. split; [by eapply elem_of_submseteq|done]. }
    rewrite Hw. simpl. split; [|split].
    + constructor; [done|].
      eapply Forall_impl; [exact Bt'|]. simpl.
      intros e (n' & b' & s' & q' & Hb' & Hs' & ->). split; simpl.
      * by apply best_le_price with (BuyOrders me).
      * by apply best_ge_price with (SellOrders me).
    + by constructor.
    + intros e He. apply First. by rewrite Hw.
Qed.

(** ** The query handlers *)

Lemma GetHighestBuyOrderHandler_spec σ me :
  engine_ok σ me →
  match BuyOrders me !! 0%nat with
  | None =>
      GetHighestBuyOrderHandler σ me
      = Some (ErrorJSON 404 "No hay órdenes de compra disponibles", σ)
  | Some root =>
      ∃ o, σ !! root = Some o ∧ Index o = 0 ∧
        GetHighestBuyOrderHandler σ me = Some (OrderJSON o, <[new σ := o]> σ) ∧
        ∀ l, l ∈ BuyOrders me → le_price (price σ l) (Price o)
  end.
Proof.
  intros OK. pose proof (GetHighestBuyOrder_spec σ me OK) as H.
  unfold GetHighestBuyOrderHandler.
  destruct (BuyOrders me !! 0%nat) as [root|] eqn:R; [|by rewrite H].
  destruct H as (o & Ho & ->). simpl. rewrite lookup_insert_eq. simpl.
  exists o. pose proof OK as (_ & _ & B & _). split; [done|]. split; [|split; [done|]].
  - destruct B as (_ & I & _). pose proof (I _ _ R) as Hi. rewrite Ho in Hi.
    simpl in Hi. by injection Hi.
  - intros l Hl. replace (Price o) with (price σ root) by (unfold price; by rewrite Ho).
    apply best_le_price with (BuyOrders me);
      [by eapply book_ok_allocated|apply root_best; [apply B|done]| |done].
    by eapply list_elem_of_lookup_2.
Qed.

Lemma GetHighestSellOrderHandler_spec σ me :
  engine_ok σ me →
  match SellOrders me !! 0%nat with
  | None =>
      GetHighestSellOrderHandler σ me
      = Some (ErrorJSON 404 "No hay órdenes de venta disponibles", σ)
  | Some root =>
      ∃ o, σ !! root = Some o ∧ Index o = 0 ∧
        GetHighestSellOrderHandler σ me = Some (OrderJSON o, <[new σ := o]> σ) ∧
        ∀ l, l ∈ SellOrders me → le_price (Price o) (price σ l)
  end.
Proof.
  intros OK. pose proof (GetHighestSellOrder_spec σ me OK) as H.
  unfold GetHighestSellOrderHandler.
  destruct (SellOrders me !! 0%nat) as [root|] eqn:R; [|by rewrite H].
  destruct H as (o & Ho & ->). simpl. rewrite lookup_insert_eq. simpl.
  exists o. pose proof OK as (_ & _ & _ & B). split; [done|]. split; [|split; [done|]].
  - destruct B as (_ & I & _). pose proof (I _ _ R) as Hi. rewrite Ho in Hi.
    simpl in Hi. by injection Hi.
  - intros l Hl. replace (Price o) with (price σ root) by (unfold price; by rewrite Ho).
    apply best_ge_price with (SellOrders me);
      [by eapply book_ok_allocated|apply root_best; [apply B|done]| |done].
    by eapply list_elem_of_lookup_2.
Qed.

(** ** The trades are between posted orders *)

Lemma from_fields P σ σ' l :
  (∀ o, σ !! l = Some o →
        ∃ o', σ' !! l = Some o' ∧ ID o' = ID o ∧ Type_ o' = Type_ o ∧ Price o' = Price o) →
  from P σ l → from P σ' l.
Proof.
  intros F (o & o1 & Ho & Ho1 & E1 & E2 & E3).
  destruct (F o1 Ho1) as (o' & Ho' & F1 & F2 & F3).
  exists o, o'. split; [done|]. split; [done|]. split; [congruence|]. split; congruence.
Qed.

Lemma from_same_core P σ σ' l : same_core σ σ' → from P σ l → from P σ' l.
Proof.
  intros C. apply from_fields. intros o Ho.
  destruct (same_core_Some _ _ _ _ C Ho) as (o' & Ho' & E). exists o'.
  by rewrite (core_ID _ _ E), (core_Type _ _ E), (core_Price _ _ E).
Qed.

Lemma from_alloc P σ me x l :
  engine_ok σ me → l ∈ objects me → from P σ l → from P (<[new σ := x]> σ) l.
Proof.
  intros OK Hl. apply from_fields. intros o Ho. exists o.
  rewrite lookup_insert_ne; [done|]. intros E. by apply (engine_ok_new _ _ OK l Hl).
Qed.

Lemma act_from P w a w' :
  world_ok w → (∀ l, l ∈ objects (engine w) → from P (mem w) l) →
  posts_from P a → act w a = Some w' →
  ∀ l, l ∈ objects (engine w') → from P (mem w') l.
Proof.
  intros OK Fr Ha H. destruct w as [σ me out]. unfold world_ok in OK. simpl in *.
  destruct a as [body| | | |]; simpl in H.
  - unfold AddOrderHandler in H. destruct body as [o|]; injection H as <-; simpl.
    + intros l Hl. unfold objects, AddOrder in Hl. simpl in Hl.
      rewrite !app_assoc in Hl. apply elem_of_app in Hl as [Hl|Hl].
      * rewrite <- !app_assoc in Hl. apply (from_alloc P σ me); auto.
      * apply list_elem_of_singleton in Hl as ->. exists o, o.
        by rewrite lookup_insert_eq.
    + intros l Hl. apply (from_alloc P σ me); auto.
  - destruct (receive_ok σ me OK) as (σ' & me' & Hr & _ & C & _ & Pm).
    rewrite Hr in H. injection H as <-. simpl. intros l Hl.
    apply (from_same_core P σ); [done|]. apply Fr. unfold objects in *. by rewrite <- Pm.
  - destruct (MatchOrders σ me) as [[[ev σ'] me']|] eqn:HM; [|done].
    injection H as <-. simpl.
    destruct (MatchOrders_ok σ me OK) as (ev0 & σ0 & me0 & HM0 & _ & Ec & _ & Sb & Ss).
    rewrite HM in HM0. injection HM0 as <- <- <-.
    intros l Hl. apply (from_fields P σ).
    { intros o. exact (MatchOrders_loop_fields _ _ _ _ _ _ _ OK HM l o). }
    apply Fr. unfold objects in *. rewrite Ec in Hl.
    apply elem_of_app in Hl as [Hl|Hl]; apply elem_of_app.
    + left. by eapply elem_of_submseteq.
    + right. apply elem_of_app in Hl as [Hl|Hl]; apply elem_of_app; [|by right].
      left. by eapply elem_of_submseteq.
  - pose proof (GetHighestBuyOrder_spec σ me OK) as Hq.
    destruct (BuyOrders me !! 0%nat) as [root|].
    + destruct Hq as (o & _ & Hq). rewrite Hq in H. injection H as <-. simpl.
      intros l Hl. apply (from_alloc P σ me); auto.
    + rewrite Hq in H. by injection H as <-.
  - pose proof (GetHighestSellOrder_spec σ me OK) as Hq.
    destruct (SellOrders me !! 0%nat) as [root|].
    + destruct Hq as (o & _ & Hq). rewrite Hq in H. injection H as <-. simpl.
      intros l Hl. apply (from_alloc P σ me); auto.
    + rewrite Hq in H. by injection H as <-.
Qed.

Lemma between_posted P σ me e :
  sided σ me → (∀ l, l ∈ objects me → from P σ l) →
  between σ me e → posted_trade P e.
Proof.
  intros [Sb Ss] Fr (n & b & s & q & Hb & Hs & ->).
  destruct (Fr b) as (ob & ob' & Hob & Hb' & B1 & B2 & B3).
  { unfold objects. apply elem_of_app. by left. }
  destruct (Fr s) as (os & os' & Hos & Hs' & S1 & S2 & S3).
  { unfold objects. apply elem_of_app. right. apply elem_of_app. by left. }
  pose proof (Sb b Hb) as Kb. pose proof (Ss s Hs) as Ks.
  unfold kind in Kb, Ks. rewrite Hb' in Kb. rewrite Hs' in Ks.
  exists n, ob, os, q. unfold ident, price. rewrite Hb', Hs'.
  split; [done|]. split; [done|]. split; [congruence|]. split; [congruence|].
  by rewrite B1, B3, S1, S3.
Qed.

Lemma act_posted_trades P w a w' :
  world_ok w → sided (mem w) (engine w) →
  (∀ l, l ∈ objects (engine w) → from P (mem w) l) →
  Forall (posted_trade P) (stdout w) → act w a = Some w' →
  Forall (posted_trade P) (stdout w').
Proof.
  intros OK Sd Fr I H.
  destruct (act_stdout _ _ _ H) as [->|(out & σ' & me' & _ & HM & ->)]; [done|].
  simpl. apply Forall_app. split; [done|].
  destruct (MatchOrders_loop_priority _ _ _ _ _ _ _ OK HM) as (_ & Bt & _).
  eapply Forall_impl; [exact Bt|]. intros e. by apply between_posted.
Qed.

Lemma posts_from_mono P P' a : (∀ o, o ∈ P → o ∈ P') → posts_from P a → posts_from P' a.
Proof. intros Sub. destruct a as [[o|]| | | |]; simpl; auto. Qed.

Lemma posts_from_posted acts : Forall (posts_from (posted acts)) acts.
Proof.
  induction acts as [|a acts IH]; [done|]. rewrite posted_cons. constructor.
  - destruct a as [[o|]| | | |]; simpl; try done. by left.
  - eapply Forall_impl; [exact IH|]. intros a'. apply posts_from_mono.
    intros o Ho. apply elem_of_app. by right.
Qed.

Lemma run_posted_trades acts w :
  run start acts = Some w → Forall (posted_trade (posted acts)) (stdout w).
Proof.
  intros H.
  refine (proj2 (proj2 (run_invariant
    (λ w, sided (mem w) (engine w) ∧
          (∀ l, l ∈ objects (engine w) → from (posted acts) (mem w) l) ∧
          Forall (posted_trade (posted acts)) (stdout w))
    (posts_from (posted acts)) _ acts start w start_ok _ (posts_from_posted acts) H))).
  - intros w0 a w1 OK (Sd & Fr & I) Ha Hact. split; [|split].
    + by eapply act_sided.
    + by eapply act_from.
    + by eapply act_posted_trades.
  - split; [|split; [|done]].
    + split; intros l Hl; by apply elem_of_nil in Hl.
    + intros l Hl. by apply elem_of_nil in Hl.
Qed.

(** ** Orders that leave the books *)




(** ** The volume of a sweep *)

Lemma total_same_core σ σ' h : same_core σ σ' → total σ' h = total σ h.
Proof. intros C. apply total_ext. intros l _. by apply amount_same_core. Qed.

(** A trade of [q] takes [q] out of the total of each book. *)
Lemma trade_step_total σ me b s q σ1 me1 :
  NoDup (BuyOrders me ++ SellOrders me) →
  trade_step σ me b s q σ1 me1 →
  total σ1 (BuyOrders me1) = total σ (BuyOrders me) - q ∧
  total σ1 (SellOrders me1) = total σ (SellOrders me) - q.
Proof.
  intros ND (hb & hs & Pb & Ps & Hq0 & Hqb & Hqs & _ & Hb1 & Hs1 & Ho & _ & Pb1 & Ps1).
  rewrite Pb, Ps in ND. apply NoDup_app in ND as (NDb & Dis & NDs).
  apply NoDup_cons in NDb as [Hbhb _]. apply NoDup_cons in NDs as [Hshs _].
  assert (Hbs : b ∉ s :: hs) by (apply Dis; by left).
  assert (Hsb : s ∉ b :: hb) by (intros Hin; by apply (Dis s Hin); left).
  assert (Tb : total σ1 hb = total σ hb).
  { apply total_ext. intros l Hl. apply Ho.
    - by intros ->.
    - intros ->. apply Hsb. by right. }
  assert (Ts : total σ1 hs = total σ hs).
  { apply total_ext. intros l Hl. apply Ho.
    - intros ->. apply Hbs. by right.
    - by intros ->. }
  rewrite Pb1, Ps1, Pb, Ps, !total_cons. split.
  - destruct (Z.ltb_spec 0 (amount σ b - q)); rewrite ?total_cons; lia.
  - destruct (Z.ltb_spec 0 (amount σ s - q)); rewrite ?total_cons; lia.
Qed.

Lemma MatchOrders_loop_volume fuel mf σ me out σ' me' :
  engine_ok σ me → amounts_ok σ (BuyOrders me ++ SellOrders me) →
  MatchOrders_loop fuel mf σ me = Some (out, σ', me') →
  total σ' (BuyOrders me') = total σ (BuyOrders me) - volume out ∧
  total σ' (SellOrders me') = total σ (SellOrders me) - volume out ∧
  amounts_ok σ' (BuyOrders me' ++ SellOrders me').
Proof.
  revert mf σ me out.
  induction fuel as [|fuel IH]; intros mf σ me out OK Am H; [done|].
  simpl in H. destruct (iteration mf σ me) as [it|] eqn:Hit; [|done]. simpl in H.
  destruct (iteration_det _ _ _ _ OK Hit) as (OK1 & _).
  assert (St : total (imem it) (BuyOrders (ieng it))
               = total σ (BuyOrders me) - volume (written it) ∧
               total (imem it) (SellOrders (ieng it))
               = total σ (SellOrders me) - volume (written it) ∧
               amounts_ok (imem it) (BuyOrders (ieng it) ++ SellOrders (ieng it))).
  { destruct (iteration_amounts _ _ _ _ OK Am Hit) as [(-> & _ & C & Pb & Ps)|Htr].
    { simpl. split; [|split].
      - rewrite Pb, (total_same_core _ _ _ C). lia.
      - rewrite Ps, (total_same_core _ _ _ C). lia.
      - intros l Hl. rewrite (amount_same_core _ _ _ C). apply Am.
        by rewrite <- Pb, <- Ps. }
    destruct Htr as (b & s & q & n & pb & ps & -> & T).
    pose proof OK as (ND & _). rewrite app_assoc in ND. apply NoDup_app in ND as (ND & _).
    destruct (trade_step_total _ _ _ _ _ _ _ ND T) as [-> ->]. simpl.
    split; [lia|]. split; [lia|].
    destruct (iteration_events _ _ _ _ OK Hit) as (_ & Sb & Ss).
    destruct T as (hb & hs & Pb & Ps & Hq0 & Hqb & Hqs & _ & Hb1 & Hs1 & Ho & _).
    intros l Hl.
    assert (Hl' : l ∈ BuyOrders me ++ SellOrders me).
    { apply elem_of_app in Hl as [Hl|Hl]; apply elem_of_app;
        [left|right]; by eapply elem_of_submseteq. }
    pose proof (Am l Hl').
    assert (Ab : 0 <= amount σ b < 2 ^ 63).
    { apply Am. apply elem_of_app. left. rewrite Pb. by left. }
    assert (As : 0 <= amount σ s < 2 ^ 63).
    { apply Am. apply elem_of_app. right. rewrite Ps. by left. }
    destruct (decide (l = b)) as [->|Hlb]; [lia|].
    destruct (decide (l = s)) as [->|Hls]; [lia|].
    rewrite Ho by done. lia. }
  destruct St as (Tb & Ts & Am1).
  destruct (ctl it).
  - by injection H as <- <- <-.
  - destruct (MatchOrders_loop fuel (found it) (imem it) (ieng it))
      as [[[out1 σ1] me1]|] eqn:Hl; [|done].
    simpl in H. injection H as <- <- <-.
    destruct (IH (found it) (imem it) (ieng it) out1 OK1 Am1 Hl) as (Tb' & Ts' & Am').
    assert (V : volume (written it ++ out1) = volume (written it) + volume out1).
    { clear. induction (written it) as [|e l IHl]; [done|].
      destruct e; simpl; lia. }
    rewrite V. split; [lia|]. split; [lia|done].
Qed.


(** ** The turns of the ingestion worker *)

Lemma kind_same_core σ σ' l : same_core σ σ' → kind σ' l = kind σ l.
Proof. intros C. by destruct (same_core_names _ _ C l). Qed.

(** A turn of the worker with an order waiting: the oldest one goes to
    the book of its type. *)
Lemma receive_head σ me x rest :
  engine_ok σ me → orderChannel me = x :: rest →
  ∃ σ' me' o, receive σ me = Some (σ', me') ∧ engine_ok σ' me' ∧
    same_core σ σ' ∧
    same_outside (x :: BuyOrders me ++ SellOrders me) σ σ' ∧
    orderChannel me' = rest ∧ σ !! x = Some o ∧
    if String.eqb (Type_ o) Buy
    then BuyOrders me' ≡ₚ x :: BuyOrders me ∧ SellOrders me' = SellOrders me
    else SellOrders me' ≡ₚ x :: SellOrders me ∧ BuyOrders me' = BuyOrders me.
Proof.
  intros OK Ec. unfold receive. rewrite Ec.
  destruct OK as (ND & A & B & S). rewrite Ec in ND, A.
  assert (Pm : BuyOrders me ++ SellOrders me ++ x :: rest
               ≡ₚ x :: BuyOrders me ++ SellOrders me ++ rest).
  { rewrite !app_assoc. by rewrite <- Permutation_middle. }
  rewrite Pm in ND. apply NoDup_cons in ND as [Hnew ND'].
  destruct (addOrderInternal_ok σ (set_orderChannel me rest) x)
    as (σ' & me' & H & OK' & C & Ech & O & o & Ho & Hr).
  - apply engine_ok_intro; [done| |done|done]. intros l Hl. apply A. by right.
  - apply A. by left.
  - done.
  - exists σ', me', o. simpl in *. done.
Qed.

Lemma receive_idle σ me : orderChannel me = [] → receive σ me = Some (σ, me).
Proof. intros Ec. unfold receive. by rewrite Ec. Qed.

(** The first turns of the worker take the oldest waiting orders, in
    order, each to the book of its type. *)
Lemma processOrders_turns turns σ me :
  engine_ok σ me →
  ∃ σ' me', processOrders turns σ me = Some (σ', me') ∧
    engine_ok σ' me' ∧ same_core σ σ' ∧
    orderChannel me' = drop turns (orderChannel me) ∧
    BuyOrders me'
      ≡ₚ filter (λ l, kind σ l = Buy) (take turns (orderChannel me)) ++ BuyOrders me ∧
    SellOrders me'
      ≡ₚ filter (λ l, kind σ l ≠ Buy) (take turns (orderChannel me)) ++ SellOrders me.
Proof.
  revert σ me. induction turns as [|n IH]; intros σ me OK.
  { exists σ, me. simpl. rewrite drop_0. done. }
  destruct (orderChannel me) as [|x rest] eqn:Ec.
  { simpl. rewrite (receive_idle _ _ Ec). simpl.
    destruct (IH σ me OK) as (σ' & me' & H & OK' & C & Ed & Pb & Ps).
    rewrite Ec in Ed, Pb, Ps. rewrite take_nil in Pb, Ps. rewrite drop_nil in Ed.
    exists σ', me'. done. }
  destruct (receive_head σ me x rest OK Ec)
    as (σ1 & me1 & o & H1 & OK1 & C1 & _ & Ec1 & Ho & R).
  destruct (IH σ1 me1 OK1) as (σ' & me' & H & OK' & C & Ed & Pb & Ps).
  exists σ', me'. simpl. rewrite H1. simpl. split; [done|]. split; [done|].
  split; [by eapply same_core_trans|]. rewrite Ec1 in Ed, Pb, Ps.
  split; [done|].
  assert (Fb : filter (λ l, kind σ1 l = Buy) (take n rest)
               = filter (λ l, kind σ l = Buy) (take n rest)).
  { apply list_filter_iff. intros l. by rewrite (kind_same_core _ _ l C1). }
  assert (Fs : filter (λ l, kind σ1 l ≠ Buy) (take n rest)
               = filter (λ l, kind σ l ≠ Buy) (take n rest)).
  { apply list_filter_iff. intros l. by rewrite (kind_same_core _ _ l C1). }
  rewrite Fb in Pb. rewrite Fs in Ps. rewrite Pb, Ps, !filter_cons.
  assert (K : kind σ x = Type_ o) by (unfold kind; by rewrite Ho).
  destruct (String.eqb_spec (Type_ o) Buy) as [E|E]; destruct R as [R1 R2].
  - rewrite decide_True by congruence. rewrite decide_False by (rewrite K; tauto).
    rewrite R1, R2. split; [|done]. by rewrite <- Permutation_middle.
  - rewrite decide_False by congruence. rewrite decide_True by congruence.
    rewrite R1, R2. split; [done|]. by rewrite <- Permutation_middle.
Qed.

(** The turn that receives an order puts it in the book of its type,
    and in that one only. *)
Lemma receive_routes σ me x rest o :
  engine_ok σ me → orderChannel me = x :: rest → σ !! x = Some o →
  ∃ σ' me', receive σ me = Some (σ', me') ∧ engine_ok σ' me' ∧
    orderChannel me' = rest ∧ core <$> σ' !! x = Some (core o) ∧
    (Type_ o = "BUY"%string → x ∈ BuyOrders me' ∧ x ∉ SellOrders me') ∧
    (Type_ o ≠ "BUY"%string → x ∈ SellOrders me' ∧ x ∉ BuyOrders me').
Proof.
  intros OK Ec Ho.
  destruct (receive_head σ me x rest OK Ec)
    as (σ' & me' & o' & H & OK' & C & _ & Ec' & Ho' & R).
  assert (o' = o) as -> by congruence.
  exists σ', me'. split; [done|]. split; [done|]. split; [done|].
  split; [by rewrite (C x), Ho|].
  destruct OK as (ND & _). rewrite Ec in ND.
  assert (Hb : x ∉ BuyOrders me).
  { intros Hin. apply NoDup_app in ND as (_ & Dis & _). apply (Dis x Hin).
    apply elem_of_app. right. by left. }
  assert (Hs : x ∉ SellOrders me).
  { intros Hin. apply NoDup_app in ND as (_ & _ & ND).
    apply NoDup_app in ND as (_ & Dis & _). apply (Dis x Hin). by left. }
  destruct (String.eqb_spec (Type_ o) Buy) as [E|E]; destruct R as [P Same].
  - split; [|done]. intros _. rewrite P, Same. split; [by left|done].
  - split; [done|]. intros _. rewrite P, Same. split; [by left|done].
Qed.

(** ** Quantities by identifier and side *)

Lemma resting_cons σ x h id :
  resting σ (x :: h) id = (if ident σ x =? id then amount σ x else 0) + resting σ h id.
Proof. reflexivity. Qed.

Lemma waiting_cons σ x h buy id :
  waiting σ (x :: h) buy id
  = (if (ident σ x =? id) && Bool.eqb (is_buy (kind σ x)) buy then amount σ x else 0)
    + waiting σ h buy id.
Proof. reflexivity. Qed.

Lemma waiting_app σ h g buy id :
  waiting σ (h ++ g) buy id = waiting σ h buy id + waiting σ g buy id.
Proof. induction h as [|x h IH]; [done|]. simpl. rewrite IH. lia. Qed.

Lemma waiting_ext σ σ' h buy id :
  (∀ l, l ∈ h → σ' !! l = σ !! l) → waiting σ' h buy id = waiting σ h buy id.
Proof.
  induction h as [|x h IH]; intros E; [done|]. simpl.
  rewrite IH by (intros l Hl; apply E; by right).
  assert (Ex : σ' !! x = σ !! x) by (apply E; by left).
  by rewrite (ident_lookup _ _ _ Ex), (kind_lookup _ _ _ Ex), (amount_lookup _ _ _ Ex).
Qed.

Lemma waiting_same_core σ σ' h buy id :
  same_core σ σ' → waiting σ' h buy id = waiting σ h buy id.
Proof.
  intros C. induction h as [|x h IH]; [done|]. simpl. rewrite IH.
  by rewrite (ident_same_core _ _ _ C), (kind_same_core _ _ _ C), (amount_same_core _ _ _ C).
Qed.

Lemma resting_same_core σ σ' h id : same_core σ σ' → resting σ' h id = resting σ h id.
Proof.
  intros C. apply resting_ext. intros l _.
  by rewrite (ident_same_core _ _ _ C), (amount_same_core _ _ _ C).
Qed.

Lemma resting_lookup σ σ' h id :
  (∀ l, l ∈ h → σ' !! l = σ !! l) → resting σ' h id = resting σ h id.
Proof.
  intros E. apply resting_ext. intros l Hl.
  by rewrite (ident_lookup _ _ _ (E l Hl)), (amount_lookup _ _ _ (E l Hl)).
Qed.

Lemma posted_amount_app P Q buy id :
  posted_amount (P ++ Q) buy id = posted_amount P buy id + posted_amount Q buy id.
Proof. induction P as [|o P IH]; [done|]. simpl. rewrite IH. lia. Qed.

Lemma traded_side_app out1 out2 buy id :
  traded_side (out1 ++ out2) buy id = traded_side out1 buy id + traded_side out2 buy id.
Proof. destruct buy; simpl; [apply tradedBuy_app|apply tradedSell_app]. Qed.

(** A trade of [q] between the roots takes [q] from what is left to the
    identifier of each of them in its book. *)
Lemma trade_step_resting σ me b s q σ1 me1 id :
  NoDup (BuyOrders me ++ SellOrders me) →
  trade_step σ me b s q σ1 me1 →
  resting σ (BuyOrders me) id
  = (if ident σ b =? id then q else 0) + resting σ1 (BuyOrders me1) id ∧
  resting σ (SellOrders me) id
  = (if ident σ s =? id then q else 0) + resting σ1 (SellOrders me1) id.
Proof.
  intros ND (hb & hs & Pb & Ps & Hq0 & Hqb & Hqs & _ & Hb1 & Hs1 & Ho & Hid & Pb1 & Ps1).
  rewrite Pb, Ps in ND. apply NoDup_app in ND as (NDb & Dis & NDs).
  apply NoDup_cons in NDb as [Hbhb _]. apply NoDup_cons in NDs as [Hshs _].
  assert (Hbs : b ∉ s :: hs) by (apply Dis; by left).
  assert (Hsb : s ∉ b :: hb) by (intros Hin; by apply (Dis s Hin); left).
  assert (Rb : resting σ1 hb id = resting σ hb id).
  { apply resting_ext. intros l Hl. split; [apply Hid|]. apply Ho.
    - by intros ->.
    - intros ->. apply Hsb. by right. }
  assert (Rs : resting σ1 hs id = resting σ hs id).
  { apply resting_ext. intros l Hl. split; [apply Hid|]. apply Ho.
    - intros ->. apply Hbs. by right.
    - by intros ->. }
  rewrite Pb1, Ps1, Pb, Ps, !resting_cons. split.
  - destruct (Z.ltb_spec 0 (amount σ b - q)); rewrite ?resting_cons, ?Hid, ?Rb, ?Hb1;
      destruct (ident σ b =? id); lia.
  - destruct (Z.ltb_spec 0 (amount σ s - q)); rewrite ?resting_cons, ?Hid, ?Rs, ?Hs1;
      destruct (ident σ s =? id); lia.
Qed.

Lemma trade_step_amounts_ok σ me b s q σ1 me1 :
  amounts_ok σ (BuyOrders me ++ SellOrders me) →
  trade_step σ me b s q σ1 me1 →
  amounts_ok σ1 (BuyOrders me1 ++ SellOrders me1).
Proof.
  intros Am (hb & hs & Pb & Ps & Hq0 & Hqb & Hqs & _ & Hb1 & Hs1 & Ho & _ & Pb1 & Ps1).
  assert (Ab : 0 <= amount σ b < 2 ^ 63).
  { apply Am. apply elem_of_app. left. rewrite Pb. by left. }
  assert (As : 0 <= amount σ s < 2 ^ 63).
  { apply Am. apply elem_of_app. right. rewrite Ps. by left. }
  intros l Hl.
  destruct (decide (l = b)) as [->|Hlb]; [lia|].
  destruct (decide (l = s)) as [->|Hls]; [lia|].
  rewrite Ho by done. apply Am. rewrite Pb, Ps.
  apply elem_of_app in Hl as [Hl|Hl]; apply elem_of_app; [left|right].
  - rewrite Pb1 in Hl. destruct (0 <? amount σ b - q); [done|by right].
  - rewrite Ps1 in Hl. destruct (0 <? amount σ s - q); [done|by right].
Qed.

(** Over a sweep, what is left to an identifier in a book goes down by
    what the trades give it on that side. *)
Lemma MatchOrders_loop_resting fuel mf σ me out σ' me' :
  engine_ok σ me → amounts_ok σ (BuyOrders me ++ SellOrders me) →
  MatchOrders_loop fuel mf σ me = Some (out, σ', me') →
  ∀ id,
    resting σ (BuyOrders me) id = tradedBuy out id + resting σ' (BuyOrders me') id ∧
    resting σ (SellOrders me) id = tradedSell out id + resting σ' (SellOrders me') id.
Proof.
  revert mf σ me out.
  induction fuel as [|fuel IH]; intros mf σ me out OK Am H id; [done|].
  simpl in H. destruct (iteration mf σ me) as [it|] eqn:Hit; [|done]. simpl in H.
  destruct (iteration_det _ _ _ _ OK Hit) as (OK1 & _).
  assert (St :
    resting σ (BuyOrders me) id
    = tradedBuy (written it) id + resting (imem it) (BuyOrders (ieng it)) id ∧
    resting σ (SellOrders me) id
    = tradedSell (written it) id + resting (imem it) (SellOrders (ieng it)) id ∧
    amounts_ok (imem it) (BuyOrders (ieng it) ++ SellOrders (ieng it))).
  { destruct (iteration_amounts _ _ _ _ OK Am Hit) as [(-> & _ & C & Pb & Ps)|Htr].
    { simpl. split; [|split].
      - by rewrite Pb, (resting_same_core _ _ _ _ C).
      - by rewrite Ps, (resting_same_core _ _ _ _ C).
      - intros l Hl. rewrite (amount_same_core _ _ _ C). apply Am.
        by rewrite <- Pb, <- Ps. }
    destruct Htr as (b & s & q & n & pb & ps & -> & T).
    pose proof OK as (ND & _). rewrite app_assoc in ND. apply NoDup_app in ND as (ND & _).
    destruct (trade_step_resting _ _ _ _ _ _ _ id ND T) as [-> ->]. simpl.
    split; [lia|]. split; [lia|]. by eapply trade_step_amounts_ok. }
  destruct St as (Rb & Rs & Am1).
  destruct (ctl it).
  - by injection H as <- <- <-.
  - destruct (MatchOrders_loop fuel (found it) (imem it) (ieng it))
      as [[[out1 σ1] me1]|] eqn:Hl; [|done].
    simpl in H. injection H as <- <- <-.
    destruct (IH (found it) (imem it) (ieng it) out1 OK1 Am1 Hl id) as [Rb' Rs'].
    rewrite tradedBuy_app, tradedSell_app. lia.
Qed.

(** ** Accounting over runs *)

Lemma alloc_lookup σ me x l :
  engine_ok σ me → l ∈ objects me → <[new σ := x]> σ !! l = σ !! l.
Proof.
  intros OK Hl. apply lookup_insert_ne. intros E.
  by apply (engine_ok_new _ _ OK l Hl).
Qed.

Lemma objects_buy me l : l ∈ BuyOrders me → l ∈ objects me.
Proof. intros Hl. unfold objects. apply elem_of_app. by left. Qed.

Lemma objects_sell me l : l ∈ SellOrders me → l ∈ objects me.
Proof. intros Hl. unfold objects. apply elem_of_app. right. apply elem_of_app. by left. Qed.

Lemma objects_chan me l : l ∈ orderChannel me → l ∈ objects me.
Proof. intros Hl. unfold objects. apply elem_of_app. right. apply elem_of_app. by right. Qed.

Lemma objects_book me buy l : l ∈ book me buy → l ∈ objects me.
Proof. destruct buy; [apply objects_buy|apply objects_sell]. Qed.

Lemma accounted_alloc P σ me out x :
  engine_ok σ me → accounted P (mkWorld σ me out) →
  accounted P (mkWorld (<[new σ := x]> σ) me out).
Proof.
  intros OK Ac buy id. rewrite (Ac buy id). simpl.
  rewrite (resting_lookup σ (<[new σ := x]> σ)), (waiting_ext σ (<[new σ := x]> σ));
    [done| |].
  - intros l Hl. apply (alloc_lookup σ me); [done|]. by apply objects_chan.
  - intros l Hl. apply (alloc_lookup σ me); [done|]. by eapply objects_book.
Qed.

Lemma amounts_ok_alloc σ me x :
  engine_ok σ me → amounts_ok σ (objects me) → amounts_ok (<[new σ := x]> σ) (objects me).
Proof.
  intros OK Am l Hl. rewrite (amount_lookup σ); [by apply Am|].
  by apply (alloc_lookup σ me).
Qed.

Lemma accounted_post P σ me out o :
  engine_ok σ me → accounted P (mkWorld σ me out) →
  accounted (P ++ [o]) (mkWorld (<[new σ := o]> σ) (AddOrder me (new σ)) out).
Proof.
  intros OK Ac buy id. rewrite posted_amount_app, (Ac buy id). simpl.
  rewrite waiting_app. simpl.
  assert (Eb : book (AddOrder me (new σ)) buy = book me buy) by (by destruct buy).
  rewrite Eb.
  rewrite (resting_lookup σ (<[new σ := o]> σ)), (waiting_ext σ (<[new σ := o]> σ)).
  - unfold ident, kind, amount, same_class. rewrite lookup_insert_eq. lia.
  - intros l Hl. apply (alloc_lookup σ me); [done|]. by apply objects_chan.
  - intros l Hl. apply (alloc_lookup σ me); [done|]. by eapply objects_book.
Qed.

Lemma accounted_receive P σ me out σ' me' :
  engine_ok σ me → receive σ me = Some (σ', me') →
  accounted P (mkWorld σ me out) → accounted P (mkWorld σ' me' out).
Proof.
  intros OK H Ac buy id. rewrite (Ac buy id). simpl.
  destruct (orderChannel me) as [|x rest] eqn:Ec.
  { rewrite (receive_idle _ _ Ec) in H. injection H as <- <-. by rewrite Ec. }
  destruct (receive_head σ me x rest OK Ec)
    as (σ1 & me1 & o & H1 & _ & C & _ & Ec1 & Ho & R).
  rewrite H1 in H. injection H as <- <-.
  rewrite Ec1, waiting_cons, (waiting_same_core _ _ _ _ _ C).
  assert (Ei : ident σ x = ID o) by (unfold ident; by rewrite Ho).
  assert (Ek : kind σ x = Type_ o) by (unfold kind; by rewrite Ho).
  rewrite Ek. unfold is_buy at 1.
  destruct (String.eqb (Type_ o) Buy); destruct R as [Pm Same]; destruct buy; simpl.
  - rewrite Pm, resting_cons, !(resting_same_core _ _ _ _ C).
    rewrite (ident_same_core _ _ _ C), (amount_same_core _ _ _ C), andb_true_r. lia.
  - rewrite Same, !(resting_same_core _ _ _ _ C). rewrite andb_false_r. lia.
  - rewrite Same, !(resting_same_core _ _ _ _ C). rewrite andb_false_r. lia.
  - rewrite Pm, resting_cons, !(resting_same_core _ _ _ _ C).
    rewrite (ident_same_core _ _ _ C), (amount_same_core _ _ _ C), andb_true_r. lia.
Qed.

Lemma accounted_sweep P σ me out0 out σ' me' :
  engine_ok σ me → amounts_ok σ (objects me) →
  MatchOrders σ me = Some (out, σ', me') →
  accounted P (mkWorld σ me out0) → accounted P (mkWorld σ' me' (out0 ++ out)).
Proof.
  intros OK Am H Ac buy id. rewrite (Ac buy id). simpl.
  destruct (MatchOrders_ok σ me OK) as (ev0 & σ0 & me0 & H0 & _ & Ec & O & _).
  rewrite H in H0. injection H0 as <- <- <-.
  assert (Am' : amounts_ok σ (BuyOrders me ++ SellOrders me)).
  { intros l Hl. apply Am. unfold objects. rewrite app_assoc. apply elem_of_app. by left. }
  destruct (MatchOrders_loop_resting _ _ _ _ _ _ _ OK Am' H id) as [Rb Rs].
  rewrite traded_side_app, Ec.
  assert (W : waiting σ' (orderChannel me) buy id = waiting σ (orderChannel me) buy id).
  { apply waiting_ext. intros l Hl. apply O. destruct OK as (ND & _).
    rewrite app_assoc in ND. apply NoDup_app in ND as (_ & Dis & _).
    intros Hin. by apply (Dis l Hin). }
  rewrite W. destruct buy; simpl; lia.
Qed.

Lemma amounts_ok_sweep σ me out σ' me' :
  engine_ok σ me → amounts_ok σ (objects me) →
  MatchOrders σ me = Some (out, σ', me') → amounts_ok σ' (objects me').
Proof.
  intros OK Am H.
  destruct (MatchOrders_ok σ me OK) as (ev0 & σ0 & me0 & H0 & _ & Ec & _ & Sb & Ss).
  rewrite H in H0. injection H0 as <- <- <-.
  assert (Sub : ∀ x, x ∈ BuyOrders me ++ SellOrders me → x ∈ objects me).
  { intros x Hx. unfold objects. rewrite app_assoc. apply elem_of_app. by left. }
  intros l Hl.
  assert (Hl' : l ∈ objects me).
  { unfold objects in *. rewrite Ec in Hl.
    apply elem_of_app in Hl as [Hl|Hl]; apply elem_of_app.
    - left. by eapply elem_of_submseteq.
    - right. apply elem_of_app in Hl as [Hl|Hl]; apply elem_of_app; [|by right].
      left. by eapply elem_of_submseteq. }
  pose proof (Am l Hl').
  assert (0 <= amount σ' l <= amount σ l); [|lia].
  exact (MatchOrders_loop_lowers _ _ _ _ _ _ _ (objects me) OK Sub Am H l Hl').
Qed.

Lemma act_accounted P w a w' :
  world_ok w → amounts_ok (mem w) (objects (engine w)) → accounted P w →
  Forall posted_ok (posted [a]) → act w a = Some w' →
  amounts_ok (mem w') (objects (engine w')) ∧ accounted (P ++ posted [a]) w'.
Proof.
  intros OK Am Ac Hok H. destruct w as [σ me out]. unfold world_ok in OK. simpl in *.
  destruct a as [body| | | |]; simpl in H; simpl posted; rewrite ?app_nil_r.
  - unfold AddOrderHandler in H. destruct body as [o|]; injection H as <-; simpl.
    + split; [|by apply accounted_post].
      simpl in Hok. rewrite Forall_singleton in Hok.
      intros l Hl. unfold objects, AddOrder in Hl. simpl in Hl.
      rewrite !app_assoc in Hl. apply elem_of_app in Hl as [Hl|Hl].
      * rewrite <- !app_assoc in Hl. by apply (amounts_ok_alloc σ me).
      * apply list_elem_of_singleton in Hl as ->. unfold amount.
        by rewrite lookup_insert_eq.
    + rewrite app_nil_r. split; [by apply amounts_ok_alloc|by apply accounted_alloc].
  - destruct (receive_ok σ me OK) as (σ' & me' & Hr & _ & C & _ & Pm).
    rewrite Hr in H. injection H as <-. simpl. split.
    + intros l Hl. rewrite (amount_same_core _ _ _ C). apply Am.
      unfold objects in *. by rewrite <- Pm.
    + by eapply accounted_receive.
  - destruct (MatchOrders σ me) as [[[ev σ'] me']|] eqn:HM; [|done].
    injection H as <-. simpl. split.
    + by eapply amounts_ok_sweep.
    + by eapply accounted_sweep.
  - pose proof (GetHighestBuyOrder_spec σ me OK) as Hq.
    destruct (BuyOrders me !! 0%nat) as [root|].
    + destruct Hq as (o & _ & Hq). rewrite Hq in H. injection H as <-. simpl.
      split; [by apply amounts_ok_alloc|by apply accounted_alloc].
    + rewrite Hq in H. by injection H as <-.
  - pose proof (GetHighestSellOrder_spec σ me OK) as Hq.
    destruct (SellOrders me !! 0%nat) as [root|].
    + destruct Hq as (o & _ & Hq). rewrite Hq in H. injection H as <-. simpl.
      split; [by apply amounts_ok_alloc|by apply accounted_alloc].
    + rewrite Hq in H. by injection H as <-.
Qed.

Lemma run_accounted acts P w w' :
  world_ok w → amounts_ok (mem w) (objects (engine w)) → accounted P w →
  Forall posted_ok (posted acts) → run w acts = Some w' →
  accounted (P ++ posted acts) w'.
Proof.
  revert P w. induction acts as [|a acts IH]; intros P w OK Am Ac Hok H.
  { simpl in H. injection H as <-. simpl. by rewrite app_nil_r. }
  rewrite posted_cons in Hok |- *. apply Forall_app in Hok as [Hok1 Hok2].
  simpl in H. destruct (act w a) as [w1|] eqn:H1; [|done]. simpl in H.
  destruct (act_ok w a OK) as (w1' & H1' & OK1 & _).
  assert (w1' = w1) as -> by congruence.
  destruct (act_accounted P w a w1 OK Am Ac Hok1 H1) as [Am1 Ac1].
  rewrite app_assoc. by apply (IH _ w1).
Qed.

Lemma start_accounted : accounted [] start.
Proof. intros buy id. by destruct buy. Qed.

(** ** Sums over identifiers *)

Lemma sum_ids_add (f g : Z → Z) (ids : list Z) :
  foldr (λ id acc, (f id + g id) + acc) 0 ids
  = foldr (λ id acc, f id + acc) 0 ids + foldr (λ id acc, g id + acc) 0 ids.
Proof. induction ids as [|i ids IH]; [done|]. simpl. rewrite IH. lia. Qed.

Lemma sum_ids_miss (a q : Z) (ids : list Z) :
  a ∉ ids → foldr (λ id acc, (if a =? id then q else 0) + acc) 0 ids = 0.
Proof.
  induction ids as [|i ids IH]; intros Hn; [done|]. simpl.
  apply not_elem_of_cons in Hn as [Hne Hn]. rewrite (IH Hn).
  destruct (Z.eqb_spec a i); [done|lia].
Qed.

Lemma sum_ids_hit (a q : Z) (ids : list Z) :
  NoDup ids → a ∈ ids → foldr (λ id acc, (if a =? id then q else 0) + acc) 0 ids = q.
Proof.
  induction ids as [|i ids IH]; intros ND Hin; [by apply elem_of_nil in Hin|].
  apply NoDup_cons in ND as [Hi ND]. simpl.
  destruct (Z.eqb_spec a i) as [->|Hne].
  - rewrite sum_ids_miss by done. lia.
  - apply elem_of_cons in Hin as [?|Hin]; [done|]. rewrite (IH ND Hin). lia.
Qed.

(** Trades between orders of [P]: over the identifiers of [P], each
    side is given the whole volume. *)
Lemma over_ids_traded P out :
  Forall (posted_trade P) out →
  over_ids P (tradedBuy out) = volume out ∧ over_ids P (tradedSell out) = volume out.
Proof.
  unfold over_ids. induction out as [|e out IH]; intros F.
  { simpl. split; induction (remove_dups (ID <$> P)) as [|i l IHl]; simpl; lia. }
  apply Forall_cons in F as [(n & ob & os & q & Hob & Hos & _ & _ & ->) F].
  destruct (IH F) as [IHb IHs]. simpl.
  assert (ND : NoDup (remove_dups (ID <$> P))) by apply NoDup_remove_dups.
  assert (Ib : ID ob ∈ remove_dups (ID <$> P)).
  { apply elem_of_remove_dups. by apply list_elem_of_fmap_2. }
  assert (Is : ID os ∈ remove_dups (ID <$> P)).
  { apply elem_of_remove_dups. by apply list_elem_of_fmap_2. }
  split.
  - rewrite (sum_ids_add (λ id, if ID ob =? id then q else 0) (tradedBuy out)).
    rewrite IHb, sum_ids_hit; done.
  - rewrite (sum_ids_add (λ id, if ID os =? id then q else 0) (tradedSell out)).
    rewrite IHs, sum_ids_hit; done.
Qed.

(** ** An order alone with its identifier on its side *)

Lemma same_class_self o : same_class (is_buy (Type_ o)) (ID o) o = true.
Proof.
  unfold same_class. rewrite Z.eqb_refl. simpl. by destruct (is_buy (Type_ o)).
Qed.

Lemma posted_count_0 P buy id :
  posted_count P buy id = O → posted_amount P buy id = 0.
Proof.
  induction P as [|x P IH]; [done|]. simpl.
  destruct (same_class buy id x); [done|]. intros E. rewrite (IH E). lia.
Qed.

Lemma posted_count_in P o :
  o ∈ P → (0 < posted_count P (is_buy (Type_ o)) (ID o))%nat.
Proof.
  induction P as [|x P IH]; intros Hin; [by apply elem_of_nil in Hin|]. simpl.
  apply elem_of_cons in Hin as [<-|Hin].
  - rewrite same_class_self. lia.
  - destruct (same_class _ _ x); [lia|by apply IH].
Qed.

Lemma posted_amount_alone P o :
  o ∈ P → posted_count P (is_buy (Type_ o)) (ID o) = 1%nat →
  posted_amount P (is_buy (Type_ o)) (ID o) = Amount o.
Proof.
  induction P as [|x P IH]; intros Hin Hc; [by apply elem_of_nil in Hin|].
  simpl in *. destruct (same_class (is_buy (Type_ o)) (ID o) x) eqn:Ex.
  - injection Hc as Hc. rewrite (posted_count_0 _ _ _ Hc).
    apply elem_of_cons in Hin as [->|Hin]; [lia|].
    pose proof (posted_count_in P o Hin). lia.
  - apply elem_of_cons in Hin as [->|Hin].
    + by rewrite same_class_self in Ex.
    + rewrite (IH Hin Hc). lia.
Qed.

(** * The claims *)

Lemma crossed_run : run start cascade = Some crossed.
Proof. vm_compute. reflexivity. Qed.

Lemma crossed_ok : engine_ok (mem crossed) (engine crossed).
Proof. exact (reachable_ok cascade crossed crossed_run). Qed.

Lemma apart_ok : engine_ok (mem apart) (engine apart).
Proof.
  apply (reachable_ok [PostOrder (Some (order 1 Buy (99 # 1) 5)); Receive;
                       PostOrder (Some (order 2 Sell (101 # 1) 5)); Receive]).
  vm_compute. reflexivity.
Qed.

(** The two roots are popped one after the other. *)
Lemma pop_roots σ me b s :
  engine_ok σ me →
  BuyOrders me !! 0%nat = Some b → SellOrders me !! 0%nat = Some s →
  ∃ σb hb σs hs,
    heap.Pop BuyHeap σ (BuyOrders me) = Some (b, σb, hb) ∧
    heap.Pop SellHeap σb (SellOrders me) = Some (s, σs, hs).
Proof.
  intros (ND & _ & B & SB) Hb Hs.
  destruct (heap_Pop_spec BuyHeap σ _ b B Hb) as (σb & hb & HP1 & _ & _ & _ & O1 & _).
  assert (S1 : book_ok SellHeap σb (SellOrders me)).
  { eapply book_ok_ext; [|exact SB]. intros l Hl. apply O1.
    intros Hin. apply NoDup_app in ND as (_ & D & _). apply (D l Hin).
    apply elem_of_app. by left. }
  destruct (heap_Pop_spec SellHeap σb _ s S1 Hs) as (σs & hs & HP2 & _).
  by exists σb, hb, σs, hs.
Qed.

Lemma partial_ok : engine_ok (mem partial) (engine partial).
Proof.
  apply (reachable_ok [PostOrder (Some (order 1 Buy (100 # 1) 10)); Receive;
                       PostOrder (Some (order 2 Sell (100 # 1) 3)); Receive]).
  vm_compute. reflexivity.
Qed.

Lemma min_Zmin a b : min a b = Z.min a b.
Proof. unfold min. destruct (Z.ltb_spec a b); lia. Qed.

(** C1, as stated, fails on the price: the sweep fixes no trade price.
    What it writes about a trade is the [MATCH] line, which carries the
    price of the buy order and that of the sell order, here 105 and 99;
    the line of [executeTrade], the one that reports the sell order's
    price, is never written, for nothing calls [executeTrade]. *)
Lemma C1_counterexample :
  ∃ out σ' me',
    MatchOrders (mem crossed) (engine crossed) = Some (out, σ', me') ∧
    out = [MATCH 1 1 (105 # 1) 3 (99 # 1) 4; MATCH 2 2 (100 # 1) 3 (99 # 1) 1] ∧
    ∀ buyID sellID amount price, Trade buyID sellID amount price ∉ out.
Proof.
  destruct (MatchOrders (mem crossed) (engine crossed)) as [[[out σ'] me']|] eqn:H;
    [|by vm_compute in H].
  exists out, σ', me'. split; [done|].
  assert (E : out = [MATCH 1 1 (105 # 1) 3 (99 # 1) 4; MATCH 2 2 (100 # 1) 3 (99 # 1) 1]).
  { vm_compute in H. by injection H as <- _ _. }
  split; [done|]. rewrite E. intros b s q p Hin.
  apply elem_of_cons in Hin as [Hin|Hin]; [done|].
  apply elem_of_cons in Hin as [Hin|Hin]; [done|].
  by apply elem_of_nil in Hin.
Qed.

(** C1, amended.  In an iteration of the sweep that popped the best buy
    [b] and the best sell [s] (the roots of the two books): when the
    buy price is at least the sell price, exactly one line is written,
    the [MATCH] line of the two orders with both their prices, for the
    quantity that is the smaller of the two amounts, and both amounts
    are decremented by that quantity (as 64-bit [int]s, which wrap
    around; exactly so for amounts that are not negative).  No trade price is chosen.  When
    the buy price is below the sell price, nothing is written and both
    amounts are as they were. *)
Theorem C1_trade_on_cross mf σ me b s ob os :
  engine_ok σ me →
  BuyOrders me !! 0%nat = Some b → SellOrders me !! 0%nat = Some s →
  σ !! b = Some ob → σ !! s = Some os →
  ∃ σb hb σs hs it,
    heap.Pop BuyHeap σ (BuyOrders me) = Some (b, σb, hb) ∧
    heap.Pop SellHeap σb (SellOrders me) = Some (s, σs, hs) ∧
    iteration mf σ me = Some it ∧
    (Qle (Price os) (Price ob) →
       let q := Z.min (Amount ob) (Amount os) in
       written it = [MATCH (S mf) (ID ob) (Price ob) (ID os) (Price os) q] ∧
       Amount <$> imem it !! b = Some ((Amount ob - q + 2 ^ 63) mod 2 ^ 64 - 2 ^ 63) ∧
       Amount <$> imem it !! s = Some ((Amount os - q + 2 ^ 63) mod 2 ^ 64 - 2 ^ 63) ∧
       (0 <= Amount ob < 2 ^ 63 → 0 <= Amount os < 2 ^ 63 →
          Amount <$> imem it !! b = Some (Amount ob - q) ∧
          Amount <$> imem it !! s = Some (Amount os - q))) ∧
    (Qlt (Price ob) (Price os) →
       written it = [] ∧
       Amount <$> imem it !! b = Some (Amount ob) ∧
       Amount <$> imem it !! s = Some (Amount os)).
Proof.
  intros OK Hb Hs Hob Hos.
  destruct (pop_roots σ me b s OK Hb Hs) as (σb & hb & σs & hs & HP1 & HP2).
  destruct (iteration_both mf σ me b s OK Hb Hs)
    as (it & Hit & _ & _ & _ & ob' & os' & hb' & hs' & Hob' & Hos' & _ & _ & Hc).
  assert (ob' = ob) as -> by congruence. assert (os' = os) as -> by congruence.
  exists σb, hb, σs, hs, it. split; [done|]. split; [done|]. split; [done|].
  split.
  - intros Hge. apply price_ge_Qle in Hge. rewrite Hge in Hc. cbv zeta in *.
    rewrite min_Zmin in Hc.
    destruct Hc as (Hw & _ & T & _). split; [done|].
    destruct (traded_lookup _ _ _ _ _ _ _ T Hob) as (o1 & Ho1 & _ & _ & _ & Ha1).
    destruct (traded_lookup _ _ _ _ _ _ _ T Hos) as (o2 & Ho2 & _ & _ & _ & Ha2).
    rewrite bool_decide_true in Ha1 by (by left).
    rewrite bool_decide_true in Ha2 by (by right).
    rewrite Ho1, Ho2. simpl fmap. rewrite Ha1, Ha2. split; [done|]. split; [done|].
    intros Rb Rs.
    split; f_equal; apply wrap64_in64; unfold in64; lia.
  - intros Hlt. apply price_lt_Qlt in Hlt. rewrite price_ge_lt, Hlt in Hc.
    simpl in Hc. destruct Hc as (_ & Hw & _ & C & _). split; [done|].
    destruct (same_core_Some _ _ _ _ C Hob) as (o1 & -> & E1).
    destruct (same_core_Some _ _ _ _ C Hos) as (o2 & -> & E2).
    simpl. by rewrite (core_Amount _ _ E1), (core_Amount _ _ E2).
Qed.

Lemma C1_witness :
  (∃ σb hb σs hs it,
     heap.Pop BuyHeap (mem partial) (BuyOrders (engine partial))
     = Some (1%positive, σb, hb) ∧
     heap.Pop SellHeap σb (SellOrders (engine partial)) = Some (2%positive, σs, hs) ∧
     iteration 0 (mem partial) (engine partial) = Some it ∧
     written it = [MATCH 1 1 (100 # 1) 2 (100 # 1) 3] ∧
     Amount <$> imem it !! 1%positive = Some 7 ∧
     Amount <$> imem it !! 2%positive = Some 0) ∧
  (∃ σb hb σs hs it,
     heap.Pop BuyHeap (mem apart) (BuyOrders (engine apart))
     = Some (1%positive, σb, hb) ∧
     heap.Pop SellHeap σb (SellOrders (engine apart)) = Some (2%positive, σs, hs) ∧
     iteration 0 (mem apart) (engine apart) = Some it ∧
     written it = [] ∧
     Amount <$> imem it !! 1%positive = Some 5 ∧
     Amount <$> imem it !! 2%positive = Some 5).
Proof.
  split.
  - destruct (C1_trade_on_cross 0 (mem partial) (engine partial) 1%positive 2%positive
                (mkOrder 1 Buy (100 # 1) 10 0) (mkOrder 2 Sell (100 # 1) 3 0)
                partial_ok eq_refl eq_refl eq_refl eq_refl)
      as (σb & hb & σs & hs & it & H1 & H2 & H3 & Hc & _).
    exists σb, hb, σs, hs, it. split; [exact H1|]. split; [exact H2|].
    split; [exact H3|].
    assert (Hq : Qle (100 # 1) (100 # 1)) by (unfold Qle; simpl; lia).
    destruct (Hc Hq) as (Hw & _ & _ & Hex). split; [exact Hw|].
    apply Hex; simpl; lia.
  - destruct (C1_trade_on_cross 0 (mem apart) (engine apart) 1%positive 2%positive
                (mkOrder 1 Buy (99 # 1) 5 0) (mkOrder 2 Sell (101 # 1) 5 0)
                apart_ok eq_refl eq_refl eq_refl eq_refl)
      as (σb & hb & σs & hs & it & H1 & H2 & H3 & _ & Hn).
    exists σb, hb, σs, hs, it. split; [exact H1|]. split; [exact H2|].
    split; [exact H3|].
    apply Hn. unfold Qlt. simpl. lia.
Defined.

(** C2. In an iteration of the sweep that popped a best buy and a best
    sell that do not cross (the buy price is below the sell price),
    each of the two orders goes back onto its own book with its
    identifier, type, price and amount unchanged, the books hold the
    same orders as before, nothing is written and the loop is left: the
    sweep ends there, with no further trade. *)
Theorem C2_no_cross mf σ me b s ob os :
  engine_ok σ me →
  BuyOrders me !! 0%nat = Some b → SellOrders me !! 0%nat = Some s →
  σ !! b = Some ob → σ !! s = Some os →
  price_lt (Price ob) (Price os) = true →
  ∃ it,
    iteration mf σ me = Some it ∧
    ctl it = Break ∧ written it = [] ∧
    b ∈ BuyOrders (ieng it) ∧ s ∈ SellOrders (ieng it) ∧
    core <$> imem it !! b = Some (core ob) ∧
    core <$> imem it !! s = Some (core os) ∧
    BuyOrders (ieng it) ≡ₚ BuyOrders me ∧
    SellOrders (ieng it) ≡ₚ SellOrders me ∧
    same_core σ (imem it) ∧
    ∀ fuel, MatchOrders_loop (S fuel) mf σ me = Some ([], imem it, ieng it).
Proof.
  intros OK Hb Hs Hob Hos Hlt.
  destruct (iteration_both mf σ me b s OK Hb Hs)
    as (it & Hit & _ & _ & _ & ob' & os' & hb' & hs' & Hob' & Hos' & _ & _ & Hc).
  assert (ob' = ob) as -> by congruence. assert (os' = os) as -> by congruence.
  rewrite price_ge_lt, Hlt in Hc. simpl in Hc.
  destruct Hc as (Hctl & Hw & _ & C & Pb & Ps).
  exists it. split; [done|]. split; [done|]. split; [done|].
  split; [rewrite Pb; by eapply list_elem_of_lookup_2|].
  split; [rewrite Ps; by eapply list_elem_of_lookup_2|].
  split; [by rewrite (C b), Hob|]. split; [by rewrite (C s), Hos|].
  split; [done|]. split; [done|]. split; [done|].
  intros fuel. simpl. rewrite Hit. simpl. by rewrite Hctl, Hw.
Qed.

Lemma C2_witness :
  ∃ it,
    iteration 0 (mem apart) (engine apart) = Some it ∧
    ctl it = Break ∧ written it = [] ∧
    1%positive ∈ BuyOrders (ieng it) ∧ 2%positive ∈ SellOrders (ieng it) ∧
    core <$> imem it !! 1%positive = Some (core (order 1 Buy (99 # 1) 5)) ∧
    core <$> imem it !! 2%positive = Some (core (order 2 Sell (101 # 1) 5)) ∧
    BuyOrders (ieng it) ≡ₚ BuyOrders (engine apart) ∧
    SellOrders (ieng it) ≡ₚ SellOrders (engine apart) ∧
    same_core (mem apart) (imem it) ∧
    ∀ fuel, MatchOrders_loop (S fuel) 0 (mem apart) (engine apart)
            = Some ([], imem it, ieng it).
Proof.
  exact (C2_no_cross 0 (mem apart) (engine apart) 1%positive 2%positive
           (order 1 Buy (99 # 1) 5) (order 2 Sell (101 # 1) 5)
           apart_ok eq_refl eq_refl eq_refl eq_refl eq_refl).
Defined.

(** C9. From any state of the two books in good order, and so from any
    in which all amounts are positive, the sweep returns.  Every
    iteration that writes a trade leaves fewer orders in the books: the
    order whose amount was the traded minimum is not put back.  Every
    iteration that writes none leaves the loop. *)
Theorem C9_sweep_terminates σ me :
  engine_ok σ me →
  (∃ out σ' me', MatchOrders σ me = Some (out, σ', me')) ∧
  ∀ mf, ∃ it,
    iteration mf σ me = Some it ∧
    (written it = [] → ctl it = Break) ∧
    (written it ≠ [] →
       (length (BuyOrders (ieng it)) + length (SellOrders (ieng it))
        < length (BuyOrders me) + length (SellOrders me))%nat ∧
       ∀ b s ob os,
         BuyOrders me !! 0%nat = Some b → SellOrders me !! 0%nat = Some s →
         σ !! b = Some ob → σ !! s = Some os →
         (Amount ob = min (Amount ob) (Amount os) → b ∉ BuyOrders (ieng it)) ∧
         (Amount os = min (Amount ob) (Amount os) → s ∉ SellOrders (ieng it))).
Proof.
  intros OK. split.
  { destruct (MatchOrders_ok σ me OK) as (out & σ' & me' & H & _). eauto. }
  intros mf. destruct (iteration_spec mf σ me OK) as (it & Hit & _ & _ & _ & Hcase).
  exists it. split; [done|]. unfold iter_case in Hcase.
  destruct (BuyOrders me) as [|b0 buy0] eqn:Eb.
  { subst it. simpl. done. }
  destruct (SellOrders me) as [|s0 sell0] eqn:Es.
  { destruct Hcase as (? & Hw & _). by rewrite Hw. }
  split.
  - intros Hw. destruct Hcase as (ob & os & hb & hs & _ & _ & _ & _ & Hc).
    destruct (price_ge (Price ob) (Price os)); [|by destruct Hc].
    cbv zeta in Hc. destruct Hc as (Hw' & _). congruence.
  - intros Hw. split.
    { pose proof (two_books_fewer _ _ _ _ _ _ Hcase Hw) as F. by rewrite Eb, Es in F. }
    intros b s ob os Hb Hs Hob Hos. simpl in Hb, Hs.
    injection Hb as ->. injection Hs as ->.
    destruct Hcase as (ob' & os' & hb & hs & Hob' & Hos' & Pb & Ps & Hc).
    assert (ob' = ob) as -> by congruence. assert (os' = os) as -> by congruence.
    destruct OK as (ND & _). rewrite Pb, Ps in ND.
    apply NoDup_app in ND as (NDb & _ & ND). apply NoDup_app in ND as (NDs & _).
    apply NoDup_cons in NDb as [Hbhb _]. apply NoDup_cons in NDs as [Hshs _].
    destruct (price_ge (Price ob) (Price os)); [|by destruct Hc as (_ & ? & _)].
    cbv zeta in Hc. destruct Hc as (_ & _ & _ & Pb' & Ps' & _).
    split; intros E; rewrite <- E in *.
    + rewrite wrap64_diag in Pb'. simpl in Pb'. by rewrite Pb'.
    + rewrite wrap64_diag in Ps'. simpl in Ps'. by rewrite Ps'.
Qed.

Lemma C9_witness :
  (∃ out σ' me', MatchOrders (mem crossed) (engine crossed) = Some (out, σ', me')) ∧
  ∀ mf, ∃ it,
    iteration mf (mem crossed) (engine crossed) = Some it ∧
    (written it = [] → ctl it = Break) ∧
    (written it ≠ [] →
       (length (BuyOrders (ieng it)) + length (SellOrders (ieng it))
        < length (BuyOrders (engine crossed)) + length (SellOrders (engine crossed)))%nat ∧
       ∀ b s ob os,
         BuyOrders (engine crossed) !! 0%nat = Some b →
         SellOrders (engine crossed) !! 0%nat = Some s →
         mem crossed !! b = Some ob → mem crossed !! s = Some os →
         (Amount ob = min (Amount ob) (Amount os) → b ∉ BuyOrders (ieng it)) ∧
         (Amount os = min (Amount ob) (Amount os) → s ∉ SellOrders (ieng it))).
Proof. exact (C9_sweep_terminates (mem crossed) (engine crossed) crossed_ok). Defined.

(** C10. [addOrderInternal] sends every order whose type is not exactly
    ["BUY"] (["SELL"], the empty string, anything else) to the sell
    book: it is the [heap.Push] onto the sell book, which succeeds; the
    order is in the sell book afterwards and the buy book is as it
    was. *)
Theorem C10_not_buy_goes_to_sell σ me order o :
  engine_ok σ me → order ∉ objects me →
  σ !! order = Some o → Type_ o ≠ Buy →
  addOrderInternal σ me order
  = ('(σ', h) ← heap.Push SellHeap σ (SellOrders me) order;
     Some (σ', set_SellOrders me h)) ∧
  ∃ σ' me', addOrderInternal σ me order = Some (σ', me') ∧
    order ∈ SellOrders me' ∧ SellOrders me' ≡ₚ order :: SellOrders me ∧
    BuyOrders me' = BuyOrders me ∧ order ∉ BuyOrders me'.
Proof.
  intros OK Hn Ho Ht. apply String.eqb_neq in Ht. split.
  { unfold addOrderInternal. rewrite Ho. simpl. by rewrite Ht. }
  destruct (addOrderInternal_ok σ me order OK) as (σ' & me' & H & _ & _ & _ & _ & o' & Ho' & R);
    [by rewrite Ho|done|].
  assert (o' = o) as -> by congruence. rewrite Ht in R. destruct R as [P E].
  exists σ', me'. split; [done|]. split; [rewrite P; by left|]. split; [done|].
  split; [done|]. rewrite E. intros Hin. apply Hn. unfold objects.
  apply elem_of_app. by left.
Qed.

Lemma C10_witness :
  addOrderInternal with_stray (engine crossed) (new (mem crossed))
  = ('(σ', h) ← heap.Push SellHeap with_stray (SellOrders (engine crossed))
                  (new (mem crossed));
     Some (σ', set_SellOrders (engine crossed) h)) ∧
  ∃ σ' me', addOrderInternal with_stray (engine crossed) (new (mem crossed))
            = Some (σ', me') ∧
    new (mem crossed) ∈ SellOrders me' ∧
    SellOrders me' ≡ₚ new (mem crossed) :: SellOrders (engine crossed) ∧
    BuyOrders me' = BuyOrders (engine crossed) ∧ new (mem crossed) ∉ BuyOrders me'.
Proof.
  apply (C10_not_buy_goes_to_sell with_stray (engine crossed) (new (mem crossed)) stray).
  - apply engine_ok_alloc, crossed_ok.
  - intros Hin. by apply (engine_ok_new _ _ crossed_ok _ Hin).
  - vm_compute. reflexivity.
  - vm_compute. discriminate.
Defined.

Lemma query_snapshot (q : Mem → MatchingEngine → option (option loc * Mem)) σ me root o :
  engine_ok σ me → σ !! root = Some o →
  q σ me = Some (Some (new σ), <[new σ := o]> σ) →
  snapshot q σ me root.
Proof.
  intros OK Ho Hq. exists o, (new σ). split; [done|]. split; [apply new_fresh|].
  split; [done|]. split; [intros l Hl; by apply lookup_insert_ne|].
  intros out acts.
  destruct (run_ok acts (mkWorld (<[new σ := o]> σ) me out)) as (w' & Hrun & _ & F).
  { by apply engine_ok_alloc. }
  exists w'. split; [done|].
  destruct (F (new σ)) as [E _].
  - split; simpl; [by rewrite lookup_insert_eq|].
    intros Hin. by apply (engine_ok_new σ me OK _ Hin).
  - simpl in E. by rewrite E, lookup_insert_eq.
Qed.

(** C6. [GetHighestBuyOrder] returns [nil] on an empty buy book.
    Otherwise it returns the address of a new order that holds a copy
    of the root; the engine and every order already in memory are as
    before, and whatever the engine does afterwards (orders posted,
    received, matched, queried) the copy keeps the value it had.
    [GetHighestSellOrder] does the same on the sell book. *)
Theorem C6_best_is_clone σ me :
  engine_ok σ me →
  (BuyOrders me = [] → GetHighestBuyOrder σ me = Some (None, σ)) ∧
  (SellOrders me = [] → GetHighestSellOrder σ me = Some (None, σ)) ∧
  (∀ root, BuyOrders me !! 0%nat = Some root → snapshot GetHighestBuyOrder σ me root) ∧
  (∀ root, SellOrders me !! 0%nat = Some root → snapshot GetHighestSellOrder σ me root).
Proof.
  intros OK.
  pose proof (GetHighestBuyOrder_spec σ me OK) as Hb.
  pose proof (GetHighestSellOrder_spec σ me OK) as Hs.
  split; [|split; [|split]].
  - intros E. by rewrite E in Hb.
  - intros E. by rewrite E in Hs.
  - intros root Hr. rewrite Hr in Hb. destruct Hb as (o & Ho & Hq).
    by eapply query_snapshot.
  - intros root Hr. rewrite Hr in Hs. destruct Hs as (o & Ho & Hq).
    by eapply query_snapshot.
Qed.

Lemma C6_witness :
  (BuyOrders (engine crossed) = [] →
   GetHighestBuyOrder (mem crossed) (engine crossed) = Some (None, mem crossed)) ∧
  (SellOrders (engine crossed) = [] →
   GetHighestSellOrder (mem crossed) (engine crossed) = Some (None, mem crossed)) ∧
  (∀ root, BuyOrders (engine crossed) !! 0%nat = Some root →
           snapshot GetHighestBuyOrder (mem crossed) (engine crossed) root) ∧
  (∀ root, SellOrders (engine crossed) !! 0%nat = Some root →
           snapshot GetHighestSellOrder (mem crossed) (engine crossed) root).
Proof. exact (C6_best_is_clone (mem crossed) (engine crossed) crossed_ok). Defined.

(** C4. After any sequence of operations of the engine (orders posted,
    received, sweeps, queries) the run has a result and in each book no
    order has a better price than the root: none a higher price in the
    buy book, none a lower price in the sell book. *)
Theorem C4_root_extremal acts :
  ∃ w, run start acts = Some w ∧
    root_extremal BuyHeap (mem w) (BuyOrders (engine w)) ∧
    root_extremal SellHeap (mem w) (SellOrders (engine w)).
Proof.
  destruct (run_ok acts start start_ok) as (w & H & (_ & _ & B & S) & _).
  exists w. split; [done|].
  destruct B as (_ & _ & Ob). destruct S as (_ & _ & Os).
  split; by apply ordered_root_extremal.
Qed.

(** C7. In a book whose orders are distinct objects and carry their
    position as heap index, [Swap], [Push] and [Pop], and [heap.Push]
    and [heap.Pop] built on them, leave every order of the book with
    its position as heap index; the order taken out by [Pop] has heap
    index -1, and the one taken out by [heap.Pop] is the root.  Every
    book the engine reaches is such a book. *)
Theorem C7_heap_index k σ h :
  NoDup h → indexed σ h →
  (∀ i j σ' h', Swap σ h i j = Some (σ', h') → indexed σ' h') ∧
  (∀ x σ' h', x ∉ h → Push σ h x = Some (σ', h') → indexed σ' h') ∧
  (∀ x σ' h', Pop σ h = Some (x, σ', h') →
     indexed σ' h' ∧ Index <$> σ' !! x = Some (-1)) ∧
  (∀ x σ' h', x ∉ h → heap.Push k σ h x = Some (σ', h') → indexed σ' h') ∧
  (∀ x σ' h', heap.Pop k σ h = Some (x, σ', h') →
     h !! 0%nat = Some x ∧ Index <$> σ' !! x = Some (-1) ∧ indexed σ' h') ∧
  (∀ acts, ∃ w, run start acts = Some w ∧
     NoDup (BuyOrders (engine w)) ∧ indexed (mem w) (BuyOrders (engine w)) ∧
     NoDup (SellOrders (engine w)) ∧ indexed (mem w) (SellOrders (engine w))).
Proof.
  intros ND I. repeat split.
  - intros i j σ' h' H. by eapply Swap_indexed.
  - intros x σ' h' Hx H. by destruct (Push_indexed _ _ _ _ _ ND Hx I H).
  - by destruct (Pop_indexed _ _ _ _ _ ND I H) as (_ & ? & _).
  - by destruct (Pop_indexed _ _ _ _ _ ND I H) as (_ & _ & ?).
  - intros x σ' h' Hx H. by destruct (heap_Push_indexed _ _ _ _ _ _ ND Hx I H).
  - by destruct (heap_Pop_indexed _ _ _ _ _ _ ND I H) as (_ & _ & ? & _).
  - by destruct (heap_Pop_indexed _ _ _ _ _ _ ND I H) as (_ & _ & _ & ?).
  - by destruct (heap_Pop_indexed _ _ _ _ _ _ ND I H) as (_ & ? & _).
  - intros acts.
    destruct (run_ok acts start start_ok) as (w & H & (_ & _ & B & S) & _).
    exists w. split; [done|].
    destruct B as (? & ? & _). destruct S as (? & ? & _). done.
Qed.

Lemma C7_witness :
  (∀ i j σ' h', Swap (mem crossed) (BuyOrders (engine crossed)) i j = Some (σ', h') →
     indexed σ' h') ∧
  (∀ x σ' h', x ∉ BuyOrders (engine crossed) →
     Push (mem crossed) (BuyOrders (engine crossed)) x = Some (σ', h') → indexed σ' h') ∧
  (∀ x σ' h', Pop (mem crossed) (BuyOrders (engine crossed)) = Some (x, σ', h') →
     indexed σ' h' ∧ Index <$> σ' !! x = Some (-1)) ∧
  (∀ x σ' h', x ∉ BuyOrders (engine crossed) →
     heap.Push BuyHeap (mem crossed) (BuyOrders (engine crossed)) x = Some (σ', h') →
     indexed σ' h') ∧
  (∀ x σ' h',
     heap.Pop BuyHeap (mem crossed) (BuyOrders (engine crossed)) = Some (x, σ', h') →
     BuyOrders (engine crossed) !! 0%nat = Some x ∧
     Index <$> σ' !! x = Some (-1) ∧ indexed σ' h') ∧
  (∀ acts, ∃ w, run start acts = Some w ∧
     NoDup (BuyOrders (engine w)) ∧ indexed (mem w) (BuyOrders (engine w)) ∧
     NoDup (SellOrders (engine w)) ∧ indexed (mem w) (SellOrders (engine w))).
Proof.
  apply (C7_heap_index BuyHeap (mem crossed) (BuyOrders (engine crossed))).
  - refine (bool_decide_unpack _ _). vm_compute. exact I.
  - intros i l Hi. destruct i as [|[|i]]; simpl in Hi; [| |done];
      injection Hi as <-; vm_compute; reflexivity.
Defined.

(** After a trade an order is back in its book exactly when it has a
    positive amount left. *)
Lemma trade_keeps_positive mf σ me b s it :
  engine_ok σ me →
  BuyOrders me !! 0%nat = Some b → SellOrders me !! 0%nat = Some s →
  iteration mf σ me = Some it → written it ≠ [] →
  (b ∈ BuyOrders (ieng it) ↔ 0 < amount (imem it) b) ∧
  (s ∈ SellOrders (ieng it) ↔ 0 < amount (imem it) s).
Proof.
  intros OK Hb Hs Hit Hw.
  destruct (iteration_both mf σ me b s OK Hb Hs)
    as (it' & Hit' & _ & _ & _ & ob & os & hb & hs & Hob & Hos & Pb & Ps & Hc).
  assert (it' = it) as -> by congruence.
  destruct OK as (ND & _). rewrite Pb, Ps in ND.
  apply NoDup_app in ND as (NDb & _ & ND). apply NoDup_app in ND as (NDs & _).
  apply NoDup_cons in NDb as [Hbhb _]. apply NoDup_cons in NDs as [Hshs _].
  destruct (price_ge (Price ob) (Price os)); [|by destruct Hc as (_ & ? & _)].
  cbv zeta in Hc. destruct Hc as (_ & _ & T & Pb' & Ps' & _).
  rewrite (traded_amount_here _ _ _ _ _ b ob T) by auto.
  rewrite (traded_amount_here _ _ _ _ _ s os T) by auto.
  rewrite Pb', Ps'. split.
  - destruct (Z.ltb_spec 0 (wrap64 (Amount ob - min (Amount ob) (Amount os)))).
    + split; [done|]. intros _. by left.
    + split; [done|lia].
  - destruct (Z.ltb_spec 0 (wrap64 (Amount os - min (Amount ob) (Amount os)))).
    + split; [done|]. intros _. by left.
    + split; [done|lia].
Qed.

(** C3, as stated, fails: an order posted with amount 0 is pushed onto
    its book as it is. *)
Lemma C3_counterexample :
  ∃ w, run start [PostOrder (Some (order 1 Buy (100 # 1) 0)); Receive] = Some w ∧
       show (mem w) (BuyOrders (engine w)) = [(1, (100 # 1)%Q, 0, 0)] ∧
       ¬ positive_amounts (mem w) (BuyOrders (engine w) ++ SellOrders (engine w)).
Proof.
  eexists. split; [vm_compute; reflexivity|]. split; [vm_compute; reflexivity|].
  intros P. destruct (P 1%positive) as (o & Ho & Hpos); [by left|].
  vm_compute in Ho. injection Ho as <-. simpl in Hpos. lia.
Qed.

(** C3, amended.  The engine does not check the amount of an order it
    is handed.  When every order posted has a positive amount, then
    after any sequence of operations every order in either book has a
    positive amount; and in any sweep, an order that traded is back in
    its book exactly when it has a positive amount left, so one whose
    amount reached zero is dropped. *)
Theorem C3_positive_amounts acts :
  Forall posted_positive acts →
  ∃ w, run start acts = Some w ∧
    positive_amounts (mem w) (BuyOrders (engine w) ++ SellOrders (engine w)) ∧
    ∀ mf it b s,
      BuyOrders (engine w) !! 0%nat = Some b →
      SellOrders (engine w) !! 0%nat = Some s →
      iteration mf (mem w) (engine w) = Some it → written it ≠ [] →
      (b ∈ BuyOrders (ieng it) ↔ 0 < amount (imem it) b) ∧
      (s ∈ SellOrders (ieng it) ↔ 0 < amount (imem it) s).
Proof.
  intros Ha. destruct (run_ok acts start start_ok) as (w & H & OK & _).
  exists w. split; [done|]. split.
  - assert (P : positive_amounts (mem w) (objects (engine w))).
    { eapply (run_positive acts start); [apply start_ok| |done|done].
      intros l Hl. by apply elem_of_nil in Hl. }
    unfold objects in P. rewrite app_assoc in P.
    by apply positive_amounts_app in P as [P _].
  - intros mf it b s. by apply trade_keeps_positive.
Qed.

Lemma C3_witness :
  ∃ w, run start (cascade ++ [Sweep]) = Some w ∧
    positive_amounts (mem w) (BuyOrders (engine w) ++ SellOrders (engine w)) ∧
    ∀ mf it b s,
      BuyOrders (engine w) !! 0%nat = Some b →
      SellOrders (engine w) !! 0%nat = Some s →
      iteration mf (mem w) (engine w) = Some it → written it ≠ [] →
      (b ∈ BuyOrders (ieng it) ↔ 0 < amount (imem it) b) ∧
      (s ∈ SellOrders (ieng it) ↔ 0 < amount (imem it) s).
Proof.
  apply (C3_positive_amounts (cascade ++ [Sweep])).
  repeat constructor; simpl; lia.
Defined.

(** ** The ingestion worker *)

(** C5, as stated, fails: an order with a side that is neither ["BUY"]
    nor ["SELL"], a negative price and amount 0 is enqueued by
    [AddOrder] and ends up in the sell book. *)
Lemma C5_counterexample :
  let bad := mkOrder 7 "HOLD" (-1 # 1) 0 0 in
  let σ : Mem := {[ 1%positive := bad ]} in
  malformed bad = true ∧
  orderChannel (AddOrder NewMatchingEngine 1%positive) = [1%positive] ∧
  ∃ σ' me', processOrders 1 σ (AddOrder NewMatchingEngine 1%positive) = Some (σ', me') ∧
    SellOrders me' = [1%positive] ∧ σ' !! 1%positive = Some bad.
Proof.
  split; [reflexivity|]. split; [reflexivity|].
  eexists _, _. split; [vm_compute; reflexivity|]. split; reflexivity.
Qed.

(** C5, amended.  [AddOrder] checks nothing: whatever order it is
    handed, malformed or not, it enqueues at the back of the channel,
    leaving the books alone and reporting nothing.  The ingestion
    worker (whose loop never returns) takes the orders off the channel
    one per turn, oldest first.  After the turns for the orders that
    waited before it and one more, the order is in a book with its
    fields as they were: in the buy book if its type is exactly
    ["BUY"], in the sell book otherwise, and not in the other.  And
    whatever state the engine is in when the order is the oldest one
    waiting, the next turn of the worker puts it in that book. *)
Theorem C5_every_order_is_enqueued σ me order o :
  engine_ok σ me → order ∉ objects me → σ !! order = Some o →
  orderChannel (AddOrder me order) = orderChannel me ++ [order] ∧
  BuyOrders (AddOrder me order) = BuyOrders me ∧
  SellOrders (AddOrder me order) = SellOrders me ∧
  ∃ σ' me',
    processOrders (S (length (orderChannel me))) σ (AddOrder me order)
    = Some (σ', me') ∧
    orderChannel me' = [] ∧
    core <$> σ' !! order = Some (core o) ∧
    (Type_ o = "BUY"%string → order ∈ BuyOrders me' ∧ order ∉ SellOrders me') ∧
    (Type_ o ≠ "BUY"%string → order ∈ SellOrders me' ∧ order ∉ BuyOrders me') ∧
    ∀ σ1 me1 rest,
      engine_ok σ1 me1 → orderChannel me1 = order :: rest → σ1 !! order = Some o →
      ∃ σ2 me2, receive σ1 me1 = Some (σ2, me2) ∧
        orderChannel me2 = rest ∧ core <$> σ2 !! order = Some (core o) ∧
        (Type_ o = "BUY"%string → order ∈ BuyOrders me2 ∧ order ∉ SellOrders me2) ∧
        (Type_ o ≠ "BUY"%string → order ∈ SellOrders me2 ∧ order ∉ BuyOrders me2).
Proof.
  intros OK Hn Ho. split; [done|]. split; [done|]. split; [done|].
  assert (OKa : engine_ok σ (AddOrder me order)).
  { destruct OK as (ND & A & B & S). apply engine_ok_intro; [| |done|done].
    - rewrite !app_assoc. apply NoDup_app. rewrite <- !app_assoc.
      split; [done|]. split; [|apply NoDup_singleton].
      intros l Hl Hl'. apply list_elem_of_singleton in Hl' as ->. done.
    - intros l Hl. apply elem_of_app in Hl as [Hl|Hl]; [by apply A|].
      apply list_elem_of_singleton in Hl as ->. by rewrite Ho. }
  destruct (processOrders_turns (S (length (orderChannel me))) σ (AddOrder me order) OKa)
    as (σ' & me' & H & OK' & C & Ed & Pb & Ps).
  simpl orderChannel in Ed, Pb, Ps. simpl BuyOrders in Pb. simpl SellOrders in Ps.
  rewrite drop_ge in Ed by (rewrite length_app; simpl; lia).
  rewrite take_ge in Pb, Ps by (rewrite length_app; simpl; lia).
  exists σ', me'. split; [done|]. split; [done|].
  split; [by rewrite (C order), Ho|].
  assert (K : kind σ order = Type_ o) by (unfold kind; by rewrite Ho).
  assert (Hb : order ∉ BuyOrders me).
  { intros Hin. apply Hn. unfold objects. apply elem_of_app. by left. }
  assert (Hs : order ∉ SellOrders me).
  { intros Hin. apply Hn. unfold objects. apply elem_of_app. right.
    apply elem_of_app. by left. }
  split; [|split].
  - intros Ht. split.
    + rewrite Pb. apply elem_of_app. left. apply list_elem_of_filter.
      split; [by rewrite K|]. apply elem_of_app. right. by left.
    + rewrite Ps. intros Hin. apply elem_of_app in Hin as [Hin|Hin]; [|done].
      apply list_elem_of_filter in Hin as [Hk _]. by rewrite K in Hk.
  - intros Ht. split.
    + rewrite Ps. apply elem_of_app. left. apply list_elem_of_filter.
      split; [by rewrite K|]. apply elem_of_app. right. by left.
    + rewrite Pb. intros Hin. apply elem_of_app in Hin as [Hin|Hin]; [|done].
      apply list_elem_of_filter in Hin as [Hk _]. by rewrite K in Hk.
  - intros σ1 me1 rest OK1 Ec1 Ho1.
    destruct (receive_routes σ1 me1 order rest o OK1 Ec1 Ho1)
      as (σ2 & me2 & H2 & _ & R).
    by exists σ2, me2.
Qed.

Lemma C5_witness :
  orderChannel (AddOrder (engine crossed) (new (mem crossed)))
  = orderChannel (engine crossed) ++ [new (mem crossed)] ∧
  BuyOrders (AddOrder (engine crossed) (new (mem crossed))) = BuyOrders (engine crossed) ∧
  SellOrders (AddOrder (engine crossed) (new (mem crossed))) = SellOrders (engine crossed) ∧
  ∃ σ' me', processOrders 1 with_stray (AddOrder (engine crossed) (new (mem crossed)))
            = Some (σ', me') ∧
    orderChannel me' = [] ∧
    core <$> σ' !! new (mem crossed) = Some (core stray) ∧
    new (mem crossed) ∈ SellOrders me' ∧ new (mem crossed) ∉ BuyOrders me'.
Proof.
  destruct (C5_every_order_is_enqueued with_stray (engine crossed) (new (mem crossed)) stray)
    as (E1 & E2 & E3 & σ' & me' & H & Ec & C & _ & Hsell & _).
  - apply engine_ok_alloc, crossed_ok.
  - intros Hin. by apply (engine_ok_new _ _ crossed_ok _ Hin).
  - vm_compute. reflexivity.
  - split; [exact E1|]. split; [exact E2|]. split; [exact E3|].
    exists σ', me'. split; [exact H|]. split; [exact Ec|]. split; [exact C|].
    apply Hsell. discriminate.
Defined.

(** ** Conservation *)

(** C8, as stated, fails: nothing keeps amounts within bounds, and with
    a negative amount the subtraction of the traded quantity wraps
    around.  A buy order for the largest [int] that meets a sell order
    for -1 trades -1 and is left with an amount that is negative, so it
    is dropped: its traded quantity and what is left of it in the book
    do not add up to its amount. *)
Lemma C8_counterexample :
  let big := order 1 Buy (100 # 1) (2 ^ 63 - 1) in
  let neg := order 2 Sell (100 # 1) (-1) in
  ∃ w, run start [PostOrder (Some big); Receive; PostOrder (Some neg); Receive; Sweep]
       = Some w ∧
    stdout w = [MATCH 1 1 (100 # 1) 2 (100 # 1) (-1)] ∧
    BuyOrders (engine w) = [] ∧ SellOrders (engine w) = [] ∧
    orderChannel (engine w) = [] ∧
    Amount big ≠ tradedBuy (stdout w) 1 + resting (mem w) (BuyOrders (engine w)) 1.
Proof.
  eexists. split; [vm_compute; reflexivity|]. split; [vm_compute; reflexivity|].
  split; [reflexivity|]. split; [reflexivity|]. split; [reflexivity|].
  vm_compute. discriminate.
Qed.

(** C8, amended.  Take any sequence of operations of the engine in
    which the orders posted have amounts that are not negative (and fit
    an [int]); identifiers may repeat.  The run has a result.  The
    trades name posted orders only: summed over the identifiers posted,
    the quantities traded on the buy side and those traded on the sell
    side both give the sum of the quantities of the trades.  And the
    orders are accounted for by identifier and side (a trade names its
    orders by identifier only): the amounts posted under an identifier
    on a side are the quantity traded under it on that side, what is
    left of these orders in the book of that side and what still waits
    in the channel.  For an order that is alone with its identifier on
    its side this reads: its amount is its traded quantity plus what is
    left of it, in its book or, not yet received, in the channel. *)
Theorem C8_conservation acts :
  Forall posted_ok (posted acts) →
  ∃ w, run start acts = Some w ∧
    over_ids (posted acts) (tradedBuy (stdout w)) = volume (stdout w) ∧
    over_ids (posted acts) (tradedSell (stdout w)) = volume (stdout w) ∧
    (∀ buy id,
       posted_amount (posted acts) buy id
       = traded_side (stdout w) buy id
         + resting (mem w) (book (engine w) buy) id
         + waiting (mem w) (orderChannel (engine w)) buy id) ∧
    ∀ o, o ∈ posted acts →
      posted_count (posted acts) (is_buy (Type_ o)) (ID o) = 1%nat →
      Amount o
      = traded_side (stdout w) (is_buy (Type_ o)) (ID o)
        + resting (mem w) (book (engine w) (is_buy (Type_ o))) (ID o)
        + waiting (mem w) (orderChannel (engine w)) (is_buy (Type_ o)) (ID o).
Proof.
  intros Hok.
  destruct (run_ok acts start start_ok) as (w & H & _).
  exists w. split; [done|].
  destruct (over_ids_traded _ _ (run_posted_trades acts w H)) as [Vb Vs].
  split; [done|]. split; [done|].
  assert (Ac : accounted (posted acts) w).
  { apply (run_accounted acts [] start w start_ok); [|apply start_accounted|done|done].
    intros l Hl. by apply elem_of_nil in Hl. }
  split; [exact Ac|].
  intros o Ho Hc. rewrite <- (posted_amount_alone _ _ Ho Hc). apply Ac.
Qed.

Lemma C8_witness :
  ∃ w, run start (cascade ++ [Sweep]) = Some w ∧
    over_ids (posted (cascade ++ [Sweep])) (tradedBuy (stdout w)) = volume (stdout w) ∧
    over_ids (posted (cascade ++ [Sweep])) (tradedSell (stdout w)) = volume (stdout w) ∧
    (∀ buy id,
       posted_amount (posted (cascade ++ [Sweep])) buy id
       = traded_side (stdout w) buy id
         + resting (mem w) (book (engine w) buy) id
         + waiting (mem w) (orderChannel (engine w)) buy id) ∧
    ∀ o, o ∈ posted (cascade ++ [Sweep]) →
      posted_count (posted (cascade ++ [Sweep])) (is_buy (Type_ o)) (ID o) = 1%nat →
      Amount o
      = traded_side (stdout w) (is_buy (Type_ o)) (ID o)
        + resting (mem w) (book (engine w) (is_buy (Type_ o))) (ID o)
        + waiting (mem w) (orderChannel (engine w)) (is_buy (Type_ o)) (ID o).
Proof.
  apply (C8_conservation (cascade ++ [Sweep])).
  repeat constructor; unfold posted_ok; simpl; lia.
Defined.

(** * Further properties *)

(** X1. [heap.Pop] on a book in good order that is not empty returns the
    root, which no order of the book is [Less] than (none has a higher
    price in the buy book, none a lower price in the sell book); the
    book it leaves holds the other orders and is in good order again;
    no order changed but in its heap index, and none outside the book
    changed at all. *)
Theorem heap_Pop_returns_best k σ h :
  book_ok k σ h → h ≠ [] →
  ∃ x σ' h', heap.Pop k σ h = Some (x, σ', h') ∧
    h !! 0%nat = Some x ∧ best k σ h x ∧
    h ≡ₚ x :: h' ∧ book_ok k σ' h' ∧ same_core σ σ' ∧ same_outside h σ σ'.
Proof.
  intros B Hne. destruct h as [|x0 h0] eqn:E; [done|]. rewrite <- E in *.
  assert (H0 : h !! 0%nat = Some x0) by (by rewrite E).
  destruct (heap_Pop_spec k σ h x0 B H0) as (σ' & h' & H & B' & P & C & O & _).
  exists x0, σ', h'.
  refine (conj H (conj H0 (conj _ (conj P (conj B' (conj C O)))))).
  apply root_best; [apply B|done].
Qed.

Lemma heap_Pop_returns_best_witness :
  ∃ x σ' h',
    heap.Pop BuyHeap (mem crossed) (BuyOrders (engine crossed)) = Some (x, σ', h') ∧
    BuyOrders (engine crossed) !! 0%nat = Some x ∧
    best BuyHeap (mem crossed) (BuyOrders (engine crossed)) x ∧
    BuyOrders (engine crossed) ≡ₚ x :: h' ∧ book_ok BuyHeap σ' h' ∧
    same_core (mem crossed) σ' ∧ same_outside (BuyOrders (engine crossed)) (mem crossed) σ'.
Proof.
  apply (heap_Pop_returns_best BuyHeap (mem crossed) (BuyOrders (engine crossed))).
  - apply crossed_ok.
  - vm_compute. discriminate.
Defined.

(** X2. [heap.Push] of an order that is not in the book, onto a book in
    good order: the book then holds that order and the former ones and
    is in good order; no order changed but in its heap index, and none
    outside the book changed at all.  When the order pushed is [Less]
    than every order of the book, it is the new root. *)
Theorem heap_Push_inserts k σ h x :
  book_ok k σ h → x ∉ h → is_Some (σ !! x) →
  ∃ σ' h', heap.Push k σ h x = Some (σ', h') ∧
    h' ≡ₚ x :: h ∧ book_ok k σ' h' ∧ same_core σ σ' ∧
    same_outside (x :: h) σ σ' ∧
    (beats k σ x h → h' !! 0%nat = Some x).
Proof.
  intros B Hx Hsome.
  destruct (heap_Push_spec k σ h x B Hx Hsome) as (σ' & h' & H & B' & P & C & O).
  exists σ', h'.
  refine (conj H (conj P (conj B' (conj C (conj O _))))).
  intros W. exact (heap_Push_root k σ h x σ' h' B Hx Hsome W H).
Qed.

Lemma stray_beats_sells :
  beats SellHeap with_stray (new (mem crossed)) (SellOrders (engine crossed)).
Proof.
  intros l o ox Hl Ho Hox.
  change (SellOrders (engine crossed)) with [3%positive] in Hl.
  apply list_elem_of_singleton in Hl as ->.
  vm_compute in Ho, Hox. injection Ho as <-. injection Hox as <-. reflexivity.
Qed.

Lemma with_stray_ok : engine_ok with_stray (engine crossed).
Proof. apply engine_ok_alloc, crossed_ok. Qed.

Lemma heap_Push_inserts_witness :
  ∃ σ' h',
    heap.Push SellHeap with_stray (SellOrders (engine crossed)) (new (mem crossed))
      = Some (σ', h') ∧
    h' ≡ₚ new (mem crossed) :: SellOrders (engine crossed) ∧
    book_ok SellHeap σ' h' ∧ same_core with_stray σ' ∧
    same_outside (new (mem crossed) :: SellOrders (engine crossed)) with_stray σ' ∧
    (beats SellHeap with_stray (new (mem crossed)) (SellOrders (engine crossed)) →
     h' !! 0%nat = Some (new (mem crossed))).
Proof.
  apply (heap_Push_inserts SellHeap with_stray (SellOrders (engine crossed))
           (new (mem crossed))).
  - apply with_stray_ok.
  - change (SellOrders (engine crossed)) with [3%positive].
    intros Hin. apply list_elem_of_singleton in Hin. vm_compute in Hin. discriminate.
  - vm_compute. eexists. reflexivity.
Defined.

(** X3. Round trip: after [heap.Push] of an order, [heap.Pop] returns an
    order that none of the book (the pushed one included) is [Less]
    than, and leaves the others in a book in good order; when the order
    pushed is [Less] than every order the book held, it is the one
    popped and the book holds the orders it held before. *)
Theorem heap_Push_Pop_round_trip k σ h x :
  book_ok k σ h → x ∉ h → is_Some (σ !! x) →
  ∃ σ1 h1 y σ2 h2,
    heap.Push k σ h x = Some (σ1, h1) ∧ heap.Pop k σ1 h1 = Some (y, σ2, h2) ∧
    y :: h2 ≡ₚ x :: h ∧ best k σ (x :: h) y ∧ book_ok k σ2 h2 ∧ same_core σ σ2 ∧
    (beats k σ x h → y = x ∧ h2 ≡ₚ h).
Proof.
  intros B Hx Hsome.
  destruct (heap_Push_spec k σ h x B Hx Hsome) as (σ1 & h1 & H1 & B1 & P1 & C1 & _).
  destruct h1 as [|y h1'] eqn:E; [by apply Permutation_nil_cons in P1|].
  rewrite <- E in *.
  assert (H0 : h1 !! 0%nat = Some y) by (by rewrite E).
  destruct (heap_Pop_spec k σ1 h1 y B1 H0) as (σ2 & h2 & H2 & B2 & P2 & C2 & _).
  exists σ1, h1, y, σ2, h2. split; [done|]. split; [done|].
  split; [by rewrite <- P2|].
  split.
  { apply (best_perm k σ h1); [done|].
    apply (best_same_core k σ1 σ); [intros l; symmetry; apply C1|].
    apply root_best; [apply B1|done]. }
  split; [done|]. split; [by eapply same_core_trans|].
  intros W. pose proof (heap_Push_root k _ _ _ _ _ B Hx Hsome W H1) as Hr.
  assert (y = x) as -> by congruence. split; [done|].
  rewrite P1 in P2. by apply Permutation_cons_inv in P2.
Qed.

Lemma heap_Push_Pop_round_trip_witness :
  ∃ σ1 h1 y σ2 h2,
    heap.Push SellHeap with_stray (SellOrders (engine crossed)) (new (mem crossed))
      = Some (σ1, h1) ∧
    heap.Pop SellHeap σ1 h1 = Some (y, σ2, h2) ∧
    y :: h2 ≡ₚ new (mem crossed) :: SellOrders (engine crossed) ∧
    best SellHeap with_stray (new (mem crossed) :: SellOrders (engine crossed)) y ∧
    book_ok SellHeap σ2 h2 ∧ same_core with_stray σ2 ∧
    (beats SellHeap with_stray (new (mem crossed)) (SellOrders (engine crossed)) →
     y = new (mem crossed) ∧ h2 ≡ₚ SellOrders (engine crossed)).
Proof.
  apply (heap_Push_Pop_round_trip SellHeap with_stray (SellOrders (engine crossed))
           (new (mem crossed))).
  - apply with_stray_ok.
  - change (SellOrders (engine crossed)) with [3%positive].
    intros Hin. apply list_elem_of_singleton in Hin. vm_compute in Hin. discriminate.
  - vm_compute. eexists. reflexivity.
Defined.

(** X4. Two calls of [heap.Pop] in a row return orders in price order: the
    second is not [Less] than the first (in the buy book its price is
    not higher, in the sell book not lower). *)
Theorem heap_Pop_twice_in_order k σ h x1 σ1 h1 x2 σ2 h2 o1 o2 :
  book_ok k σ h →
  heap.Pop k σ h = Some (x1, σ1, h1) → heap.Pop k σ1 h1 = Some (x2, σ2, h2) →
  σ !! x1 = Some o1 → σ !! x2 = Some o2 →
  better k (Price o2) (Price o1) = false ∧ x1 ≠ x2 ∧ h ≡ₚ x1 :: x2 :: h2.
Proof.
  intros B H1 H2 Ho1 Ho2.
  destruct (heap_Pop_frame k _ _ _ _ _ H1) as (R1 & P1 & _).
  destruct (heap_Pop_frame k _ _ _ _ _ H2) as (R2 & P2 & _).
  assert (Hin : x2 ∈ h1) by (by eapply list_elem_of_lookup_2).
  split; [|split].
  - apply (root_best k σ h x1 (proj2 (proj2 B)) R1 x2 o2 o1); [|done|done].
    rewrite P1. by right.
  - destruct B as (ND & _). rewrite P1 in ND. apply NoDup_cons in ND as [Hn _].
    by intros ->.
  - by rewrite P1, P2.
Qed.

Lemma heap_Pop_twice_in_order_witness :
  ∃ σ1 σ2,
    heap.Pop BuyHeap (mem crossed) (BuyOrders (engine crossed))
      = Some (1%positive, σ1, [2%positive]) ∧
    heap.Pop BuyHeap σ1 [2%positive] = Some (2%positive, σ2, []) ∧
    better BuyHeap (100 # 1) (105 # 1) = false ∧ 1%positive ≠ 2%positive ∧
    BuyOrders (engine crossed) ≡ₚ [1%positive; 2%positive].
Proof.
  destruct (heap.Pop BuyHeap (mem crossed) (BuyOrders (engine crossed)))
    as [[[x1 σ1] h1]|] eqn:H1; [|by vm_compute in H1].
  assert (x1 = 1%positive ∧ h1 = [2%positive]) as [-> ->].
  { vm_compute in H1. by injection H1 as <- _ <-. }
  destruct (heap.Pop BuyHeap σ1 [2%positive]) as [[[x2 σ2] h2]|] eqn:H2.
  2:{ vm_compute in H1. injection H1 as <-. by vm_compute in H2. }
  assert (x2 = 2%positive ∧ h2 = []) as [-> ->].
  { vm_compute in H1. injection H1 as <-. vm_compute in H2. by injection H2 as <- _ <-. }
  exists σ1, σ2. split; [done|]. split; [done|].
  apply (heap_Pop_twice_in_order BuyHeap (mem crossed) (BuyOrders (engine crossed))
           1%positive σ1 [2%positive] 2%positive σ2 []
           (mkOrder 1 Buy (105 # 1) 4 0) (mkOrder 2 Buy (100 # 1) 2 1)).
  - apply crossed_ok.
  - exact H1.
  - exact H2.
  - vm_compute. reflexivity.
  - vm_compute. reflexivity.
Defined.

(** X5. [heap.Pop] returns an order exactly when the book is not empty: on
    an empty book it panics (index out of range), on any other it does
    not. *)
Theorem heap_Pop_empty k σ h :
  allocated σ h → is_Some (heap.Pop k σ h) ↔ h ≠ [].
Proof.
  intros A. split.
  - intros [r H] ->. by vm_compute in H.
  - intros Hne. apply heap_Pop_is_Some; [done|]. destruct h; [done|simpl; lia].
Qed.

Lemma heap_Pop_empty_witness :
  is_Some (heap.Pop SellHeap (mem crossed) (SellOrders (engine crossed)))
  ↔ SellOrders (engine crossed) ≠ [].
Proof.
  apply (heap_Pop_empty SellHeap (mem crossed) (SellOrders (engine crossed))).
  apply book_ok_allocated with SellHeap. apply crossed_ok.
Defined.

(** ** The sweep *)

(** X6. A sweep during which no order is received ends on books that do
    not cross: when such a call of [MatchOrders] returns, every order
    left in the buy book is priced below every order left in the sell
    book (one of the books may be empty). *)
Theorem sweep_leaves_books_uncrossed σ me :
  engine_ok σ me →
  ∃ out σ' me', MatchOrders σ me = Some (out, σ', me') ∧ uncrossed σ' me'.
Proof.
  intros OK. destruct (MatchOrders_ok σ me OK) as (out & σ' & me' & H & _).
  exists out, σ', me'. split; [done|].
  exact (MatchOrders_loop_uncrossed _ _ _ _ _ _ _ OK H).
Qed.

Lemma sweep_leaves_books_uncrossed_witness :
  ∃ out σ' me',
    MatchOrders (mem crossed) (engine crossed) = Some (out, σ', me') ∧ uncrossed σ' me'.
Proof.
  apply (sweep_leaves_books_uncrossed (mem crossed) (engine crossed)).
  apply crossed_ok.
Defined.

(** X7. [StartMatching] with no order arriving: every turn after the first
    writes nothing.  Whatever the number of turns, what is written is
    what the first sweep wrote, and the books hold the orders the first
    sweep left, unchanged but for heap indices. *)
Theorem StartMatching_settles σ me :
  engine_ok σ me →
  ∃ out σ1 me1, MatchOrders σ me = Some (out, σ1, me1) ∧
    ∀ rounds, ∃ σ2 me2,
      StartMatching (S rounds) σ me = Some (out, σ2, me2) ∧
      same_core σ1 σ2 ∧
      BuyOrders me2 ≡ₚ BuyOrders me1 ∧ SellOrders me2 ≡ₚ SellOrders me1 ∧
      orderChannel me2 = orderChannel me.
Proof.
  intros OK. destruct (MatchOrders_ok σ me OK) as (out & σ1 & me1 & H & OK1 & Ec & _).
  exists out, σ1, me1. split; [done|]. intros rounds.
  pose proof (MatchOrders_loop_uncrossed _ _ _ _ _ _ _ OK H) as U.
  destruct (StartMatching_quiet rounds σ1 me1 OK1 U) as (σ2 & me2 & H2 & C & Pb & Ps & Ec2).
  exists σ2, me2. simpl. rewrite H. simpl. rewrite H2. simpl. rewrite app_nil_r.
  split_and!; [done|done|done|done|congruence].
Qed.

Lemma StartMatching_settles_witness :
  ∃ out σ1 me1, MatchOrders (mem crossed) (engine crossed) = Some (out, σ1, me1) ∧
    ∀ rounds, ∃ σ2 me2,
      StartMatching (S rounds) (mem crossed) (engine crossed) = Some (out, σ2, me2) ∧
      same_core σ1 σ2 ∧
      BuyOrders me2 ≡ₚ BuyOrders me1 ∧ SellOrders me2 ≡ₚ SellOrders me1 ∧
      orderChannel me2 = orderChannel (engine crossed).
Proof.
  apply (StartMatching_settles (mem crossed) (engine crossed)).
  apply crossed_ok.
Defined.

(** X8. The trades a sweep writes are numbered 1, 2, 3, ... in the order
    written ([matchesFound] starts again at 0 in every sweep). *)
Theorem sweep_numbers_trades σ me :
  engine_ok σ me →
  ∃ out σ' me', MatchOrders σ me = Some (out, σ', me') ∧
    number <$> out = seq 1 (length out).
Proof.
  intros OK. destruct (MatchOrders_ok σ me OK) as (out & σ' & me' & H & _).
  exists out, σ', me'. split; [done|].
  exact (MatchOrders_loop_numbers _ _ _ _ _ _ _ OK H).
Qed.

Lemma sweep_numbers_trades_witness :
  ∃ out σ' me', MatchOrders (mem crossed) (engine crossed) = Some (out, σ', me') ∧
    number <$> out = seq 1 (length out).
Proof.
  apply (sweep_numbers_trades (mem crossed) (engine crossed)).
  apply crossed_ok.
Defined.

(** X9. In a sweep during which no order is received, each trade takes at
    least one order and at most two off the books: a call of
    [MatchOrders] that wrote [n] trades left between [n] and [2n]
    orders fewer in the two books, and one that wrote none left as many
    as it found. *)
Theorem sweep_trade_count σ me :
  engine_ok σ me →
  ∃ out σ' me', MatchOrders σ me = Some (out, σ', me') ∧
    (length (BuyOrders me') + length (SellOrders me') + length out
     ≤ length (BuyOrders me) + length (SellOrders me))%nat ∧
    (length (BuyOrders me) + length (SellOrders me)
     ≤ length (BuyOrders me') + length (SellOrders me') + 2 * length out)%nat.
Proof.
  intros OK. destruct (MatchOrders_ok σ me OK) as (out & σ' & me' & H & _).
  exists out, σ', me'. split; [done|].
  exact (MatchOrders_loop_count _ _ _ _ _ _ _ OK H).
Qed.

Lemma sweep_trade_count_witness :
  ∃ out σ' me', MatchOrders (mem crossed) (engine crossed) = Some (out, σ', me') ∧
    (length (BuyOrders me') + length (SellOrders me') + length out
     ≤ length (BuyOrders (engine crossed)) + length (SellOrders (engine crossed)))%nat ∧
    (length (BuyOrders (engine crossed)) + length (SellOrders (engine crossed))
     ≤ length (BuyOrders me') + length (SellOrders me') + 2 * length out)%nat.
Proof.
  apply (sweep_trade_count (mem crossed) (engine crossed)).
  apply crossed_ok.
Defined.

(** X10. A sweep during which no order is received stays within the two
    books as they were at the call: it adds no order to a book and
    moves none from one book to the other, leaves the channel as it is,
    changes no order outside the books, and changes the ID, the type
    and the price of no order at all. *)
Theorem sweep_stays_within σ me :
  engine_ok σ me →
  ∃ out σ' me', MatchOrders σ me = Some (out, σ', me') ∧
    engine_ok σ' me' ∧
    BuyOrders me' ⊆+ BuyOrders me ∧ SellOrders me' ⊆+ SellOrders me ∧
    orderChannel me' = orderChannel me ∧
    same_outside (BuyOrders me ++ SellOrders me) σ σ' ∧
    ∀ l o, σ !! l = Some o →
      ∃ o', σ' !! l = Some o' ∧
        ID o' = ID o ∧ Type_ o' = Type_ o ∧ Price o' = Price o.
Proof.
  intros OK.
  destruct (MatchOrders_ok σ me OK) as (out & σ' & me' & H & OK' & Ec & O & Sb & Ss).
  exists out, σ', me'. split_and!; try done.
  exact (MatchOrders_loop_fields _ _ _ _ _ _ _ OK H).
Qed.

Lemma sweep_stays_within_witness :
  ∃ out σ' me', MatchOrders (mem crossed) (engine crossed) = Some (out, σ', me') ∧
    engine_ok σ' me' ∧
    BuyOrders me' ⊆+ BuyOrders (engine crossed) ∧
    SellOrders me' ⊆+ SellOrders (engine crossed) ∧
    orderChannel me' = orderChannel (engine crossed) ∧
    same_outside (BuyOrders (engine crossed) ++ SellOrders (engine crossed))
      (mem crossed) σ' ∧
    ∀ l o, mem crossed !! l = Some o →
      ∃ o', σ' !! l = Some o' ∧
        ID o' = ID o ∧ Type_ o' = Type_ o ∧ Price o' = Price o.
Proof.
  apply (sweep_stays_within (mem crossed) (engine crossed)).
  apply crossed_ok.
Defined.


Lemma crossed_amounts_ok :
  amounts_ok (mem crossed) (BuyOrders (engine crossed) ++ SellOrders (engine crossed)).
Proof.
  intros l Hl.
  change (BuyOrders (engine crossed) ++ SellOrders (engine crossed))
    with [1%positive; 2%positive; 3%positive] in Hl.
  repeat (apply elem_of_cons in Hl as [->|Hl]);
    [| | |by apply elem_of_nil in Hl]; vm_compute; (split; [discriminate|reflexivity]).
Qed.


(** ** Runs *)

(** X12. Whatever the operations run from the empty engine, every line
    written is a trade of [MatchOrders] whose buy price is at least its
    sell price. *)
Theorem every_trade_crosses acts :
  ∃ w, run start acts = Some w ∧ Forall crosses (stdout w).
Proof.
  destruct (run_ok acts start start_ok) as (w & H & _). exists w. split; [done|].
  refine (run_invariant (λ w, Forall crosses (stdout w)) (λ _, True)
            _ acts start w start_ok _ _ H).
  - intros w0 a w1 OK I _ Ha. by eapply act_crosses.
  - done.
  - by apply Forall_true.
Qed.

(** X13. When every order posted has a positive amount, every trade written
    is for a positive quantity. *)
Theorem trades_are_positive acts :
  Forall posted_positive acts →
  ∃ w, run start acts = Some w ∧ Forall (λ e, 0 < quantity e) (stdout w).
Proof.
  intros Ha. destruct (run_ok acts start start_ok) as (w & H & _).
  exists w. split; [done|].
  refine (proj2 (run_invariant
           (λ w, positive_amounts (mem w) (objects (engine w)) ∧
                 Forall (λ e, 0 < quantity e) (stdout w)) posted_positive
           _ acts start w start_ok _ Ha H)).
  - intros w0 a w1 OK [Pos I] Hp Hact. split.
    + by eapply act_positive.
    + by eapply act_quantities.
  - split; [|done]. intros l Hl. by apply elem_of_nil in Hl.
Qed.

Lemma trades_are_positive_witness :
  ∃ w, run start (cascade ++ [Sweep]) = Some w ∧
       Forall (λ e, 0 < quantity e) (stdout w).
Proof.
  apply (trades_are_positive (cascade ++ [Sweep])).
  repeat constructor; simpl; lia.
Defined.

(** X14. Whatever the operations run from the empty engine, no order is held
    twice (in a book or in the channel), the buy book holds orders of
    type ["BUY"] only and the sell book holds none of that type. *)
Theorem books_hold_their_side acts :
  ∃ w, run start acts = Some w ∧
    NoDup (BuyOrders (engine w) ++ SellOrders (engine w) ++ orderChannel (engine w)) ∧
    (∀ l, l ∈ BuyOrders (engine w) → Type_ <$> mem w !! l = Some Buy) ∧
    (∀ l, l ∈ SellOrders (engine w) →
          ∃ o, mem w !! l = Some o ∧ Type_ o ≠ Buy).
Proof.
  destruct (run_ok acts start start_ok) as (w & H & OK & _). exists w. split; [done|].
  assert (Sd : sided (mem w) (engine w)).
  { refine (run_invariant (λ w, sided (mem w) (engine w)) (λ _, True)
              _ acts start w start_ok _ _ H).
    - intros w0 a w1 OK0 I _ Hact. by eapply act_sided.
    - split; intros l Hl; by apply elem_of_nil in Hl.
    - by apply Forall_true. }
  destruct OK as (ND & _ & B & SB). split; [done|]. destruct Sd as [Sb Ss].
  split; intros l Hl.
  - destruct (book_ok_allocated _ _ _ B l Hl) as [o Ho].
    pose proof (Sb l Hl) as K. unfold kind in K. rewrite Ho in K. rewrite Ho.
    simpl. by rewrite K.
  - destruct (book_ok_allocated _ _ _ SB l Hl) as [o Ho].
    pose proof (Ss l Hl) as K. unfold kind in K. rewrite Ho in K. by exists o.
Qed.

(** X15. A sweep during which no order is received matches in price
    priority: every trade it writes is between an order that was in
    the buy book at the call and one that was in the sell book, with
    their identifiers and at their prices; the first is at the highest
    buy price and the lowest sell price of the books; and from one
    trade to any later one the buy price does not rise and the sell
    price does not fall. *)
Theorem sweep_trades_in_price_order σ me :
  engine_ok σ me →
  ∃ out σ' me', MatchOrders σ me = Some (out, σ', me') ∧
    StronglySorted before out ∧ Forall (between σ me) out ∧
    ∀ e, head out = Some e →
      (∀ l, l ∈ BuyOrders me → le_price (price σ l) (buyPrice e)) ∧
      (∀ l, l ∈ SellOrders me → le_price (sellPrice e) (price σ l)).
Proof.
  intros OK. destruct (MatchOrders_ok σ me OK) as (out & σ' & me' & H & _).
  exists out, σ', me'. split; [done|].
  exact (MatchOrders_loop_priority _ _ _ _ _ _ _ OK H).
Qed.

Lemma sweep_trades_in_price_order_witness :
  ∃ out σ' me', MatchOrders (mem crossed) (engine crossed) = Some (out, σ', me') ∧
    StronglySorted before out ∧ Forall (between (mem crossed) (engine crossed)) out ∧
    ∀ e, head out = Some e →
      (∀ l, l ∈ BuyOrders (engine crossed) →
            le_price (price (mem crossed) l) (buyPrice e)) ∧
      (∀ l, l ∈ SellOrders (engine crossed) →
            le_price (sellPrice e) (price (mem crossed) l)).
Proof.
  apply (sweep_trades_in_price_order (mem crossed) (engine crossed)).
  apply crossed_ok.
Defined.

Lemma same_core_sym σ σ' : same_core σ σ' → same_core σ' σ.
Proof. intros C l. symmetry. apply C. Qed.

(** X16. A sweep during which no order is received writes a trade exactly
    when the books cross at the call: it writes nothing if and only if
    every order of the buy book is priced below every order of the sell
    book (or one of the books is empty). *)
Theorem sweep_trades_iff_crossed σ me :
  engine_ok σ me →
  ∃ out σ' me', MatchOrders σ me = Some (out, σ', me') ∧
    (out = [] ↔ uncrossed σ me).
Proof.
  intros OK. destruct (MatchOrders_ok σ me OK) as (out & σ' & me' & H & _).
  exists out, σ', me'. split; [done|]. split.
  - intros ->. unfold MatchOrders in H. simpl in H.
    destruct (iteration 0 σ me) as [it|] eqn:Hit; [|done]. simpl in H.
    assert (Hw : written it = []).
    { destruct (ctl it); [by injection H as -> _ _|].
      destruct (MatchOrders_loop _ _ _ _) as [[[out1 σ1] me1]|]; [|done].
      simpl in H. injection H as H _ _. by apply app_eq_nil in H as [? _]. }
    destruct (iteration_shape _ _ _ _ OK Hit) as [(_ & Hctl & C & Pb & Ps)|Htr].
    + apply (uncrossed_quiet (imem it) (ieng it));
        [by apply same_core_sym|done|done|].
      exact (iteration_Break_uncrossed _ _ _ _ OK Hit Hctl).
    + destruct Htr as (? & ? & ? & ? & ? & ? & _ & _ & _ & _ & _ & _ & _ & Hw' & _).
      by rewrite Hw in Hw'.
  - intros U. destruct (MatchOrders_quiet σ me OK U) as (σ0 & me0 & H0 & _).
    congruence.
Qed.

Lemma sweep_trades_iff_crossed_witness :
  ∃ out σ' me', MatchOrders (mem apart) (engine apart) = Some (out, σ', me') ∧
    (out = [] ↔ uncrossed (mem apart) (engine apart)).
Proof.
  apply (sweep_trades_iff_crossed (mem apart) (engine apart)).
  apply apart_ok.
Defined.

(** ** The handlers *)

(** X17. The two query handlers, on an engine in good order.  On an empty
    book the answer is 404 with the handler's message and nothing
    changes.  Otherwise the answer is the root of the book as it is in
    memory, its heap index 0 included, and no order of the buy book has
    a higher price (of the sell book, a lower price); the only change
    in memory is the copy the query allocated. *)
Theorem top_of_book_handlers σ me :
  engine_ok σ me →
  match BuyOrders me !! 0%nat with
  | None =>
      GetHighestBuyOrderHandler σ me
      = Some (ErrorJSON 404 "No hay órdenes de compra disponibles", σ)
  | Some root =>
      ∃ o, σ !! root = Some o ∧ Index o = 0 ∧
        GetHighestBuyOrderHandler σ me = Some (OrderJSON o, <[new σ := o]> σ) ∧
        ∀ l, l ∈ BuyOrders me → le_price (price σ l) (Price o)
  end ∧
  match SellOrders me !! 0%nat with
  | None =>
      GetHighestSellOrderHandler σ me
      = Some (ErrorJSON 404 "No hay órdenes de venta disponibles", σ)
  | Some root =>
      ∃ o, σ !! root = Some o ∧ Index o = 0 ∧
        GetHighestSellOrderHandler σ me = Some (OrderJSON o, <[new σ := o]> σ) ∧
        ∀ l, l ∈ SellOrders me → le_price (Price o) (price σ l)
  end.
Proof.
  intros OK. split.
  - by apply GetHighestBuyOrderHandler_spec.
  - by apply GetHighestSellOrderHandler_spec.
Qed.

Lemma top_of_book_handlers_witness :
  (∃ o, mem crossed !! 1%positive = Some o ∧ Index o = 0 ∧
     GetHighestBuyOrderHandler (mem crossed) (engine crossed)
     = Some (OrderJSON o, <[new (mem crossed) := o]> (mem crossed)) ∧
     ∀ l, l ∈ BuyOrders (engine crossed) → le_price (price (mem crossed) l) (Price o)) ∧
  (∃ o, mem crossed !! 3%positive = Some o ∧ Index o = 0 ∧
     GetHighestSellOrderHandler (mem crossed) (engine crossed)
     = Some (OrderJSON o, <[new (mem crossed) := o]> (mem crossed)) ∧
     ∀ l, l ∈ SellOrders (engine crossed) → le_price (Price o) (price (mem crossed) l)).
Proof.
  apply (top_of_book_handlers (mem crossed) (engine crossed)).
  apply crossed_ok.
Defined.

(** X18. Round trip through the engine: an order posted to an engine whose
    channel is empty and then received is seen by the query of its
    side.  Posted with type ["BUY"], the buy query then answers an
    order priced at least as high; with any other type, the sell query
    answers an order priced at most as high.  If the book of its side
    was empty, the answer is the posted order itself, with heap
    index 0. *)
Theorem post_receive_query σ me out o :
  engine_ok σ me → orderChannel me = [] →
  ∃ w, run (mkWorld σ me out) [PostOrder (Some o); Receive] = Some w ∧
    orderChannel (engine w) = [] ∧
    if String.eqb (Type_ o) Buy then
      ∃ r σ', GetHighestBuyOrderHandler (mem w) (engine w) = Some (OrderJSON r, σ') ∧
        Index r = 0 ∧ le_price (Price o) (Price r) ∧
        (BuyOrders me = [] → core r = core o)
    else
      ∃ r σ', GetHighestSellOrderHandler (mem w) (engine w) = Some (OrderJSON r, σ') ∧
        Index r = 0 ∧ le_price (Price r) (Price o) ∧
        (SellOrders me = [] → core r = core o).
Proof.
  intros OK Ec.
  pose proof (engine_ok_alloc σ me o OK) as OK1.
  assert (Hx : <[new σ := o]> σ !! new σ = Some o) by apply lookup_insert_eq.
  destruct (addOrderInternal_ok (<[new σ := o]> σ) me (new σ) OK1)
    as (σ2 & me2 & H & OK2 & C & Ec2 & _ & o0 & Ho0 & R).
  { by rewrite Hx. }
  { intros Hin. by apply (engine_ok_new _ _ OK _ Hin). }
  assert (o0 = o) as -> by congruence.
  exists (mkWorld σ2 me2 out). split; [|split; [simpl; congruence|]].
  { simpl. unfold receive. simpl. rewrite Ec. simpl.
    replace (set_orderChannel (AddOrder me (new σ)) []) with me; [by rewrite H|].
    destruct me; simpl in *; by subst. }
  simpl. destruct (same_core_Some _ _ _ _ C Hx) as (o2 & Ho2 & E2).
  assert (Px : price σ2 (new σ) = Price o).
  { unfold price. rewrite Ho2. by apply core_Price. }
  destruct (String.eqb (Type_ o) Buy); destruct R as [P Same].
  - pose proof (GetHighestBuyOrderHandler_spec σ2 me2 OK2) as Q.
    destruct (BuyOrders me2) as [|root rest] eqn:E.
    { by apply Permutation_nil_cons in P. }
    simpl in Q. destruct Q as (r & Hr & Hi & -> & Hbest).
    exists r, (<[new σ2 := r]> σ2). split; [done|]. split; [done|]. split.
    + rewrite <- Px. apply Hbest. rewrite P. by left.
    + intros Eb. rewrite Eb in P. apply Permutation_singleton_r in P.
      injection P as -> _. assert (r = o2) as -> by congruence. done.
  - pose proof (GetHighestSellOrderHandler_spec σ2 me2 OK2) as Q.
    destruct (SellOrders me2) as [|root rest] eqn:E.
    { by apply Permutation_nil_cons in P. }
    simpl in Q. destruct Q as (r & Hr & Hi & -> & Hbest).
    exists r, (<[new σ2 := r]> σ2). split; [done|]. split; [done|]. split.
    + rewrite <- Px. apply Hbest. rewrite P. by left.
    + intros Eb. rewrite Eb in P. apply Permutation_singleton_r in P.
      injection P as -> _. assert (r = o2) as -> by congruence. done.
Qed.

Lemma post_receive_query_witness :
  ∃ w, run (mkWorld (mem crossed) (engine crossed) [])
         [PostOrder (Some (order 4 Buy (110 # 1) 1)); Receive] = Some w ∧
    orderChannel (engine w) = [] ∧
    ∃ r σ', GetHighestBuyOrderHandler (mem w) (engine w) = Some (OrderJSON r, σ') ∧
      Index r = 0 ∧ le_price (Price (order 4 Buy (110 # 1) 1)) (Price r) ∧
      (BuyOrders (engine crossed) = [] → core r = core (order 4 Buy (110 # 1) 1)).
Proof.
  apply (post_receive_query (mem crossed) (engine crossed) []
           (order 4 Buy (110 # 1) 1)).
  - apply crossed_ok.
  - reflexivity.
Defined.

(** ** The ingestion worker, order by order *)

(** X19. The loop of [processOrders] never returns.  Its first [turns]
    turns, with no sweep in between, take the [turns] oldest orders off
    the channel (all of them if fewer wait): those of type ["BUY"] are
    added to the buy book, all the others to the sell book; the books
    are in good order and no order changed but in its heap index. *)
Theorem processOrders_routes σ me turns :
  engine_ok σ me →
  ∃ σ' me', processOrders turns σ me = Some (σ', me') ∧
    engine_ok σ' me' ∧ same_core σ σ' ∧
    orderChannel me' = drop turns (orderChannel me) ∧
    BuyOrders me'
      ≡ₚ filter (λ l, kind σ l = Buy) (take turns (orderChannel me)) ++ BuyOrders me ∧
    SellOrders me'
      ≡ₚ filter (λ l, kind σ l ≠ Buy) (take turns (orderChannel me)) ++ SellOrders me.
Proof. intros OK. by apply processOrders_turns. Qed.

Lemma processOrders_routes_witness :
  let me := AddOrder (engine crossed) (new (mem crossed)) in
  ∃ σ' me', processOrders 1 with_stray me = Some (σ', me') ∧
    engine_ok σ' me' ∧ same_core with_stray σ' ∧
    orderChannel me' = drop 1 (orderChannel me) ∧
    BuyOrders me'
      ≡ₚ filter (λ l, kind with_stray l = Buy) (take 1 (orderChannel me))
         ++ BuyOrders me ∧
    SellOrders me'
      ≡ₚ filter (λ l, kind with_stray l ≠ Buy) (take 1 (orderChannel me))
         ++ SellOrders me.
Proof.
  apply (processOrders_routes with_stray
           (AddOrder (engine crossed) (new (mem crossed))) 1).
  apply (AddOrderHandler_ok (mem crossed) (engine crossed) (Some stray) 201).
  - apply crossed_ok.
  - reflexivity.
Defined.

(** ** [Swap] *)

(** X20. [Swap] twice at the same two positions of a book whose orders carry
    their positions gives back the book and the memory as they were. *)
Theorem Swap_twice σ h i j σ1 h1 :
  indexed σ h → Swap σ h i j = Some (σ1, h1) → Swap σ1 h1 i j = Some (σ, h).
Proof.
  intros I H.
  destruct (Swap_inv _ _ _ _ _ _ H) as (hi & hj & σa & Hi & Hj & Eh & Hi' & Hj' & S1 & S2).
  apply store_Index_Some in S1 as (oj & Hoj & ->).
  apply store_Index_Some in S2 as (oi' & Hoi' & ->).
  pose proof (lookup_lt_Some _ _ _ Hi) as Li.
  pose proof (lookup_lt_Some _ _ _ Hj) as Lj.
  pose proof (I _ _ Hi) as Ii. pose proof (I _ _ Hj) as Ij.
  rewrite Hoj in Ij. simpl in Ij. injection Ij as Ij.
  destruct (σ !! hi) as [oi|] eqn:Hoi; [|done]. simpl in Ii. injection Ii as Ii.
  assert (Hh : <[j := hj]> (<[i := hi]> h1) = h).
  { subst h1. apply list_eq. intros x.
    destruct (decide (x = j)) as [->|Hxj].
    { rewrite list_lookup_insert_eq; [done|]. by rewrite !length_insert. }
    rewrite list_lookup_insert_ne by done.
    destruct (decide (x = i)) as [->|Hxi].
    { rewrite list_lookup_insert_eq; [done|]. by rewrite !length_insert. }
    rewrite !list_lookup_insert_ne by done. done. }
  assert (Ri : set_Index oi (Z.of_nat i) = oi).
  { destruct oi. unfold set_Index. simpl in *. by rewrite Ii. }
  assert (Rj : set_Index oj (Z.of_nat j) = oj).
  { destruct oj. unfold set_Index. simpl in *. by rewrite Ij. }
  unfold Swap. rewrite Hi', Hj'. simpl. rewrite Hh, Hi, Hj. simpl.
  destruct (decide (hi = hj)) as [E|Hne].
  - subst hj. assert (oj = oi) as -> by congruence.
    assert (i = j) as -> by lia.
    rewrite lookup_insert_eq, Ri in Hoi'. injection Hoi' as <-.
    unfold store_Index. rewrite lookup_insert_eq. simpl. rewrite lookup_insert_eq. simpl.
    f_equal. f_equal. rewrite !insert_insert_eq.
    apply insert_id. by rewrite !Ri.
  - rewrite lookup_insert_ne in Hoi' by done.
    assert (oi' = oi) as -> by congruence.
    unfold store_Index. rewrite lookup_insert_eq. simpl.
    rewrite lookup_insert_ne by done. rewrite lookup_insert_ne by done.
    rewrite lookup_insert_eq. simpl. f_equal. f_equal.
    apply map_eq. intros l.
    destruct (decide (l = hj)) as [->|Hl1].
    { rewrite lookup_insert_eq, Hoj. f_equal.
      destruct oj. unfold set_Index. simpl in *. by rewrite Ij. }
    rewrite lookup_insert_ne by done.
    destruct (decide (l = hi)) as [->|Hl2].
    { rewrite lookup_insert_eq, Hoi. f_equal.
      destruct oi. unfold set_Index. simpl in *. by rewrite Ii. }
    by rewrite !lookup_insert_ne by done.
Qed.

Lemma crossed_buys_indexed : indexed (mem crossed) (BuyOrders (engine crossed)).
Proof. pose proof crossed_ok as (_ & _ & (_ & I & _) & _). exact I. Qed.

Lemma Swap_twice_witness :
  ∃ σ1 h1,
    Swap (mem crossed) (BuyOrders (engine crossed)) 0 1 = Some (σ1, h1) ∧
    Swap σ1 h1 0 1 = Some (mem crossed, BuyOrders (engine crossed)).
Proof.
  destruct (Swap (mem crossed) (BuyOrders (engine crossed)) 0 1)
    as [[σ1 h1]|] eqn:H; [|by vm_compute in H].
  exists σ1, h1. split; [done|].
  apply (Swap_twice (mem crossed) (BuyOrders (engine crossed)) 0 1 σ1 h1).
  - apply crossed_buys_indexed.
  - exact H.
Defined.

(** ** The handler of [POST /orders] *)

(** X21. [AddOrderHandler] on an engine in good order.  A body that does not
    parse is answered with 400 and submits nothing.  Any other is
    answered with 201 and puts one order at the back of the channel: a
    new object that holds the values of the body and is none of the
    orders the engine held.  Either way the books and the orders
    already in memory are as they were, and the engine is in good
    order. *)
Theorem AddOrderHandler_answers σ me body :
  engine_ok σ me →
  ∃ st σ' me', AddOrderHandler σ me body = (st, σ', me') ∧
    engine_ok σ' me' ∧
    BuyOrders me' = BuyOrders me ∧ SellOrders me' = SellOrders me ∧
    (∀ l, is_Some (σ !! l) → σ' !! l = σ !! l) ∧
    match body with
    | None => st = 400 ∧ orderChannel me' = orderChannel me
    | Some o =>
        st = 201 ∧
        ∃ p, σ !! p = None ∧ σ' !! p = Some o ∧
          (p ∉ objects me) ∧
          orderChannel me' = orderChannel me ++ [p]
    end.
Proof.
  intros OK.
  destruct (AddOrderHandler σ me body) as [[st σ'] me'] eqn:H.
  exists st, σ', me'. split; [done|].
  split; [by eapply AddOrderHandler_ok|].
  assert (Keep : ∀ x l, is_Some (σ !! l) → <[new σ := x]> σ !! l = σ !! l).
  { intros x l [o Ho]. apply lookup_insert_ne. intros <-.
    by rewrite new_fresh in Ho. }
  unfold AddOrderHandler in H. destruct body as [o|]; injection H as <- <- <-.
  - split; [done|]. split; [done|]. split; [by apply Keep|]. split; [done|].
    exists (new σ). split; [apply new_fresh|]. split; [apply lookup_insert_eq|].
    split; [|done]. intros Hin. by apply (engine_ok_new _ _ OK _ Hin).
  - split; [done|]. split; [done|]. split; [by apply Keep|]. done.
Qed.

Lemma AddOrderHandler_answers_witness :
  ∃ st σ' me',
    AddOrderHandler (mem crossed) (engine crossed) (Some stray) = (st, σ', me') ∧
    engine_ok σ' me' ∧
    BuyOrders me' = BuyOrders (engine crossed) ∧
    SellOrders me' = SellOrders (engine crossed) ∧
    (∀ l, is_Some (mem crossed !! l) → σ' !! l = mem crossed !! l) ∧
    st = 201 ∧
    ∃ p, mem crossed !! p = None ∧ σ' !! p = Some stray ∧
      (p ∉ objects (engine crossed)) ∧
      orderChannel me' = orderChannel (engine crossed) ++ [p].
Proof.
  apply (AddOrderHandler_answers (mem crossed) (engine crossed) (Some stray)).
  apply crossed_ok.
Defined.



(** X23. After a sweep during which no order is received, and before
    another is, the quotes do not cross: when both query handlers
    answer an order, the buy order's price is below the sell order's. *)
Theorem spread_after_sweep σ me :
  engine_ok σ me →
  ∃ out σ' me', MatchOrders σ me = Some (out, σ', me') ∧
    ∀ rb σb rs σs,
      GetHighestBuyOrderHandler σ' me' = Some (OrderJSON rb, σb) →
      GetHighestSellOrderHandler σ' me' = Some (OrderJSON rs, σs) →
      price_lt (Price rb) (Price rs) = true.
Proof.
  intros OK. destruct (MatchOrders_ok σ me OK) as (out & σ' & me' & H & OK' & _).
  exists out, σ', me'. split; [done|]. intros rb σb rs σs Hb Hs.
  pose proof (MatchOrders_loop_uncrossed _ _ _ _ _ _ _ OK H) as U.
  pose proof (GetHighestBuyOrderHandler_spec σ' me' OK') as Qb.
  pose proof (GetHighestSellOrderHandler_spec σ' me' OK') as Qs.
  destruct (BuyOrders me' !! 0%nat) as [b|] eqn:Rb; [|congruence].
  destruct (SellOrders me' !! 0%nat) as [s|] eqn:Rs; [|congruence].
  destruct Qb as (ob & Hob & _ & Eb & _). destruct Qs as (os & Hos & _ & Es & _).
  assert (rb = ob) as -> by congruence. assert (rs = os) as -> by congruence.
  apply (U b s); [by eapply list_elem_of_lookup_2|by eapply list_elem_of_lookup_2|done..].
Qed.

Lemma spread_after_sweep_witness :
  ∃ out σ' me', MatchOrders (mem apart) (engine apart) = Some (out, σ', me') ∧
    ∀ rb σb rs σs,
      GetHighestBuyOrderHandler σ' me' = Some (OrderJSON rb, σb) →
      GetHighestSellOrderHandler σ' me' = Some (OrderJSON rs, σs) →
      price_lt (Price rb) (Price rs) = true.
Proof.
  apply (spread_after_sweep (mem apart) (engine apart)).
  apply apart_ok.
Defined.
(** X24. Whatever the operations run from the empty engine, every trade
    written is between two orders that were posted, printed with the
    identifiers and the prices they were posted with: the buyer is an
    order posted with type ["BUY"], the seller one posted with another
    type. *)
Theorem trades_name_posted_orders acts :
  ∃ w, run start acts = Some w ∧ Forall (posted_trade (posted acts)) (stdout w).
Proof.
  destruct (run_ok acts start start_ok) as (w & H & _). exists w. split; [done|].
  by apply run_posted_trades.
Qed.
(** X25. On books whose amounts are not negative (and fit an [int]), the
    sum of the amounts in the buy book and the sum in the sell book
    both go down, over a sweep during which no order is received, by
    exactly the sum of the quantities of the trades it wrote. *)
Theorem sweep_volume σ me :
  engine_ok σ me → amounts_ok σ (BuyOrders me ++ SellOrders me) →
  ∃ out σ' me', MatchOrders σ me = Some (out, σ', me') ∧
    total σ' (BuyOrders me') = total σ (BuyOrders me) - volume out ∧
    total σ' (SellOrders me') = total σ (SellOrders me) - volume out.
Proof.
  intros OK Am. destruct (MatchOrders_ok σ me OK) as (out & σ' & me' & H & _).
  exists out, σ', me'. split; [done|].
  destruct (MatchOrders_loop_volume _ _ _ _ _ _ _ OK Am H) as (? & ? & _). done.
Qed.

Lemma sweep_volume_witness :
  ∃ out σ' me', MatchOrders (mem crossed) (engine crossed) = Some (out, σ', me') ∧
    total σ' (BuyOrders me')
    = total (mem crossed) (BuyOrders (engine crossed)) - volume out ∧
    total σ' (SellOrders me')
    = total (mem crossed) (SellOrders (engine crossed)) - volume out.
Proof.
  apply (sweep_volume (mem crossed) (engine crossed)).
  - apply crossed_ok.
  - apply crossed_amounts_ok.
Defined.

(** * The scenarios of the specification, run *)

Example scenario_single_match :
  outcome (run start [PostOrder (Some (order 1 Buy (100 # 1) 5)); Receive;
                      PostOrder (Some (order 2 Sell (100 # 1) 5)); Receive; Sweep])
  = Some ([MATCH 1 1 (100 # 1) 2 (100 # 1) 5], [], []).
Proof. vm_compute. reflexivity. Qed.

Example scenario_partial_fill :
  outcome (run start [PostOrder (Some (order 1 Buy (100 # 1) 10)); Receive;
                      PostOrder (Some (order 2 Sell (100 # 1) 3)); Receive; Sweep])
  = Some ([MATCH 1 1 (100 # 1) 2 (100 # 1) 3], [(1, (100 # 1)%Q, 7, 0)], []).
Proof. vm_compute. reflexivity. Qed.

Example scenario_no_cross :
  outcome (run apart [Sweep])
  = Some ([], [(1, (99 # 1)%Q, 5, 0)], [(2, (101 # 1)%Q, 5, 0)]).
Proof. vm_compute. reflexivity. Qed.

Example scenario_cascade :
  outcome (run crossed [Sweep])
  = Some ([MATCH 1 1 (105 # 1) 3 (99 # 1) 4; MATCH 2 2 (100 # 1) 3 (99 # 1) 1],
          [(2, (100 # 1)%Q, 1, 0)], []).
Proof. vm_compute. reflexivity. Qed.

Example scenario_price_priority :
  outcome (run start [PostOrder (Some (order 1 Buy (100 # 1) 1)); Receive;
                      PostOrder (Some (order 2 Buy (105 # 1) 1)); Receive;
                      PostOrder (Some (order 3 Sell (100 # 1) 1)); Receive; Sweep])
  = Some ([MATCH 1 2 (105 # 1) 3 (100 # 1) 1], [(1, (100 # 1)%Q, 1, 0)], []).
Proof. vm_compute. reflexivity. Qed.

(** A body that does not parse is answered with 400 and submits nothing. *)
Example scenario_bad_body :
  AddOrderHandler ∅ NewMatchingEngine None
  = (400, {[ 1%positive := zeroOrder ]}, NewMatchingEngine).
Proof. vm_compute. reflexivity. Qed.
